(** * The liquid template engine: scanner, structural parser, expression
      configuration and value conversion, embedded from the Go sources.

    Layout: the Go packages are Modules ([GoFmt] for the pieces of the Go
    library the sources call, [Expressions], [Values], [Parser], [Render]);
    all definitions come first, the theorems follow.  Go strings are byte
    strings, modelled as [string]; Go [int] is [Z]; the empty interface is
    [Any]. *)

From stdpp Require Import base gmap strings list.
From Stdlib Require Import ZArith Ascii String Lia.

Open Scope string_scope.
Set Warnings "-register-all".

(* ================================================================== *)
(** ** Pieces of the Go library used by the sources *)
(* ================================================================== *)

Module GoFmt.

(** [strings.Contains s substr], also what testify's [Contains] checks on
    an error message. *)
Fixpoint Contains (s substr : string) : bool :=
  String.prefix substr s ||
  match s with
  | EmptyString => false
  | String _ rest => Contains rest substr
  end.

(** [strings.Join elems sep]. *)
Fixpoint Join (elems : list string) (sep : string) : string :=
  match elems with
  | [] => ""
  | [e] => e
  | e :: rest => e ++ sep ++ Join rest sep
  end.

(** A byte that [%q] prints as itself: printable ASCII other than the
    double quote and the backslash. *)
Definition plain (c : ascii) : bool :=
  let n := nat_of_ascii c in
  (32 <=? n)%nat && (n <=? 126)%nat && negb (n =? 34)%nat && negb (n =? 92)%nat.

Fixpoint all_plain (s : string) : bool :=
  match s with
  | EmptyString => true
  | String c rest => plain c && all_plain rest
  end.

(** The double quote, and a string between double quotes. *)
Definition dquote : ascii := ascii_of_nat 34.
Definition quoted (s : string) : string := String dquote (s ++ String dquote "").

Section Quote.

(** What [strconv.Quote] returns on a string that needs escapes
    (control bytes, quotes, backslashes, bytes outside ASCII); the
    escaping tables belong to the Go library and stay a parameter. *)
Variable quoteEscaped : string -> string.

(** The [%q] verb of [fmt.Sprintf] on a string: a string of plain
    bytes is wrapped in double quotes unchanged. *)
Definition Quote (s : string) : string :=
  if all_plain s then quoted s else quoteEscaped s.

End Quote.

End GoFmt.

(* ================================================================== *)
(** ** Dynamic values: what a Go [interface{}] holds in this program *)
(* ================================================================== *)

(** Data values.  [VDrop v] is a value of a type with a [ToLiquid()]
    method (as [redConvertible] in the conversion tests), [v] being what
    the method returns. *)
Inductive Value : Type :=
| VNil
| VBool (b : bool)
| VInt (i : Z)
| VFloat64 (bits : Z)
| VString (s : string)
| VSlice (elems : list Value)
| VMap (entries : list (Value * Value))
| VDrop (liquid : Value).

(** The empty interface: a data value or a function value (filters are
    stored in the registry as function values). *)
Inductive Any : Type :=
| AValue (v : Value)
| AFunc1 (f : Value -> Value)
| AFunc2 (f : Value -> Value -> Value).

(** A call either returns or panics with a value. *)
Inductive outcome (A P : Type) : Type :=
| Returns (a : A)
| Panics (p : P).
Arguments Returns {A P} a.
Arguments Panics {A P} p.

(* ================================================================== *)
(** ** Package expressions: configuration and undefined-name handlers *)
(* ================================================================== *)

Module Expressions.

(** The error types the strict handlers panic with.  Both are Go string
    types holding the missing name. *)
Inductive UndefinedError : Type :=
| UndefinedFilter (name : string)
| UndefinedVariable (name : string).

Section ErrorText.
Variable quoteEscaped : string -> string.

(** [UndefinedVariable.Error]: [fmt.Sprintf("undefined variable %q", e)]. *)
Definition UndefinedVariable_Error (e : string) : string :=
  "undefined variable " ++ GoFmt.Quote quoteEscaped e.
End ErrorText.

(** The two handler interfaces. *)
Class UndefinedVariableHandler (M : Type) :=
  OnUndefinedVariable : M -> string -> outcome Any UndefinedError.

Class UndefinedFilterHandler (M : Type) :=
  OnUndefinedFilter : M -> string -> outcome Any UndefinedError.

(** [type StrictMode struct{}], [type LaxMode struct{}]. *)
Inductive StrictMode : Type := StrictMode_ : StrictMode.
Inductive LaxMode : Type := LaxMode_ : LaxMode.

(** Panics when a filter is missing. *)
#[export] Instance StrictMode_OnUndefinedFilter : UndefinedFilterHandler StrictMode :=
  fun mode name => Panics (UndefinedFilter name).

(** Panics when a variable is missing. *)
#[export] Instance StrictMode_OnUndefinedVariable : UndefinedVariableHandler StrictMode :=
  fun mode name => Panics (UndefinedVariable name).

Definition identityFilter (i : Value) : Value := i.

(** Uses an identity function as a default to ignore missing filters. *)
#[export] Instance LaxMode_OnUndefinedFilter : UndefinedFilterHandler LaxMode :=
  fun mode name => Returns (AFunc1 identityFilter).

(** Uses nil as a default value to ignore missing variables. *)
#[export] Instance LaxMode_OnUndefinedVariable : UndefinedVariableHandler LaxMode :=
  fun mode name => Returns (AValue VNil).

(** Interface values: a value of some type together with its method. *)
Inductive FilterErrorModeT : Type :=
| FilterHandler {M : Type} `{UndefinedFilterHandler M} (mode : M).

Inductive VariableErrorModeT : Type :=
| VariableHandler {M : Type} `{UndefinedVariableHandler M} (mode : M).

(** Config holds configuration information for expression
    interpretation. *)
Record Config : Type := {
  filters : gmap string Any;
  FilterErrorMode : FilterErrorModeT;
  VariableErrorMode : VariableErrorModeT
}.

(** NewConfig creates a new Config.  The [filters] map is left nil; a
    lookup in a nil map finds nothing. *)
Definition NewConfig : Config := {|
  filters := ∅;
  FilterErrorMode := FilterHandler StrictMode_;
  VariableErrorMode := VariableHandler LaxMode_
|}.

Definition GetFilter (c : Config) (name : string) : outcome Any UndefinedError :=
  match filters c !! name with
  | Some val => Returns val
  | None =>
      match FilterErrorMode c with
      | FilterHandler mode => OnUndefinedFilter mode name
      end
  end.

Definition GetVariable (c : Config) (bindings : gmap string Any) (name : string)
  : outcome Any UndefinedError :=
  match bindings !! name with
  | Some val => Returns val
  | None =>
      match VariableErrorMode c with
      | VariableHandler mode => OnUndefinedVariable mode name
      end
  end.

(** [c.VariableErrorMode = m]: the configuration with that field
    assigned. *)
Definition with_variable_mode (m : VariableErrorModeT) (c : Config) : Config :=
  {| filters := filters c; FilterErrorMode := FilterErrorMode c;
     VariableErrorMode := m |}.

(** [c.FilterErrorMode = m]. *)
Definition with_filter_mode (m : FilterErrorModeT) (c : Config) : Config :=
  {| filters := filters c; FilterErrorMode := m;
     VariableErrorMode := VariableErrorMode c |}.

End Expressions.

(* ================================================================== *)
(** ** Package values: conversion of a dynamic value to a Go type *)
(* ================================================================== *)

Module Values.

(** [reflect.Kind], for the kinds [Convert] switches on. *)
Inductive Kind : Type :=
| KBool
| KInt | KInt8 | KInt16 | KInt32 | KInt64
| KUint | KUint8 | KUint16 | KUint32 | KUint64
| KFloat32 | KFloat64
| KString
| KMap | KSlice | KStruct | KInterface.

(** [reflect.Type], for the target types: the basic types, slices, maps,
    the empty interface and struct types ([time.Time] and [Number] are
    the two [Convert] compares its target with). *)
Inductive GoType : Type :=
| Basic (k : Kind)
| SliceOf (elem : GoType)
| MapOf (key elem : GoType)
| EmptyInterface
| StructType (name : string).

Definition timeType : GoType := StructType "time.Time".
Definition numberType : GoType := StructType "values.Number".

Definition Kind_eqb (a b : Kind) : bool :=
  match a, b with
  | KBool, KBool | KInt, KInt | KInt8, KInt8 | KInt16, KInt16
  | KInt32, KInt32 | KInt64, KInt64 | KUint, KUint | KUint8, KUint8
  | KUint16, KUint16 | KUint32, KUint32 | KUint64, KUint64
  | KFloat32, KFloat32 | KFloat64, KFloat64 | KString, KString
  | KMap, KMap | KSlice, KSlice | KStruct, KStruct
  | KInterface, KInterface => true
  | _, _ => false
  end.

(** [typ.Kind()]. *)
Definition KindOf (typ : GoType) : Kind :=
  match typ with
  | Basic k => k
  | SliceOf _ => KSlice
  | MapOf _ _ => KMap
  | EmptyInterface => KInterface
  | StructType _ => KStruct
  end.

(** Type identity, [typ == timeType]. *)
Fixpoint GoType_eqb (a b : GoType) : bool :=
  match a, b with
  | Basic k, Basic k' => Kind_eqb k k'
  | SliceOf e, SliceOf e' => GoType_eqb e e'
  | MapOf k e, MapOf k' e' => GoType_eqb k k' && GoType_eqb e e'
  | EmptyInterface, EmptyInterface => true
  | StructType n, StructType n' => String.eqb n n'
  | _, _ => false
  end.

(** [reflect.TypeOf]: the dynamic type of a value; nil has none. *)
Definition TypeOf (value : Value) : option GoType :=
  match value with
  | VNil => None
  | VBool _ => Some (Basic KBool)
  | VInt _ => Some (Basic KInt)
  | VFloat64 _ => Some (Basic KFloat64)
  | VString _ => Some (Basic KString)
  | VSlice _ => Some (SliceOf EmptyInterface)
  | VMap _ => Some (MapOf EmptyInterface EmptyInterface)
  | VDrop _ => Some (StructType "drop")
  end.

Definition isNumeric (k : Kind) : bool :=
  match k with
  | KInt | KInt8 | KInt16 | KInt32 | KInt64
  | KUint | KUint8 | KUint16 | KUint32 | KUint64
  | KFloat32 | KFloat64 => true
  | _ => false
  end.

Definition isInteger (k : Kind) : bool :=
  match k with
  | KInt | KInt8 | KInt16 | KInt32 | KInt64
  | KUint | KUint8 | KUint16 | KUint32 | KUint64 => true
  | _ => false
  end.

(** [src.ConvertibleTo(dst)], Go's conversion rules on these types:
    identical types; every type to the empty interface; numeric types
    among themselves; integers to string; string to and from byte and
    rune slices. *)
Definition ConvertibleTo (src dst : GoType) : bool :=
  GoType_eqb src dst ||
  match src, dst with
  | _, EmptyInterface => true
  | Basic a, Basic b =>
      (isNumeric a && isNumeric b) || (isInteger a && Kind_eqb b KString)
  | Basic KString, SliceOf (Basic k) | SliceOf (Basic k), Basic KString =>
      Kind_eqb k KUint8 || Kind_eqb k KInt32
  | _, _ => false
  end.

Definition isNil (value : Value) : bool :=
  match value with VNil => true | _ => false end.

(** [value == false] on an interface value: a bool that is false. *)
Definition isFalse (value : Value) : bool :=
  match value with VBool false => true | _ => false end.

(** Modelled from the spec: [values.ToLiquid] is missing from the
    sources and the spec says nothing of it, so the model follows the
    conversion tests, where [redConvertible{}], whose [ToLiquid()] method
    returns "red", converts to "red": a value with a [ToLiquid] method is
    replaced by what the method returns, any other value is kept. *)
Definition ToLiquid (value : Value) : Value :=
  match value with
  | VDrop liquid => liquid
  | _ => value
  end.

(** A TypeError is an error during type conversion. *)
Definition TypeError : Type := string.

Section Convert.

(** The Go library and the branches of [Convert] for targets other
    than bool, which nothing below depends on: [rv.Convert(typ)]
    between different types, [ParseDate], [convertValueToNumber], and
    the integer, float, map, slice and string cases of the switch with
    the closing [conversionError]. *)
Variable libConvert : Value -> GoType -> Value.
Variable ParseDate : string -> Value * option TypeError.
Variable convertValueToNumber : Value -> GoType -> Value.
Variable convertOtherKind : Value -> GoType -> Value * option TypeError.

(** [rv.Convert(typ)] where [rv.Type().ConvertibleTo(typ)]: between
    identical types, or into the empty interface, the value is itself. *)
Definition reflect_Convert (value : Value) (typ : GoType) : Value :=
  match TypeOf value with
  | Some t =>
      if GoType_eqb t typ || GoType_eqb typ EmptyInterface then value
      else libConvert value typ
  | None => value
  end.

(** Convert value to the type. *)
Definition Convert (value : Value) (typ : GoType) : Value * option TypeError :=
  let value := ToLiquid value in
  if negb (Kind_eqb (KindOf typ) KString) && negb (isNil value)
     && match TypeOf value with
        | Some t => ConvertibleTo t typ
        | None => false
        end
  then (reflect_Convert value typ, None)
  else
    match GoType_eqb typ timeType, value with
    | true, VString s => ParseDate s
    | _, _ =>
        if GoType_eqb typ numberType then (convertValueToNumber value typ, None)
        else
          match KindOf typ with
          | KBool => (VBool (negb (isNil value || isFalse value)), None)
          | _ => convertOtherKind value typ
          end
    end.

End Convert.

End Values.

(* ================================================================== *)
(** ** Package parser: tokens, scanner and structural parser *)
(* ================================================================== *)

Module Parser.

(** *** Tokens *)

Inductive TokenType : Type := TextTokenType | TagTokenType | ObjTokenType.

Definition TokenType_eqb (a b : TokenType) : bool :=
  match a, b with
  | TextTokenType, TextTokenType
  | TagTokenType, TagTokenType
  | ObjTokenType, ObjTokenType => true
  | _, _ => false
  end.

(** A source location: file path and line number. *)
Record SourceLoc : Type := {
  Pathname : string;
  LineNo : Z
}.

(** A Token is either an object [{{a.b}}], a tag [{%if a>b%}], or a
    text chunk (anything outside of [{{}}] and [{%%}]). *)
Record Token : Type := {
  TokType : TokenType;
  Loc : SourceLoc;
  Name : string;
  Args : string;
  Source : string;
  TrimLeft : bool;
  TrimRight : bool
}.

(** *** String helpers of the scanner *)

Fixpoint index_of (marker s : string) : option nat :=
  if String.prefix marker s then Some 0%nat
  else match s with
       | EmptyString => None
       | String _ rest => S <$> index_of marker rest
       end.

Fixpoint take (n : nat) (s : string) : string :=
  match n, s with
  | S n', String c rest => String c (take n' rest)
  | _, _ => ""
  end.

Fixpoint drop (n : nat) (s : string) : string :=
  match n, s with
  | S n', String _ rest => drop n' rest
  | _, _ => s
  end.

Fixpoint count_newlines (s : string) : Z :=
  match s with
  | EmptyString => 0
  | String c rest =>
      ((if Ascii.eqb c "010"%char then 1 else 0) + count_newlines rest)%Z
  end.

(** White space: space, tab, line feed, vertical tab, form feed,
    carriage return. *)
Definition is_space (c : ascii) : bool :=
  let n := nat_of_ascii c in
  (n =? 32)%nat || ((9 <=? n)%nat && (n <=? 13)%nat).

Fixpoint trim_left (s : string) : string :=
  match s with
  | String c rest => if is_space c then trim_left rest else s
  | EmptyString => ""
  end.

Fixpoint rev_onto (s acc : string) : string :=
  match s with
  | EmptyString => acc
  | String c rest => rev_onto rest (String c acc)
  end.

Definition reverse (s : string) : string := rev_onto s "".

Definition trim_right (s : string) : string := reverse (trim_left (reverse s)).

Definition trim (s : string) : string := trim_right (trim_left s).

(** The leading run of bytes that are not white space, and what
    follows it. *)
Fixpoint split_word (s : string) : string * string :=
  match s with
  | EmptyString => ("", "")
  | String c rest =>
      if is_space c then ("", s)
      else let '(w, r) := split_word rest in (String c w, r)
  end.

(** A leading [-] is the left-trim flag. *)
Definition strip_leading_dash (s : string) : bool * string :=
  match s with
  | String "-"%char rest => (true, rest)
  | _ => (false, s)
  end.

(** A trailing [-] is the right-trim flag. *)
Definition strip_trailing_dash (s : string) : bool * string :=
  match reverse s with
  | String "-"%char rest => (true, reverse rest)
  | _ => (false, s)
  end.

(** *** Scanner *)

Definition default_delims : list string := ["{{"; "}}"; "{%"; "%}"].

Definition text_token (loc : SourceLoc) (text : string) : Token :=
  {| TokType := TextTokenType; Loc := loc; Name := ""; Args := "";
     Source := text; TrimLeft := false; TrimRight := false |}.

Definition advance (loc : SourceLoc) (consumed : string) : SourceLoc :=
  {| Pathname := Pathname loc; LineNo := (LineNo loc + count_newlines consumed)%Z |}.

(** The token of one construct: [left] and [right] are its markers,
    [interior] the text between them. *)
Definition construct_token (ty : TokenType) (loc : SourceLoc)
    (left interior right : string) : Token :=
  let '(tl, body) := strip_leading_dash interior in
  let '(tr, body) := strip_trailing_dash body in
  let body := trim body in
  match ty with
  | TagTokenType =>
      let '(name, rest) := split_word body in
      {| TokType := TagTokenType; Loc := loc; Name := name; Args := trim rest;
         Source := left ++ interior ++ right; TrimLeft := tl; TrimRight := tr |}
  | _ =>
      {| TokType := ObjTokenType; Loc := loc; Name := ""; Args := body;
         Source := left ++ interior ++ right; TrimLeft := tl; TrimRight := tr |}
  end.

(** The nearest left marker in [s]: its position and whether it opens an
    object.  At equal positions the object marker is taken. *)
Definition nearest_left (objLeft tagLeft s : string) : option (nat * bool) :=
  match index_of objLeft s, index_of tagLeft s with
  | Some i, Some j => if (i <=? j)%nat then Some (i, true) else Some (j, false)
  | Some i, None => Some (i, true)
  | None, Some j => Some (j, false)
  | None, None => None
  end.

Fixpoint scan_loop (fuel : nat) (objLeft objRight tagLeft tagRight : string)
    (s : string) (loc : SourceLoc) : list Token :=
  match fuel with
  | O => []
  | S fuel' =>
      let rest_as_text := if String.eqb s "" then [] else [text_token loc s] in
      match nearest_left objLeft tagLeft s with
      | None => rest_as_text
      | Some (i, isObj) =>
          let left := if isObj then objLeft else tagLeft in
          let right := if isObj then objRight else tagRight in
          let after := drop (i + String.length left) s in
          match index_of right after with
          | None => rest_as_text
          | Some j =>
              let before := take i s in
              let interior := take j after in
              let loc1 := advance loc before in
              let tok :=
                construct_token (if isObj then ObjTokenType else TagTokenType)
                  loc1 left interior right in
              (if String.eqb before "" then [] else [text_token loc before])
              ++ tok :: scan_loop fuel' objLeft objRight tagLeft tagRight
                          (drop (j + String.length right) after)
                          (advance loc1 (Source tok))
          end
      end
  end.

(** Modelled from the spec: the scanner [Scan] is missing from the
    sources (only its tests are there), so this follows section 4.1 of
    the spec.  The nearest marker is searched in the remaining text;
    the text before it is a Text token (an empty one is suppressed); a
    tag interior is split into a first white-space-delimited name and
    the trimmed remainder; a [-] next to a marker sets the trim flag and
    is stripped; an object has no name and its trimmed interior is its
    Args; the location advances by the newlines consumed.  Where the
    spec leaves a choice: a construct without its right marker makes the
    rest of the input literal text, a right marker outside a construct
    is literal text, and a delimiter list that has not four elements
    selects the defaults. *)
Definition Scan (data : string) (loc : SourceLoc) (delims : list string) : list Token :=
  let delims :=
    match delims with
    | [_; _; _; _] => delims
    | _ => default_delims
    end in
  match delims with
  | [objLeft; objRight; tagLeft; tagRight] =>
      scan_loop (S (String.length data)) objLeft objRight tagLeft tagRight data loc
  | _ => []
  end.

(** The delimiters of [TestScan_delims]. *)
Definition test_delims : list string :=
  ["OBJECT@LEFT"; "OBJECT#RIGHT"; "TAG*LEFT"; "TAG!RIGHT"].

(** *** The grammar and the expression parser, as the parser sees them *)

(** BlockSyntax supplies the parser with syntactic information about
    blocks (the methods [parseTokens] calls). *)
Class BlockSyntax (BS : Type) : Type := {
  CanHaveParent : BS -> option BS -> bool;
  IsBlockEnd : BS -> bool;
  IsBlockStart : BS -> bool;
  IsClause : BS -> bool;
  ParentTags : BS -> list string;
  RequiresParent : BS -> bool;
  TagName : BS -> string
}.

(** Grammar supplies the parser with syntactic information about
    blocks: [g.BlockSyntax(name)] returns the syntax and whether the name
    is registered. *)
Class Grammar (G BS : Type) : Type :=
  Grammar_BlockSyntax : G -> string -> option BS.

(** *** The syntax tree, as the parser builds it in memory *)

Section AST.

Context {BS : Type} {Expression : Type}.

Record ASTText : Type := { ASTText_Token : Token }.
Record ASTTag : Type := { ASTTag_Token : Token }.
Record ASTObject : Type := { ASTObject_Token : Token; Expr : Expression }.

(** An [ASTNode] interface value: a pointer to a node.  Text, tag and
    object nodes are never written after they are made and are kept by
    value; blocks and raw nodes are written through their pointers and
    are addresses into the heap below. *)
Inductive ASTNode : Type :=
| TextRef (n : ASTText)
| TagRef (n : ASTTag)
| ObjectRef (n : ASTObject)
| BlockRef (addr : nat)
| RawRef (addr : nat).

(** ASTBlock represents a [{% tag %}...{% endtag %}]. *)
Record ASTBlock : Type := {
  ASTBlock_Token : Token;
  syntax : BS;
  Body : list ASTNode;
  Clauses : list nat
}.

(** ASTRaw holds the text between the start and end of a raw tag. *)
Record ASTRaw : Type := { Slices : list string }.

(** ASTSeq is a sequence of nodes. *)
Record ASTSeq : Type := { Children : list ASTNode }.

(** The memory of one [parseTokens] call: the root sequence and the
    blocks and raw nodes allocated so far, each at the index it was
    allocated at. *)
Record heap : Type := {
  root : ASTSeq;
  blocks : list ASTBlock;
  raws : list ASTRaw
}.

(** [ap]: a pointer to the slice new nodes are appended to, either
    [&root.Children] or the [Body] of a block. *)
Inductive appendPtr : Type :=
| RootChildren
| BodyOf (addr : nat).

Definition append_Body (n : ASTNode) (b : ASTBlock) : ASTBlock :=
  {| ASTBlock_Token := ASTBlock_Token b; syntax := syntax b;
     Body := Body b ++ [n]; Clauses := Clauses b |}.

Definition append_Clause (c : nat) (b : ASTBlock) : ASTBlock :=
  {| ASTBlock_Token := ASTBlock_Token b; syntax := syntax b;
     Body := Body b; Clauses := Clauses b ++ [c] |}.

Definition append_Slice (src : string) (r : ASTRaw) : ASTRaw :=
  {| Slices := Slices r ++ [src] |}.

(** [*ap = append( *ap, n)]. *)
Definition append_at (ap : appendPtr) (n : ASTNode) (h : heap) : heap :=
  match ap with
  | RootChildren =>
      {| root := {| Children := Children (root h) ++ [n] |};
         blocks := blocks h; raws := raws h |}
  | BodyOf a =>
      {| root := root h; blocks := alter (append_Body n) a (blocks h);
         raws := raws h |}
  end.

(** [&ASTBlock{...}]: the new block and its address. *)
Definition alloc_block (b : ASTBlock) (h : heap) : nat * heap :=
  (List.length (blocks h),
   {| root := root h; blocks := blocks h ++ [b]; raws := raws h |}).

(** [&ASTRaw{}]. *)
Definition alloc_raw (h : heap) : nat * heap :=
  (List.length (raws h),
   {| root := root h; blocks := blocks h; raws := raws h ++ [{| Slices := [] |}] |}).

(** [bn.Clauses = append(bn.Clauses, n)]. *)
Definition append_clause_at (bn c : nat) (h : heap) : heap :=
  {| root := root h; blocks := alter (append_Clause c) bn (blocks h);
     raws := raws h |}.

(** [rawTag.Slices = append(rawTag.Slices, src)]. *)
Definition append_slice_at (r : nat) (src : string) (h : heap) : heap :=
  {| root := root h; blocks := blocks h;
     raws := alter (append_Slice src) r (raws h) |}.

(** *** The tree reachable from the root *)

Inductive AST : Type :=
| Seq (children : list AST)
| Text (tok : Token)
| Tag (tok : Token)
| Object (tok : Token) (expr : Expression)
| Block (tok : Token) (syn : BS) (body : list AST) (clauses : list AST)
| Raw (slices : list string).

(** The node a pointer denotes, given the trees of the blocks at the
    addresses from [first] on.  A block only points to blocks made
    after it. *)
Definition tree_of (rs : list ASTRaw) (first : nat) (later : list AST)
    (n : ASTNode) : AST :=
  match n with
  | TextRef t => Text (ASTText_Token t)
  | TagRef t => Tag (ASTTag_Token t)
  | ObjectRef o => Object (ASTObject_Token o) (Expr o)
  | BlockRef a =>
      if (first <=? a)%nat then default (Seq []) (later !! (a - first)%nat)
      else Seq []
  | RawRef r => Raw (default [] (Slices <$> rs !! r))
  end.

(** The trees of the blocks at the addresses [first], [first + 1], ... *)
Fixpoint trees_from (rs : list ASTRaw) (first : nat) (bs : list ASTBlock)
    : list AST :=
  match bs with
  | [] => []
  | b :: rest =>
      let later := trees_from rs (S first) rest in
      Block (ASTBlock_Token b) (syntax b)
        (tree_of rs (S first) later <$> Body b)
        (tree_of rs (S first) later <$> (BlockRef <$> Clauses b))
      :: later
  end.

(** The tree under the root. *)
Definition tree (h : heap) : AST :=
  Seq (tree_of (raws h) 0 (trees_from (raws h) 0 (blocks h)) <$> Children (root h)).

End AST.

Arguments ASTNode : clear implicits.
Arguments ASTBlock : clear implicits.
Arguments ASTObject : clear implicits.
Arguments heap : clear implicits.
Arguments AST : clear implicits.

(** *** Errors *)

(** A parse error.  [Errorf loc msg] is what
    [Errorf(loc, format, a...)] builds, [msg] being the formatted
    message and [loc] the token the error is located at (for a block
    node, its token); [WrapError err loc] wraps the error of the
    expression parser. *)
Inductive Error {ExprError : Type} : Type :=
| Errorf (loc : Token) (msg : string)
| WrapError (err : ExprError) (loc : Token).
Arguments Error : clear implicits.

(** *** parseTokens *)

Section ParseTokens.

Context {BS G Expression ExprError : Type}.
Context `{!BlockSyntax BS} `{!Grammar G BS}.

(** [expressions.Parse]. *)
Variable expressions_Parse : string -> Expression + ExprError.
Variable quoteEscaped : string -> string.

(** a stack of control tag state, for matching nested
    [{%if}{%endif%}] etc. *)
Record frame : Type := {
  frame_syntax : option BS;
  frame_node : option nat;
  frame_ap : appendPtr
}.

(** The local variables of [parseTokens] with the memory they point
    into. *)
Record state : Type := {
  mem : heap BS Expression;   (* [root] and the nodes made so far *)
  ap : appendPtr;             (* newly-constructed nodes are appended here *)
  sd : option BS;             (* current block syntax definition *)
  bn : option nat;            (* current block node *)
  stack : list frame;         (* stack of blocks *)
  rawTag : option nat;        (* current raw tag *)
  inComment : bool;
  inRaw : bool
}.

Definition initial : state := {|
  mem := {| root := {| Children := [] |}; blocks := []; raws := [] |};
  ap := RootChildren; sd := None; bn := None; stack := [];
  rawTag := None; inComment := false; inRaw := false
|}.

Definition set_mem (h : heap BS Expression) (st : state) : state :=
  {| mem := h; ap := ap st; sd := sd st; bn := bn st; stack := stack st;
     rawTag := rawTag st; inComment := inComment st; inRaw := inRaw st |}.

Definition set_ap (p : appendPtr) (st : state) : state :=
  {| mem := mem st; ap := p; sd := sd st; bn := bn st; stack := stack st;
     rawTag := rawTag st; inComment := inComment st; inRaw := inRaw st |}.

Definition set_inComment (b : bool) (st : state) : state :=
  {| mem := mem st; ap := ap st; sd := sd st; bn := bn st; stack := stack st;
     rawTag := rawTag st; inComment := b; inRaw := inRaw st |}.

Definition set_inRaw (b : bool) (st : state) : state :=
  {| mem := mem st; ap := ap st; sd := sd st; bn := bn st; stack := stack st;
     rawTag := rawTag st; inComment := inComment st; inRaw := b |}.

Definition set_rawTag (r : option nat) (st : state) : state :=
  {| mem := mem st; ap := ap st; sd := sd st; bn := bn st; stack := stack st;
     rawTag := r; inComment := inComment st; inRaw := inRaw st |}.

(** What one turn of the loop does: go on with a new state, return
    from [parseTokens], or panic. *)
Inductive step_result : Type :=
| Next (st : state)
| Return (node : option (AST BS Expression)) (err : option (Error ExprError))
| Panic (what : string).

Definition is_tag_named (name : string) (tokV : Token) : bool :=
  TokenType_eqb (TokType tokV) TagTokenType && String.eqb (Name tokV) name.

(** The message of the parent error:
    ["%s not inside %s%s"] with the tag name, the parent tags joined by
    [" or "] and the suffix. *)
Definition not_inside_msg (tokV : Token) (cs : BS) (sd : option BS) : string :=
  let suffix :=
    match sd with
    | Some s => "; immediate parent is " ++ TagName s
    | None => ""
    end in
  Name tokV ++ " not inside " ++ GoFmt.Join (ParentTags cs) " or " ++ suffix.

(** [push] followed by [ap = &bn.Body]. *)
Definition block_start (tokV : Token) (cs : BS) (st : state) : state :=
  let '(b, h) :=
    alloc_block {| ASTBlock_Token := tokV; syntax := cs; Body := []; Clauses := [] |}
                (mem st) in
  {| mem := append_at (ap st) (BlockRef b) h;
     ap := BodyOf b;
     sd := Some cs; bn := Some b;
     stack := stack st ++ [{| frame_syntax := sd st; frame_node := bn st;
                              frame_ap := ap st |}];
     rawTag := rawTag st; inComment := inComment st; inRaw := inRaw st |}.

(** A clause: a new block appended to the clauses of the current block
    node; dereferencing a nil [bn] panics. *)
Definition clause (tokV : Token) (cs : BS) (st : state) : step_result :=
  let '(n, h) :=
    alloc_block {| ASTBlock_Token := tokV; syntax := cs; Body := []; Clauses := [] |}
                (mem st) in
  match bn st with
  | Some b => Next (set_ap (BodyOf n) (set_mem (append_clause_at b n h) st))
  | None => Panic "nil pointer dereference"
  end.

(** [pop]: indexing an empty stack panics. *)
Definition block_end (st : state) : step_result :=
  match last (stack st) with
  | Some f =>
      Next {| mem := mem st; ap := frame_ap f; sd := frame_syntax f;
              bn := frame_node f; stack := removelast (stack st);
              rawTag := rawTag st; inComment := inComment st; inRaw := inRaw st |}
  | None => Panic "index out of range"
  end.

(** The body of the loop over the tokens. *)
Definition step (g : G) (st : state) (tokV : Token) : step_result :=
  if inComment st then
    if is_tag_named "endcomment" tokV then Next (set_inComment false st)
    else Next st
  else if inRaw st then
    if is_tag_named "endraw" tokV then Next (set_inRaw false st)
    else match rawTag st with
         | Some r => Next (set_mem (append_slice_at r (Source tokV) (mem st)) st)
         | None => Next st
         end
  else
    match TokType tokV with
    | ObjTokenType =>
        match expressions_Parse (Args tokV) with
        | inr err => Return None (Some (WrapError err tokV))
        | inl expr =>
            Next (set_mem (append_at (ap st)
                     (ObjectRef {| ASTObject_Token := tokV; Expr := expr |})
                     (mem st)) st)
        end
    | TextTokenType =>
        Next (set_mem (append_at (ap st) (TextRef {| ASTText_Token := tokV |})
                 (mem st)) st)
    | TagTokenType =>
        match Grammar_BlockSyntax g (Name tokV) with
        | Some cs =>
            if String.eqb (Name tokV) "comment" then Next (set_inComment true st)
            else if String.eqb (Name tokV) "raw" then
              let '(r, h) := alloc_raw (mem st) in
              Next (set_mem (append_at (ap st) (RawRef r) h)
                      (set_rawTag (Some r) (set_inRaw true st)))
            else if RequiresParent cs
                    && match sd st with
                       | None => true
                       | Some _ => negb (CanHaveParent cs (sd st))
                       end
            then Return None (Some (Errorf tokV (not_inside_msg tokV cs (sd st))))
            else if IsBlockStart cs then Next (block_start tokV cs st)
            else if IsClause cs then clause tokV cs st
            else if IsBlockEnd cs then block_end st
            else Panic ("block type " ++ GoFmt.Quote quoteEscaped (Name tokV))
        | None =>
            Next (set_mem (append_at (ap st) (TagRef {| ASTTag_Token := tokV |})
                     (mem st)) st)
        end
    end.

(** The loop: the tokens in order, until one returns or panics. *)
Fixpoint run (g : G) (tokens : list Token) (st : state) : step_result :=
  match tokens with
  | [] => Next st
  | tok :: rest =>
      match step g st tok with
      | Next st' => run g rest st'
      | stop => stop
      end
  end.

(** What follows the loop: an open block is an error. *)
Definition finish (st : state) : step_result :=
  match bn st with
  | Some b =>
      match blocks (mem st) !! b with
      | Some blk =>
          Return None
            (Some (Errorf (ASTBlock_Token blk)
                     ("unterminated " ++ GoFmt.Quote quoteEscaped (Name (ASTBlock_Token blk))
                      ++ " block")))
      | None => Panic "nil pointer dereference"
      end
  | None => Return (Some (tree (mem st))) None
  end.

(** The shape of the stack: [open_blocks n stack bn] says that the
    current block node [bn] is nil with an empty stack, and otherwise a
    block among the first [n] allocated, the top frame holding the
    block node that was current before it. *)
Inductive open_blocks (n : nat) : list frame -> option nat -> Prop :=
| open_none : open_blocks n [] None
| open_push (stk : list frame) (f : frame) (b : nat) :
    (b < n)%nat ->
    open_blocks n stk (frame_node f) ->
    open_blocks n (stk ++ [f]) (Some b).

(** The state a raw region leaves behind: one raw node more in
    memory, holding the source texts of the tokens of the region, and
    one reference to it appended at the insertion point. *)
Definition after_raw (st : state) (mid : list Token) : state :=
  let r := List.length (raws (mem st)) in
  set_mem (append_at (ap st) (RawRef r)
             {| root := root (mem st); blocks := blocks (mem st);
                raws := raws (mem st) ++ [{| Slices := Source <$> mid |}] |})
    (set_rawTag (Some r) st).

(** A Config holds configuration information for parsing and
    rendering. *)
Record Config : Type := {
  Config_Config : Expressions.Config;
  Config_Grammar : G;
  Delims : list string
}.

(** NewConfig creates a parser Config. *)
Definition NewConfig (g : G) : Config :=
  {| Config_Config := Expressions.NewConfig; Config_Grammar := g; Delims := [] |}.

(** Parse creates an AST from a sequence of tokens. *)
Definition parseTokens (c : Config) (tokens : list Token) : step_result :=
  match run (Config_Grammar c) tokens initial with
  | Next st => finish st
  | stop => stop
  end.

(** Parse parses a source template. It returns an AST root, that can
    be compiled and evaluated. *)
Definition Parse (c : Config) (source : string) (loc : SourceLoc) : step_result :=
  let tokens := Scan source loc (Delims c) in
  parseTokens c tokens.

End ParseTokens.

End Parser.

(* ================================================================== *)
(** ** Package render: the grammar registry and the compile phase *)
(* ================================================================== *)

Module Render.

Import Parser.

(** Modelled from the spec: the grammar registry of the render package
    ([AddBlock], [Clause] and the syntax records they make) is missing
    from the sources.  Following the spec's grammar (section 3 and the
    registration surface of section 6), a syntax record has a role
    (block start, clause or block end) and its parent tags: a block end
    [endX] has the one parent [X], a clause has the blocks it was
    registered for, and both require a parent; a block start requires
    none. *)
Record blockSyntax : Type := {
  name : string;
  isClause : bool;
  isEnd : bool;
  startName : string;
  parents : list string
}.

#[export] Instance blockSyntax_BlockSyntax : BlockSyntax blockSyntax := {|
  CanHaveParent s parent :=
    match parent with
    | None => false
    | Some p =>
        if isEnd s then String.eqb (name p) (startName s)
        else existsb (String.eqb (name p)) (parents s)
    end;
  IsBlockEnd s := isEnd s;
  IsBlockStart s := negb (isClause s) && negb (isEnd s);
  IsClause s := isClause s;
  ParentTags s := if isEnd s then [startName s] else parents s;
  RequiresParent s := isClause s || isEnd s;
  TagName s := name s
|}.

#[export] Instance grammar_Grammar : Grammar (gmap string blockSyntax) blockSyntax :=
  fun g tag => g !! tag.

(** The parent tags of a clause are kept sorted. *)
Fixpoint insert_sorted (x : string) (l : list string) : list string :=
  match l with
  | [] => [x]
  | y :: rest =>
      if String.eqb x y then l
      else if String.ltb x y then x :: l
      else y :: insert_sorted x rest
  end.

(** [AddBlock(name)]: the block start and its end tag. *)
Definition AddBlock (tag : string) (g : gmap string blockSyntax) : gmap string blockSyntax :=
  <["end" ++ tag := {| name := "end" ++ tag; isClause := false; isEnd := true;
                       startName := tag; parents := [] |}]>
    (<[tag := {| name := tag; isClause := false; isEnd := false;
                 startName := ""; parents := [] |}]> g).

(** [AddBlock(parent).Clause(name)]. *)
Definition Clause (tag parent : string) (g : gmap string blockSyntax) : gmap string blockSyntax :=
  let ps := match g !! tag with Some s => parents s | None => [] end in
  <[tag := {| name := tag; isClause := true; isEnd := false; startName := "";
              parents := insert_sorted parent ps |}]> g.

(** The blocks [AddStandardTags] defines. *)
Definition standard_grammar : gmap string blockSyntax :=
  let g := AddBlock "capture" ∅ in
  let g := Clause "else" "case" (Clause "when" "case" (AddBlock "case" g)) in
  let g := AddBlock "comment" g in
  let g := AddBlock "for" g in
  let g := Clause "elsif" "if" (Clause "else" "if" (AddBlock "if" g)) in
  let g := AddBlock "raw" g in
  let g := AddBlock "tablerow" g in
  Clause "elsif" "unless" (Clause "else" "unless" (AddBlock "unless" g)).

Section Compile.

Context {BS Expression ExprError RenderFn : Type}.
Variable quoteEscaped : string -> string.

(** The compiled tree. *)
Inductive Node : Type :=
| SeqNode (children : list Node)
| TextNode (tok : Token)
| ObjectNode (tok : Token) (expr : Expression)
| TagNode (tok : Token) (renderer : RenderFn)
| BlockNode (tok : Token) (body clauses : list Node) (renderer : RenderFn)
| RawNode (slices : list string).

(** The registered compiler callbacks, keyed by tag name: a tag
    compiler receives the arguments, a block compiler the node with its
    compiled body and clauses; each returns a render function or the
    text of its error. *)
Variable tagCompilers : gmap string (string -> RenderFn + string).
Variable blockCompilers :
  gmap string (Token -> list Node -> list Node -> RenderFn + string).

Definition undefined_tag (tok : Token) : Error ExprError :=
  Errorf tok ("undefined tag " ++ GoFmt.Quote quoteEscaped (Name tok)).

(** The nodes of a list compiled in order, up to the first error. *)
Definition compileNodes_with (compile : AST BS Expression -> Node + Error ExprError)
    : list (AST BS Expression) -> list Node + Error ExprError :=
  fix go (l : list (AST BS Expression)) : list Node + Error ExprError :=
    match l with
    | [] => inl []
    | x :: rest =>
        match compile x with
        | inr e => inr e
        | inl x' =>
            match go rest with
            | inr e => inr e
            | inl rest' => inl (x' :: rest')
            end
        end
    end.

(** Modelled from the spec: the compiler of the render package is
    missing from the sources (only its tests are there).  Following
    section 4.4 and section 7 of the spec, the compile phase walks the
    tree once in order; for each tag and block node it calls the
    compiler callback registered under the tag name; a missing
    callback is the "undefined tag" error, an error of a callback is a
    compile error; the first error aborts the compilation and no
    compiled tree is returned. *)
Fixpoint compileNode (n : AST BS Expression) : Node + Error ExprError :=
  let compileNodes := compileNodes_with compileNode in
  match n with
  | Seq children =>
      match compileNodes children with
      | inr e => inr e
      | inl cs => inl (SeqNode cs)
      end
  | Text tok => inl (TextNode tok)
  | Object tok expr => inl (ObjectNode tok expr)
  | Raw slices => inl (RawNode slices)
  | Tag tok =>
      match tagCompilers !! Name tok with
      | None => inr (undefined_tag tok)
      | Some compiler =>
          match compiler (Args tok) with
          | inr msg => inr (Errorf tok msg)
          | inl f => inl (TagNode tok f)
          end
      end
  | Block tok _ body clauses =>
      match compileNodes body with
      | inr e => inr e
      | inl body' =>
          match compileNodes clauses with
          | inr e => inr e
          | inl clauses' =>
              match blockCompilers !! Name tok with
              | None => inr (undefined_tag tok)
              | Some compiler =>
                  match compiler tok body' clauses' with
                  | inr msg => inr (Errorf tok msg)
                  | inl f => inl (BlockNode tok body' clauses' f)
                  end
              end
          end
      end
  end.

(** A tag node with an unregistered name occurs in the tree. *)
Fixpoint has_undefined_tag (n : AST BS Expression) : bool :=
  match n with
  | Seq children => existsb has_undefined_tag children
  | Tag tok => match tagCompilers !! Name tok with None => true | Some _ => false end
  | Block _ _ body clauses =>
      existsb has_undefined_tag body || existsb has_undefined_tag clauses
  | _ => false
  end.

End Compile.

End Render.

(* ================================================================== *)
(** ** Sample inputs *)
(* ================================================================== *)

Module Samples.

Import Parser Render.

(** An expression parser that takes every source as it is, and Go's
    quoting without escapes: stand-ins for the two parameters where a
    concrete run needs them. *)
Definition parse_any (src : string) : string + string := inl src.
Definition quote_verbatim (s : string) : string := GoFmt.quoted s.

Definition loc0 : SourceLoc := {| Pathname := ""; LineNo := 0 |}.

(** The configuration of the tag tests: the standard grammar. *)
Definition standard : Config (G := gmap string blockSyntax) :=
  NewConfig standard_grammar.

(** A configuration whose grammar registers nothing. *)
Definition bare : Config (G := gmap string blockSyntax) := NewConfig ∅.

Definition parse (c : Config (G := gmap string blockSyntax)) (source : string) :=
  Parse parse_any quote_verbatim c source loc0.

Definition tag_token (tag args source : string) : Token :=
  {| TokType := TagTokenType; Loc := loc0; Name := tag; Args := args;
     Source := source; TrimLeft := false; TrimRight := false |}.

Definition obj_token (args source : string) : Token :=
  {| TokType := ObjTokenType; Loc := loc0; Name := ""; Args := args;
     Source := source; TrimLeft := false; TrimRight := false |}.

End Samples.

(* ================================================================== *)
(** ** Token streams without blocks *)
(* ================================================================== *)

Module Streams.

Import Parser.

Section Leaves.

Context {BS G Expression ExprError : Type}.
Context `{!BlockSyntax BS} `{!Grammar G BS}.
Variable expressions_Parse : string -> Expression + ExprError.

(** The node [parseTokens] appends, outside a comment or raw region, for
    a token that opens or closes nothing: a text, an object whose
    expression parses, a tag the grammar does not register.  Other tokens
    have none. *)
Definition leaf (g : G) (tok : Token) : option (ASTNode Expression) :=
  match TokType tok with
  | TextTokenType => Some (TextRef {| ASTText_Token := tok |})
  | ObjTokenType =>
      match expressions_Parse (Args tok) with
      | inl expr => Some (ObjectRef {| ASTObject_Token := tok; Expr := expr |})
      | inr _ => None
      end
  | TagTokenType =>
      match Grammar_BlockSyntax g (Name tok) with
      | None => Some (TagRef {| ASTTag_Token := tok |})
      | Some _ => None
      end
  end.

(** The nodes of a stream of such tokens, in order. *)
Definition leaves (g : G) (tokens : list Token) : option (list (ASTNode Expression)) :=
  mapM (leaf g) tokens.

(** The tree of a text, tag or object node. *)
Definition leaf_tree (n : ASTNode Expression) : AST BS Expression :=
  tree_of [] 0 [] n.

(** [opens g tok cs]: outside a comment or raw region the tag [tok]
    starts a block of syntax [cs], wherever it stands. *)
Definition opens (g : G) (tok : Token) (cs : BS) : Prop :=
  TokType tok = TagTokenType
  /\ Grammar_BlockSyntax g (Name tok) = Some cs
  /\ Name tok <> "comment" /\ Name tok <> "raw"
  /\ RequiresParent cs = false
  /\ IsBlockStart cs = true.

(** [clause_in g cs tok cc]: inside a block of syntax [cs] the tag [tok]
    is a clause of syntax [cc]. *)
Definition clause_in (g : G) (cs : BS) (tok : Token) (cc : BS) : Prop :=
  TokType tok = TagTokenType
  /\ Grammar_BlockSyntax g (Name tok) = Some cc
  /\ Name tok <> "comment" /\ Name tok <> "raw"
  /\ CanHaveParent cc (Some cs) = true
  /\ IsBlockStart cc = false
  /\ IsClause cc = true.

(** [closes g cs tok ce]: inside a block of syntax [cs] the tag [tok]
    is its block end, of syntax [ce]. *)
Definition closes (g : G) (cs : BS) (tok : Token) (ce : BS) : Prop :=
  TokType tok = TagTokenType
  /\ Grammar_BlockSyntax g (Name tok) = Some ce
  /\ Name tok <> "comment" /\ Name tok <> "raw"
  /\ CanHaveParent ce (Some cs) = true
  /\ IsBlockStart ce = false
  /\ IsClause ce = false
  /\ IsBlockEnd ce = true.

(** A clause in the input: its tag, its syntax, and the leaves that
    follow it. *)
Definition clause_part : Type := Token * BS * list Token.

Definition clause_tokens (parts : list clause_part) : list Token :=
  List.concat ((fun p : clause_part => p.1.1 :: p.2) <$> parts).

(** The tree of a clause: a block with the nodes of its leaves for body
    and no clauses of its own. *)
Definition clause_tree (g : G) (p : clause_part) : option (AST BS Expression) :=
  refs ← leaves g p.2; Some (Block p.1.1 p.1.2 (leaf_tree <$> refs) []).

(** One memory extends another: what was there is still there, with
    the same tokens and syntax, and every list of nodes, clauses or slices
    has only grown at its end. *)
Definition extends (h h' : heap BS Expression) : Prop :=
  Children (root h) `prefix_of` Children (root h')
  /\ (forall b blk, blocks h !! b = Some blk ->
      exists blk', blocks h' !! b = Some blk'
        /\ ASTBlock_Token blk' = ASTBlock_Token blk
        /\ syntax blk' = syntax blk
        /\ Body blk `prefix_of` Body blk'
        /\ Clauses blk `prefix_of` Clauses blk')
  /\ (forall r raw, raws h !! r = Some raw ->
      exists raw', raws h' !! r = Some raw' /\ Slices raw `prefix_of` Slices raw').

End Leaves.

End Streams.

(* ================================================================== *)
(** ** Package values: lengths, arrays and numbers *)
(* ================================================================== *)

Module ValuesMore.

Import Values.

(** Go's [int] and [int64]: arithmetic wraps around at 64 bits. *)
Definition wrap64 (z : Z) : Z := ((z + 2 ^ 63) mod 2 ^ 64 - 2 ^ 63)%Z.

Definition is_int64 (z : Z) : Prop := (- 2 ^ 63 <= z < 2 ^ 63)%Z.

(** Length returns the length of a string or array. In keeping with
    Liquid semantics, and contra Go, it does not return the size of a
    map. *)
Definition Length (value : Value) : Z :=
  match ToLiquid value with
  | VString s => Z.of_nat (String.length s)
  | VSlice elems => Z.of_nat (List.length elems)
  | _ => 0
  end.

Definition interfaceArrType : GoType := SliceOf EmptyInterface.

Section IsArray.

Variable libConvert : Value -> GoType -> Value.
Variable ParseDate : string -> Value * option TypeError.
Variable convertValueToNumber : Value -> GoType -> Value.
Variable convertOtherKind : Value -> GoType -> Value * option TypeError.

(** [IsArray]: the value converted to [[]interface{}], and whether the
    conversion went through.  The type assertion on the converted value
    panics if it is no such slice. *)
Definition IsArray (a : Value) : outcome (list Value * bool) string :=
  match Convert libConvert ParseDate convertValueToNumber convertOtherKind
          a interfaceArrType with
  | (_, Some _) => Returns ([], false)
  | (VSlice arr, None) => Returns (arr, true)
  | (_, None) => Panics "interface conversion"
  end.

(** MustConvert is like Convert, but panics if conversion fails. *)
Definition MustConvert (value : Value) (t : GoType) : outcome Value TypeError :=
  match Convert libConvert ParseDate convertValueToNumber convertOtherKind
          value t with
  | (out, None) => Returns out
  | (_, Some err) => Panics err
  end.

End IsArray.

(** What a [Number] holds in its [Value] field, an [interface{}]: an
    [int64], a [float64] (its bits), or a value of another type. *)
Inductive Held : Type :=
| Int64 (i : Z)
| Float64 (bits : Z)
| Other (v : Value).

Record Number : Type := {
  Number_Value : Held;
  IsFloat : bool
}.

Section Numbers.

(** The Go conversions [int64(f)] and [float64(i)], and the parsers
    [strconv.ParseInt(s, 10, 64)] and [strconv.ParseFloat(s, 64)], none
    where they return an error. *)
Variable float_to_int64 : Z -> Z.
Variable int64_to_float : Z -> Z.
Variable ParseInt : string -> option Z.
Variable ParseFloat : string -> option Z.

(** The verbs of the error message: [%T] and [%v] of a value, [%s] of a
    type. *)
Variable typeName : Value -> string.
Variable Sprint : Value -> string.
Variable typeString : GoType -> string.

Definition AsInt64 (n : Number) : outcome Z string :=
  if IsFloat n then
    match Number_Value n with
    | Float64 f => Returns (float_to_int64 f)
    | _ => Panics "interface conversion"
    end
  else
    match Number_Value n with
    | Int64 i => Returns i
    | _ => Panics "interface conversion"
    end.

Definition AsFloat64 (n : Number) : outcome Z string :=
  if IsFloat n then
    match Number_Value n with
    | Float64 f => Returns f
    | _ => Panics "interface conversion"
    end
  else
    match Number_Value n with
    | Int64 i => Returns (int64_to_float i)
    | _ => Panics "interface conversion"
    end.

(** [conversionError]: the text
    ["can't convert %s%T(%v) to type %s"]. *)
Definition conversionError (modifier : string) (value : Value) (typ : GoType)
    : TypeError :=
  let modifier := if String.eqb modifier "" then modifier else modifier ++ " " in
  "can't convert " ++ modifier ++ typeName value ++ "(" ++ Sprint value
  ++ ") to type " ++ typeString typ.

(** [convertValueToInt], on the values of this universe (it has no
    [json.Number]). *)
Definition convertValueToInt (value : Value) (typ : GoType) : Z * option TypeError :=
  match value with
  | VBool b => (if b then 1%Z else 0%Z, None)
  | VString s =>
      match ParseInt s with
      | Some v => (v, None)
      | None => (0%Z, Some (conversionError "" value typ))
      end
  | _ => (0%Z, Some (conversionError "" value typ))
  end.

Definition convertValueToFloat (value : Value) (typ : GoType) : Z * option TypeError :=
  match value with
  | VString s =>
      match ParseFloat s with
      | Some v => (v, None)
      | None => (0%Z, Some (conversionError "" value typ))
      end
  | _ => (0%Z, Some (conversionError "" value typ))
  end.

(** [convertValueToNumber], on the values of this universe: of the
    numeric types it has [int] and [float64]. *)
Definition convertValueToNumber (value : Value) (typ : GoType) : Number :=
  match value with
  | VNil => {| Number_Value := Int64 0; IsFloat := false |}
  | VInt x => {| Number_Value := Int64 x; IsFloat := false |}
  | VFloat64 x => {| Number_Value := Float64 x; IsFloat := true |}
  | _ =>
      match convertValueToInt value typ with
      | (i, None) => {| Number_Value := Int64 i; IsFloat := false |}
      | (_, Some _) =>
          match convertValueToFloat value typ with
          | (f, None) => {| Number_Value := Float64 f; IsFloat := true |}
          | (_, Some _) => {| Number_Value := Int64 0; IsFloat := false |}
          end
      end
  end.

End Numbers.

End ValuesMore.

(* ================================================================== *)
(** ** Package filters: the standard filters *)
(* ================================================================== *)

Module Filters.

Import Values ValuesMore.

(** *** Go slices and strings *)

(** [make([]interface{}, n)]: [n] nil items. *)
Definition make (n : nat) : list Value := replicate n VNil.

(** [copy(dst, src)]: the first items of [dst] overwritten with those of
    [src], as many as both have. *)
Definition copy (dst src : list Value) : list Value :=
  take (List.length dst) src ++ drop (List.length src) dst.

(** [strings.Split(s, sep)] for a separator that is not empty: the
    pieces between the occurrences of [sep], found from the left and not
    overlapping. *)
Fixpoint split_pieces (fuel : nat) (s sep : string) : list string :=
  match fuel with
  | O => [s]
  | S fuel' =>
      match Parser.index_of sep s with
      | None => [s]
      | Some i =>
          Parser.take i s
          :: split_pieces fuel' (Parser.drop (i + String.length sep) s) sep
      end
  end.

(** [strings.Replace(s, old, new, n)] for an [old] that is not empty,
    [limit] being [n] or nothing for a negative [n]: the occurrences of
    [old] found from the left, not overlapping, up to the limit. *)
Fixpoint replace_found (fuel : nat) (limit : option nat) (s old new : string) : string :=
  match fuel, limit with
  | O, _ | _, Some O => s
  | S fuel', _ =>
      match Parser.index_of old s with
      | None => s
      | Some j =>
          Parser.take j s ++ new
          ++ replace_found fuel' (pred <$> limit)
               (Parser.drop (j + String.length old) s) old new
      end
  end.

Section Strings.

(** The cases of the Go library on an empty separator, which cuts
    between UTF-8 sequences, and the split on runs of white space that
    the regular expression [wsre] makes. *)
Variable explode : string -> list string.
Variable replace_empty : string -> string -> Z -> string.
Variable wsre_Split : string -> list string.

Definition Split (s sep : string) : list string :=
  if String.eqb sep "" then explode s
  else split_pieces (String.length s) s sep.

Definition Replace (s old new : string) (n : Z) : string :=
  if String.eqb old new || (n =? 0)%Z then s
  else if String.eqb old "" then replace_empty s new n
  else replace_found (String.length s)
         (if (n <? 0)%Z then None else Some (Z.to_nat n)) s old new.

(** The loop that takes the empty strings off the end of the result. *)
Fixpoint drop_empty_tail (fuel : nat) (result : list string) : list string :=
  match fuel with
  | O => result
  | S fuel' =>
      match last result with
      | Some last_piece =>
          if String.eqb last_piece "" then drop_empty_tail fuel' (removelast result)
          else result
      | None => result
      end
  end.

Definition splitFilter (s sep : string) : list string :=
  let result := Split s sep in
  let result := if String.eqb sep " " then wsre_Split s else result in
  drop_empty_tail (List.length result) result.

Definition newline_to_br (s : string) : string :=
  Replace s (String "010"%char "") "<br />" (-1).

Definition remove (s old : string) : string := Replace s old "" (-1).
Definition remove_first (s old : string) : string := Replace s old "" 1.
Definition replace (s old new : string) : string := Replace s old new (-1).
Definition replace_first (s old new : string) : string := Replace s old new 1.
Definition strip_newlines (s : string) : string :=
  Replace s (String "010"%char "") "" (-1).

End Strings.

(** *** Array filters *)

(** The filter "concat". *)
Definition concat (a b : list Value) : list Value :=
  let result := make (List.length a + List.length b) in
  let result := copy result a in
  result ++ b.

Section Compact.

Variable libConvert : Value -> GoType -> Value.
Variable ParseDate : string -> Value * option TypeError.
Variable convertValueToNumber : Value -> GoType -> Value.
Variable convertOtherKind : Value -> GoType -> Value * option TypeError.

(** The filter "compact". *)
Definition compact (a : Value) : outcome Value string :=
  match IsArray libConvert ParseDate convertValueToNumber convertOtherKind a with
  | Panics p => Panics p
  | Returns (_, false) => Returns a
  | Returns (arr, true) =>
      Returns (VSlice (List.filter (fun item => negb (isNil item)) arr))
  end.

End Compact.

Section Join.

(** [fmt.Sprint]. *)
Variable Sprint : Value -> string.

(** [joinFilter]; [sep] gives the separator, the argument of the filter
    or the default it is called with. *)
Definition joinFilter (a : list Value) (sep : string -> string) : string :=
  let s := sep " " in
  let ss := Sprint <$> List.filter (fun v => negb (isNil v)) a in
  GoFmt.Join ss s.

End Join.

(** [reverseFilter]: every item written at the mirrored index of a new
    slice. *)
Definition reverseFilter (a : list Value) : list Value :=
  let result := make (List.length a) in
  foldl (fun result ix => <[(List.length result - 1 - ix.1)%nat := ix.2]> result)
        result (imap pair a).

(** The filters "first" and "last". *)
Definition first (a : list Value) : Value :=
  match a with
  | [] => VNil
  | x :: _ => x
  end.

Definition last (a : list Value) : Value :=
  if (List.length a =? 0)%nat then VNil
  else default VNil (a !! (List.length a - 1)%nat).

(** *** Number filters *)

Section NumberFilters.

Variable float_to_int64 : Z -> Z.
Variable int64_to_float : Z -> Z.

(** Go's arithmetic and tests on [float64], on the bits. *)
Variable fdiv : Z -> Z -> Z.
Variable fgt flt feq : Z -> Z -> bool.
Variable is_inf : Z -> Z -> bool.
Variable is_nan signbit : Z -> bool.
Variable inf : Z -> Z.
Variable nan : Z.
Variable fzero : Z.

Local Abbreviation AsInt64_ := (AsInt64 float_to_int64).
Local Abbreviation AsFloat64_ := (AsFloat64 int64_to_float).

Record commonNumberOperation : Type := {
  op_Int64 : Z -> Z -> Z;
  op_Float64 : Z -> Z -> Z
}.

(** [commonNumberOperation.Call]. *)
Definition Call (op : commonNumberOperation) (lhs rhs : Number) : outcome Held string :=
  if IsFloat lhs || IsFloat rhs then
    match AsFloat64_ lhs with
    | Panics p => Panics p
    | Returns l =>
        match AsFloat64_ rhs with
        | Panics p => Panics p
        | Returns r => Returns (Float64 (op_Float64 op l r))
        end
    end
  else
    match AsInt64_ lhs with
    | Panics p => Panics p
    | Returns l =>
        match AsInt64_ rhs with
        | Panics p => Panics p
        | Returns r => Returns (Int64 (op_Int64 op l r))
        end
    end.

Section Arithmetic.

Variable fadd fsub fmul : Z -> Z -> Z.

(** The filters "minus", "plus" and "times". *)
Definition minus : commonNumberOperation :=
  {| op_Int64 := fun a b => wrap64 (a - b); op_Float64 := fsub |}.
Definition plus : commonNumberOperation :=
  {| op_Int64 := fun a b => wrap64 (a + b); op_Float64 := fadd |}.
Definition times : commonNumberOperation :=
  {| op_Int64 := fun a b => wrap64 (a * b); op_Float64 := fmul |}.

End Arithmetic.

(** The filter "divided_by": the quotient or nil, and the error. *)
Definition divided_by (a : Z) (b : Number) : outcome (option Held * option string) string :=
  if IsFloat b then
    match AsFloat64_ b with
    | Panics p => Panics p
    | Returns f => Returns (Some (Float64 (fdiv a f)), None)
    end
  else
    match AsInt64_ b with
    | Panics p => Panics p
    | Returns i =>
        if (i =? 0)%Z then Returns (None, Some "divided by 0")
        else Returns (Some (Int64 (wrap64 (Z.quot (float_to_int64 a) i))), None)
    end.

(** [atLeast], equivalent to math.Max. *)
Definition atLeast (num comp : Number) : outcome Held string :=
  if negb (IsFloat num) && negb (IsFloat comp) then
    match AsInt64_ num with
    | Panics p => Panics p
    | Returns n =>
        match AsInt64_ comp with
        | Panics p => Panics p
        | Returns c =>
            if (c <? n)%Z then Returns (Number_Value num)
            else Returns (Number_Value comp)
        end
    end
  else
    match AsFloat64_ num with
    | Panics p => Panics p
    | Returns fNum =>
        match AsFloat64_ comp with
        | Panics p => Panics p
        | Returns fComp =>
            if is_inf fNum 1 || is_inf fComp 1 then Returns (Float64 (inf 1))
            else if is_nan fNum || is_nan fComp then Returns (Float64 nan)
            else if feq fNum fzero && feq fNum fComp then
              if signbit fNum then Returns (Number_Value comp)
              else Returns (Number_Value num)
            else if fgt fNum fComp then Returns (Number_Value num)
            else Returns (Number_Value comp)
        end
    end.

(** [atMost], equivalent to math.Min. *)
Definition atMost (num comp : Number) : outcome Held string :=
  if negb (IsFloat num) && negb (IsFloat comp) then
    match AsInt64_ num with
    | Panics p => Panics p
    | Returns n =>
        match AsInt64_ comp with
        | Panics p => Panics p
        | Returns c =>
            if (n <? c)%Z then Returns (Number_Value num)
            else Returns (Number_Value comp)
        end
    end
  else
    match AsFloat64_ num with
    | Panics p => Panics p
    | Returns fNum =>
        match AsFloat64_ comp with
        | Panics p => Panics p
        | Returns fComp =>
            if is_inf fNum (-1) || is_inf fComp (-1) then Returns (Float64 (inf (-1)))
            else if is_nan fNum || is_nan fComp then Returns (Float64 nan)
            else if feq fNum fzero && feq fNum fComp then
              if signbit fNum then Returns (Number_Value num)
              else Returns (Number_Value comp)
            else if flt fNum fComp then Returns (Number_Value num)
            else Returns (Number_Value comp)
        end
    end.

End NumberFilters.

End Filters.

(* ================================================================== *)
(** ** Package tags: the counter tags *)
(* ================================================================== *)

From stdpp Require Import pretty.
Open Scope string_scope.

Module Tags.

Import ValuesMore.

(** [strconv.Itoa]. *)
Definition Itoa (i : Z) : string := pretty i.

(** An [io.Writer]; [Write] gives the writer after the call and the
    error. *)
Class Writer (W : Type) : Type := {
  Write : W -> string -> W * option string
}.

(** A [bytes.Buffer], whose [Write] appends and returns no error. *)
Definition Buffer : Type := string.

#[export] Instance Buffer_Writer : Writer Buffer := {|
  Write := fun b p => ((b ++ p)%string, None)
|}.

(** What a tag keeps in the context, an [interface{}]: a
    [map[string]int], or a value of another type. *)
Inductive State : Type :=
| Counters (counts : gmap string Z)
| OtherState (v : Value).

(** Modelled from the spec: [render.Context] is missing from the
    sources.  The spec has the per-tag state "stored in the Context's
    auxiliary-state mapping keyed by a stable name chosen by the tag
    implementation", for the lifetime of the context: [GetState] gives
    the state stored under the key, and stores what [init] makes where
    there is none.  [TagArgs] are the arguments of the tag being
    rendered. *)
Record Context : Type := {
  TagArgs : string;
  states : gmap string State
}.

Definition GetState (ctx : Context) (key : string) (init : unit -> State)
    : State * Context :=
  match states ctx !! key with
  | Some state => (state, ctx)
  | None =>
      let state := init tt in
      (state, {| TagArgs := TagArgs ctx; states := <[key := state]> (states ctx) |})
  end.

(** A Go map is a reference: an assignment to an item of the map that
    [GetState] returned changes the map the context holds under the
    key. *)
Definition assign_item (ctx : Context) (key : string) (counts : gmap string Z)
    (item : string) (count : Z) : Context :=
  {| TagArgs := TagArgs ctx;
     states := <[key := Counters (<[item := count]> counts)]> (states ctx) |}.

Class counter (C : Type) : Type := {
  defaultValue : C -> Z;
  operation : C -> Z -> Z
}.

Inductive increment : Type := Increment.

#[export] Instance increment_counter : counter increment := {|
  defaultValue := fun _ => 0%Z;
  operation := fun _ i => wrap64 (i + 1)
|}.

Inductive decrement : Type := Decrement.

#[export] Instance decrement_counter : counter decrement := {|
  defaultValue := fun _ => (-1)%Z;
  operation := fun _ i => wrap64 (i - 1)
|}.

Section CounterTag.

Context {W : Type} `{Writer W}.

Definition counterTag {C : Type} `{counter C} (w : W) (ctx : Context) (c : C)
    : W * Context * option string :=
  let argStr := TagArgs ctx in
  let '(state, ctx) := GetState ctx "counters" (fun _ => Counters ∅) in
  match state with
  | Counters counts =>
      let count :=
        match counts !! argStr with
        | None => defaultValue c
        | Some count => operation c count
        end in
      let ctx := assign_item ctx "counters" counts argStr count in
      let '(w, err) := Write w (Itoa count) in
      (w, ctx, err)
  | OtherState _ =>
      (w, ctx, Some "counters state is not of type map[string]int")
  end.

(** A compiled tag: the function that renders it. *)
Definition Renderer : Type := W -> Context -> W * Context * option string.

Definition counterCompiler {C : Type} `{counter C} (c : C)
    : Renderer * option string :=
  (fun w ctx => counterTag w ctx c, None).

Definition incrementTag (_ : string) : Renderer * option string :=
  counterCompiler Increment.

Definition decrementTag (_ : string) : Renderer * option string :=
  counterCompiler Decrement.

(** Modelled from the spec: the render walk is missing from the
    sources.  The spec has it walk the nodes in order with one context
    for the render call, and a render "either completes or fails": each
    tag is rendered with its arguments as [TagArgs], and the first error
    ends the walk. *)
Fixpoint render_tags (tags : list (Renderer * string)) (w : W) (ctx : Context)
    : W * Context * option string :=
  match tags with
  | [] => (w, ctx, None)
  | (renderer, args) :: rest =>
      match renderer w {| TagArgs := args; states := states ctx |} with
      | (w, ctx, None) => render_tags rest w ctx
      | (w, ctx, Some err) => (w, ctx, Some err)
      end
  end.

End CounterTag.

End Tags.

(* ================================================================== *)
(** * Theorems *)
(* ================================================================== *)

(** ** Messages: what it takes for a message to contain a text *)

Section ContainsFacts.

Import GoFmt.

Lemma append_empty_r (s : string) : s ++ "" = s.
Proof.
  induction s as [|c s IH]; [reflexivity|].
  change (String c (s ++ "") = String c s). now rewrite IH.
Qed.

Lemma prefix_app (p r : string) : String.prefix p (p ++ r) = true.
Proof.
  induction p as [|c p IH]; simpl.
  - now destruct r.
  - destruct (ascii_dec c c) as [_|ne]; [exact IH | now destruct ne].
Qed.

Lemma Contains_prefix (sub r : string) : Contains (sub ++ r) sub = true.
Proof.
  destruct sub as [|c sub]; simpl.
  - now destruct r.
  - destruct (ascii_dec c c) as [_|ne]; [|now destruct ne].
    now rewrite prefix_app.
Qed.

Lemma Contains_skip (a s sub : string) :
  Contains s sub = true -> Contains (a ++ s) sub = true.
Proof.
  intros Hs. induction a as [|c a IH]; simpl; [exact Hs|].
  rewrite IH. apply orb_true_r.
Qed.

Lemma Contains_middle (a sub b : string) : Contains (a ++ sub ++ b) sub = true.
Proof. apply Contains_skip, Contains_prefix. Qed.

Lemma Contains_suffix (a sub : string) : Contains (a ++ sub) sub = true.
Proof.
  apply Contains_skip.
  assert (Hp : String.prefix sub sub = true).
  { induction sub as [|c sub IH]; simpl; [reflexivity|].
    destruct (ascii_dec c c) as [_|ne]; [exact IH | now destruct ne]. }
  destruct sub; simpl in *; [reflexivity | now rewrite Hp].
Qed.

Lemma append_assoc_ (s t u : string) : (s ++ t) ++ u = s ++ (t ++ u).
Proof.
  induction s as [|c s IH]; [reflexivity|].
  change (String c ((s ++ t) ++ u) = String c (s ++ (t ++ u))). now rewrite IH.
Qed.

Lemma Contains_quoted (s b : string) : Contains (quoted s ++ b) s = true.
Proof.
  unfold quoted.
  change (Contains (String dquote ((s ++ String dquote "") ++ b)) s = true).
  rewrite append_assoc_.
  apply (Contains_skip (String dquote "")), Contains_prefix.
Qed.

Lemma Contains_Quote (quoteEscaped : string -> string) (a s b : string) :
  all_plain s = true ->
  Contains (a ++ Quote quoteEscaped s ++ b) s = true.
Proof.
  intros Hs. unfold Quote. rewrite Hs.
  apply Contains_skip, Contains_quoted.
Qed.

End ContainsFacts.

(** ** Package expressions *)

Section ExpressionsFacts.

Import Expressions.

Lemma GetVariable_bound (c : Config) (bindings : gmap string Any) (name : string) (val : Any) :
  bindings !! name = Some val -> GetVariable c bindings name = Returns val.
Proof. intros Hb. unfold GetVariable. now rewrite Hb. Qed.

Lemma GetFilter_registered (c : Config) (name : string) (val : Any) :
  filters c !! name = Some val -> GetFilter c name = Returns val.
Proof. intros Hf. unfold GetFilter. now rewrite Hf. Qed.

(** C5: a variable name that the bindings do not hold.  Under the strict
    policy the lookup fails with the error [UndefinedVariable name], whose
    text has "undefined variable" and, for a name of plain characters as
    an identifier is, the name; under the lax policy the same lookup
    succeeds with nil. *)
Theorem C5_undefined_variable_policy
    (quoteEscaped : string -> string) (c : Config)
    (bindings : gmap string Any) (name : string) :
  bindings !! name = None ->
  GetVariable (with_variable_mode (VariableHandler StrictMode_) c) bindings name
    = Panics (UndefinedVariable name)
  /\ GoFmt.Contains (UndefinedVariable_Error quoteEscaped name) "undefined variable" = true
  /\ (GoFmt.all_plain name = true ->
      GoFmt.Contains (UndefinedVariable_Error quoteEscaped name) name = true)
  /\ GetVariable (with_variable_mode (VariableHandler LaxMode_) c) bindings name
    = Returns (AValue VNil).
Proof.
  intros Hb. split; [|split; [|split]].
  - unfold GetVariable. rewrite Hb. reflexivity.
  - apply (Contains_prefix "undefined variable").
  - intros Hp. unfold UndefinedVariable_Error.
    pose proof (Contains_Quote quoteEscaped "undefined variable " name "" Hp) as H.
    now rewrite append_empty_r in H.
  - unfold GetVariable. rewrite Hb. reflexivity.
Qed.

Lemma C5_undefined_variable_policy_witness :
  let bindings : gmap string Any := <["a" := AValue (VInt 1)]> ∅ in
  bindings !! "x" = None
  /\ GetVariable (with_variable_mode (VariableHandler StrictMode_) NewConfig) bindings "x"
     = Panics (UndefinedVariable "x")
  /\ UndefinedVariable_Error (fun s => s) "x" = "undefined variable " ++ GoFmt.quoted "x"
  /\ GetVariable (with_variable_mode (VariableHandler LaxMode_) NewConfig) bindings "x"
     = Returns (AValue VNil).
Proof.
  intros bindings.
  assert (Hb : bindings !! "x" = None) by (vm_compute; reflexivity).
  destruct (C5_undefined_variable_policy (fun s => s) NewConfig bindings "x" Hb)
    as (Hs & _ & _ & Hl).
  split; [exact Hb|]. split; [exact Hs|]. split; [reflexivity | exact Hl].
Defined.

(** C6: a filter name that the registry does not hold.  Under the
    strict policy the lookup fails (it panics with [UndefinedFilter
    name]); under the lax policy it yields the identity function, which
    returns the piped value unchanged. *)
Theorem C6_undefined_filter_policy (c : Config) (name : string) :
  filters c !! name = None ->
  GetFilter (with_filter_mode (FilterHandler StrictMode_) c) name
    = Panics (UndefinedFilter name)
  /\ GetFilter (with_filter_mode (FilterHandler LaxMode_) c) name
    = Returns (AFunc1 identityFilter)
  /\ (forall piped : Value, identityFilter piped = piped).
Proof.
  intros Hf. split; [|split].
  - unfold GetFilter, with_filter_mode. cbn [filters FilterErrorMode].
    rewrite Hf. reflexivity.
  - unfold GetFilter, with_filter_mode. cbn [filters FilterErrorMode].
    rewrite Hf. reflexivity.
  - intros piped. reflexivity.
Qed.

Lemma C6_undefined_filter_policy_witness :
  let c := {| filters := <["upcase" := AFunc1 (fun v => v)]> ∅;
              FilterErrorMode := FilterHandler StrictMode_;
              VariableErrorMode := VariableHandler LaxMode_ |} in
  filters c !! "undefined_filter" = None
  /\ GetFilter (with_filter_mode (FilterHandler StrictMode_) c) "undefined_filter"
     = Panics (UndefinedFilter "undefined_filter")
  /\ GetFilter (with_filter_mode (FilterHandler LaxMode_) c) "undefined_filter"
     = Returns (AFunc1 identityFilter).
Proof.
  intros c.
  assert (Hf : filters c !! "undefined_filter" = None) by (vm_compute; reflexivity).
  destruct (C6_undefined_filter_policy c "undefined_filter" Hf) as (Hs & Hl & _).
  split; [exact Hf|]. split; [exact Hs | exact Hl].
Defined.

(** C9: the configuration [NewConfig] makes is strict on filters and
    lax on variables: a variable the bindings do not hold evaluates to
    nil, and the lookup of any filter fails, none being registered. *)
Theorem C9_default_config_asymmetric
    (bindings : gmap string Any) (name : string) :
  bindings !! name = None ->
  FilterErrorMode NewConfig = FilterHandler StrictMode_
  /\ VariableErrorMode NewConfig = VariableHandler LaxMode_
  /\ GetVariable NewConfig bindings name = Returns (AValue VNil)
  /\ (forall filter : string, GetFilter NewConfig filter = Panics (UndefinedFilter filter)).
Proof.
  intros Hb. split; [reflexivity|]. split; [reflexivity|]. split.
  - unfold GetVariable. now rewrite Hb.
  - intros filter. unfold GetFilter. cbn [filters NewConfig].
    now rewrite lookup_empty.
Qed.

Lemma C9_default_config_asymmetric_witness :
  let bindings : gmap string Any := <["x" := AValue (VInt 123)]> ∅ in
  bindings !! "y" = None
  /\ GetVariable NewConfig bindings "y" = Returns (AValue VNil)
  /\ GetFilter NewConfig "undefined_filter" = Panics (UndefinedFilter "undefined_filter").
Proof.
  intros bindings.
  assert (Hb : bindings !! "y" = None) by (vm_compute; reflexivity).
  destruct (C9_default_config_asymmetric bindings "y" Hb) as (_ & _ & Hv & Hf).
  split; [exact Hb|]. split; [exact Hv | exact (Hf "undefined_filter")].
Defined.

End ExpressionsFacts.

(** ** Package values *)

Section ValuesFacts.

Import Values.

Variable libConvert : Value -> GoType -> Value.
Variable ParseDate : string -> Value * option TypeError.
Variable convertValueToNumber : Value -> GoType -> Value.
Variable convertOtherKind : Value -> GoType -> Value * option TypeError.

Local Abbreviation Convert_ :=
  (Convert libConvert ParseDate convertValueToNumber convertOtherKind).

Lemma ToLiquid_not_drop (value : Value) :
  match value with VDrop _ => True | _ => ToLiquid value = value end.
Proof. now destruct value. Qed.

(** Only a bool is convertible to bool. *)
Lemma ConvertibleTo_bool (value : Value) (t : GoType) :
  TypeOf value = Some t ->
  ConvertibleTo t (Basic KBool) = true -> exists b, value = VBool b.
Proof.
  destruct value; simpl; intros [= <-]; try discriminate.
  intros _. now eexists.
Qed.

Lemma Convert_bool_of_liquid (value : Value) :
  Convert_ value (Basic KBool)
  = (VBool (negb (isNil (ToLiquid value) || isFalse (ToLiquid value))), None).
Proof.
  unfold Convert. destruct (ToLiquid value) as [|[|]| | | | | |]; reflexivity.
Qed.

(** C10, as amended: converting to bool always succeeds, and the result
    is false exactly when the value, once [ToLiquid] has replaced a drop
    by what it stands for, is nil or the boolean false; the integer 0 and
    the empty string convert to true. *)
Theorem C10_convert_to_bool (value : Value) :
  (exists b : bool,
      Convert_ value (Basic KBool) = (VBool b, None)
      /\ (b = false <-> ToLiquid value = VNil \/ ToLiquid value = VBool false))
  /\ Convert_ (VInt 0) (Basic KBool) = (VBool true, None)
  /\ Convert_ (VString "") (Basic KBool) = (VBool true, None).
Proof.
  split; [|split; reflexivity].
  eexists. split; [apply Convert_bool_of_liquid|].
  destruct (ToLiquid value) as [|[|]| | | | | |]; simpl; split;
    try discriminate; try tauto;
    intros [H|H]; discriminate H.
Qed.

End ValuesFacts.

(** C10, as stated, fails on a drop: a value whose [ToLiquid()] returns
    false converts to false, and is neither nil nor the boolean false. *)
Lemma C10_convert_to_bool_counterexample :
  let value := VDrop (VBool false) in
  (forall libConvert ParseDate convertValueToNumber convertOtherKind,
      Values.Convert libConvert ParseDate convertValueToNumber convertOtherKind
        value (Values.Basic Values.KBool) = (VBool false, None))
  /\ value <> VNil /\ value <> VBool false.
Proof. split; [reflexivity | split; discriminate]. Qed.

(** ** The scanner *)

Section ScanFacts.

Import Parser.

(** Without a left marker the whole input is one Text token. *)
Lemma Scan_no_left_marker (data : string) (loc : SourceLoc)
    (objLeft objRight tagLeft tagRight : string) :
  index_of objLeft data = None ->
  index_of tagLeft data = None ->
  Scan data loc [objLeft; objRight; tagLeft; tagRight]
  = if String.eqb data "" then [] else [text_token loc data].
Proof.
  intros Ho Ht. unfold Scan. cbn [scan_loop].
  unfold nearest_left. now rewrite Ho, Ht.
Qed.

(** C7: with the default delimiters, [{% tag arg %}] scans to one Tag
    token named "tag" with Args "arg", and [{{ expr }}] to one Object
    token with Args "expr" and no name. *)
Theorem C7_scan_single_construct (loc : SourceLoc) :
  (exists tok : Token,
      Scan "{% tag arg %}" loc [] = [tok]
      /\ TokType tok = TagTokenType /\ Name tok = "tag" /\ Args tok = "arg")
  /\ (exists tok : Token,
      Scan "{{ expr }}" loc [] = [tok]
      /\ TokType tok = ObjTokenType /\ Args tok = "expr" /\ Name tok = "").
Proof.
  split; eexists; (split; [vm_compute; reflexivity|]); repeat split.
Qed.

End ScanFacts.

(** ** The structural parser *)

Section ParserFacts.

Import Parser.
Local Open Scope list_scope.

Context {BS G Expression ExprError : Type}.
Context `{!BlockSyntax BS} `{!Grammar G BS}.
Variable expressions_Parse : string -> Expression + ExprError.
Variable quoteEscaped : string -> string.

Local Abbreviation state_ := (@state BS Expression).
Local Abbreviation step_ := (step (G:=G) expressions_Parse quoteEscaped).
Local Abbreviation run_ := (run (G:=G) expressions_Parse quoteEscaped).
Local Abbreviation parseTokens_ := (parseTokens (G:=G) expressions_Parse quoteEscaped).

(** *** The loop *)

Lemma run_app (g : G) (xs ys : list Token) (st : state_) :
  run_ g (xs ++ ys) st
  = match run_ g xs st with
    | Next st' => run_ g ys st'
    | stop => stop
    end.
Proof.
  revert st. induction xs as [|x xs IH]; intros st; simpl; [reflexivity|].
  destruct (step_ g st x); auto.
Qed.

Lemma run_app_Next (g : G) (xs ys : list Token) (st st' : state_) :
  run_ g xs st = Next st' -> run_ g (xs ++ ys) st = run_ g ys st'.
Proof. intros Hx. now rewrite run_app, Hx. Qed.

Lemma state_eta (st : state_) :
  st = {| mem := mem st; ap := ap st; sd := sd st; bn := bn st; stack := stack st;
          rawTag := rawTag st; inComment := inComment st; inRaw := inRaw st |}.
Proof. now destruct st. Qed.

(** *** Comment regions *)

Lemma step_open_comment (g : G) (st : state_) (tok : Token) (cs : BS) :
  inComment st = false -> inRaw st = false ->
  is_tag_named "comment" tok = true ->
  Grammar_BlockSyntax g "comment" = Some cs ->
  step_ g st tok = Next (set_inComment true st).
Proof.
  intros Hc Hr Ht Hg. unfold is_tag_named in Ht.
  apply andb_true_iff in Ht as [Hty Hn]. apply String.eqb_eq in Hn.
  unfold step. rewrite Hc, Hr.
  destruct (TokType tok); try discriminate.
  rewrite Hn, Hg. reflexivity.
Qed.

Lemma run_inside_comment (g : G) (mid : list Token) (st : state_) :
  inComment st = true ->
  Forall (fun t => is_tag_named "endcomment" t = false) mid ->
  run_ g mid st = Next st.
Proof.
  intros Hc Hmid. induction Hmid as [|t mid Ht _ IH]; simpl; [reflexivity|].
  unfold step. now rewrite Hc, Ht.
Qed.

Lemma step_close_comment (g : G) (st : state_) (tok : Token) :
  inComment st = true ->
  is_tag_named "endcomment" tok = true ->
  step_ g st tok = Next (set_inComment false st).
Proof. intros Hc Ht. unfold step. now rewrite Hc, Ht. Qed.

(** A comment region leaves the parser as it found it. *)
Lemma run_comment_region (g : G) (st : state_) (open close : Token)
    (mid : list Token) (cs : BS) :
  inComment st = false -> inRaw st = false ->
  is_tag_named "comment" open = true ->
  is_tag_named "endcomment" close = true ->
  Grammar_BlockSyntax g "comment" = Some cs ->
  Forall (fun t => is_tag_named "endcomment" t = false) mid ->
  run_ g (open :: mid ++ [close]) st = Next st.
Proof.
  intros Hc Hr Ho Hcl Hg Hmid.
  cbn [run]. rewrite (step_open_comment g st open cs Hc Hr Ho Hg).
  rewrite (run_app_Next g mid [close] _ (set_inComment true st)).
  - cbn [run]. rewrite step_close_comment by (reflexivity || assumption).
    f_equal. rewrite (state_eta st) at 2. unfold set_inComment; simpl.
    now rewrite Hc.
  - now apply run_inside_comment.
Qed.


(** *** Raw regions *)

Lemma raws_append_at (p : appendPtr) (n : ASTNode Expression) (h : heap BS Expression) :
  raws (append_at p n h) = raws h.
Proof. now destruct p. Qed.

(** The memory with one more slice on the raw node at [r]. *)
Lemma append_slice_at_last (h : heap BS Expression) (rs : list ASTRaw)
    (slices : list string) (src : string) :
  raws h = rs ++ [{| Slices := slices |}] ->
  append_slice_at (List.length rs) src h
  = {| root := root h; blocks := blocks h;
       raws := rs ++ [{| Slices := slices ++ [src] |}] |}.
Proof.
  intros Hr. unfold append_slice_at. rewrite Hr. f_equal.
  replace (List.length rs) with (List.length rs + 0)%nat by lia.
  now rewrite alter_app_r.
Qed.

Lemma step_open_raw (g : G) (st : state_) (tok : Token) (cs : BS) :
  inComment st = false -> inRaw st = false ->
  is_tag_named "raw" tok = true ->
  Grammar_BlockSyntax g "raw" = Some cs ->
  step_ g st tok
  = Next (set_mem (append_at (ap st) (RawRef (List.length (raws (mem st))))
                     {| root := root (mem st); blocks := blocks (mem st);
                        raws := raws (mem st) ++ [{| Slices := [] |}] |})
            (set_rawTag (Some (List.length (raws (mem st)))) (set_inRaw true st))).
Proof.
  intros Hc Hr Ht Hg. unfold is_tag_named in Ht.
  apply andb_true_iff in Ht as [Hty Hn]. apply String.eqb_eq in Hn.
  unfold step. rewrite Hc, Hr.
  destruct (TokType tok); try discriminate.
  rewrite Hn, Hg. reflexivity.
Qed.

(** Inside a raw region every token adds its source text to the raw
    node, as a new last slice. *)
Lemma run_inside_raw (g : G) (mid : list Token) (st : state_)
    (rs : list ASTRaw) (slices : list string) :
  inComment st = false -> inRaw st = true ->
  rawTag st = Some (List.length rs) ->
  raws (mem st) = rs ++ [{| Slices := slices |}] ->
  Forall (fun t => is_tag_named "endraw" t = false) mid ->
  run_ g mid st
  = Next (set_mem {| root := root (mem st); blocks := blocks (mem st);
                     raws := rs ++ [{| Slices := slices ++ (Source <$> mid) |}] |} st).
Proof.
  intros Hc Hr Ht Hm Hmid. revert st slices Hc Hr Ht Hm.
  induction Hmid as [|t mid Hne _ IH]; intros st slices Hc Hr Ht Hm.
  - simpl. rewrite app_nil_r, <- Hm. f_equal.
    destruct st as [[]]; reflexivity.
  - cbn [run]. unfold step at 1. rewrite Hc, Hr, Hne, Ht.
    rewrite (append_slice_at_last _ rs slices (Source t) Hm).
    rewrite (IH _ (slices ++ [Source t])); try assumption; try reflexivity.
    cbn. now rewrite <- app_assoc.
Qed.

Lemma step_close_raw (g : G) (st : state_) (tok : Token) :
  inComment st = false -> inRaw st = true ->
  is_tag_named "endraw" tok = true ->
  step_ g st tok = Next (set_inRaw false st).
Proof. intros Hc Hr Ht. unfold step. now rewrite Hc, Hr, Ht. Qed.

Lemma run_raw_region (g : G) (st : state_) (open close : Token)
    (mid : list Token) (cs : BS) :
  inComment st = false -> inRaw st = false ->
  is_tag_named "raw" open = true ->
  is_tag_named "endraw" close = true ->
  Grammar_BlockSyntax g "raw" = Some cs ->
  Forall (fun t => is_tag_named "endraw" t = false) mid ->
  run_ g (open :: mid ++ [close]) st = Next (after_raw st mid).
Proof.
  intros Hc Hr Ho Hcl Hg Hmid.
  cbn [run]. rewrite (step_open_raw g st open cs Hc Hr Ho Hg).
  erewrite run_app_Next; cycle 1.
  { apply (run_inside_raw g mid _ (raws (mem st)) []); try assumption; try reflexivity.
    cbn. apply raws_append_at. }
  cbn [run]. rewrite step_close_raw; try reflexivity; try assumption.
  f_equal. unfold after_raw. destruct st as [h p]; destruct p; cbn in *; subst; reflexivity.
Qed.


(** Case analysis on one turn of the loop that goes on. *)
Ltac step_cases Hs :=
  unfold step, clause, block_end, block_start, alloc_block, alloc_raw in Hs;
  repeat match type of Hs with
         | context [match ?x with _ => _ end] => destruct x eqn:?
         | context [if ?x then _ else _] => destruct x eqn:?
         end;
  try discriminate Hs;
  injection Hs as <-.

(** Once a raw region is closed its node is not written again. *)
Lemma step_raw_settled (g : G) (st st' : state_) (tok : Token) (r : nat) :
  (r < List.length (raws (mem st)))%nat ->
  (inRaw st = true -> rawTag st <> Some r) ->
  step_ g st tok = Next st' ->
  raws (mem st') !! r = raws (mem st) !! r
  /\ (r < List.length (raws (mem st')))%nat
  /\ (inRaw st' = true -> rawTag st' <> Some r).
Proof.
  intros Hlt Hraw Hs.
  step_cases Hs; cbn; rewrite ?raws_append_at; cbn;
    try (split; [reflexivity | split; [assumption | try assumption; try discriminate]]);
    try congruence.
  - assert (n <> r) by (intros ->; now apply Hraw).
    rewrite list_lookup_alter_ne by assumption. rewrite length_alter.
    repeat split; try assumption. congruence.
  - rewrite lookup_app_l by assumption. rewrite length_app. cbn.
    repeat split; [lia|]. intros _ [= E]. lia.
Qed.

Lemma run_raw_settled (g : G) (tokens : list Token) (st st' : state_) (r : nat) :
  (r < List.length (raws (mem st)))%nat ->
  (inRaw st = true -> rawTag st <> Some r) ->
  run_ g tokens st = Next st' ->
  raws (mem st') !! r = raws (mem st) !! r.
Proof.
  revert st. induction tokens as [|tok tokens IH]; intros st Hlt Hraw Hrun.
  - now injection Hrun as <-.
  - cbn [run] in Hrun. destruct (step_ g st tok) as [st1| |] eqn:Hs; try discriminate.
    destruct (step_raw_settled g st st1 tok r Hlt Hraw Hs) as (Heq & Hlt1 & Hraw1).
    rewrite <- Heq. now apply IH.
Qed.

Lemma after_raw_node (st : state_) (mid : list Token) :
  raws (mem (after_raw st mid)) !! List.length (raws (mem st))
  = Some {| Slices := Source <$> mid |}.
Proof.
  unfold after_raw. cbn. rewrite raws_append_at. cbn.
  now rewrite list_lookup_middle.
Qed.


(** C1, as amended.  The parser has read [pre] and is outside a comment
    or raw region.  If the grammar registers "comment", a region from a
    tag named "comment" to the next tag named "endcomment" adds nothing:
    the parse is that of the tokens without the region.  If the grammar
    registers "raw", a region from a tag named "raw" to the next tag
    named "endraw" makes one raw node, referenced once from the
    insertion point, whose slices are the source texts of the tokens in
    between, unchanged and in order, whatever these tokens are; and the
    tokens that follow never write that node again. *)
Theorem C1_comment_and_raw_regions
    (c : Config (G := G)) (pre mid post : list Token) (open close : Token)
    (st : state_) (cs : BS) :
  run_ (Config_Grammar c) pre initial = Next st ->
  inComment st = false -> inRaw st = false ->
  (is_tag_named "comment" open = true ->
   is_tag_named "endcomment" close = true ->
   Grammar_BlockSyntax (Config_Grammar c) "comment" = Some cs ->
   Forall (fun t => is_tag_named "endcomment" t = false) mid ->
   run_ (Config_Grammar c) (pre ++ open :: mid ++ [close]) initial = Next st
   /\ parseTokens_ c (pre ++ open :: mid ++ close :: post) = parseTokens_ c (pre ++ post))
  /\
  (is_tag_named "raw" open = true ->
   is_tag_named "endraw" close = true ->
   Grammar_BlockSyntax (Config_Grammar c) "raw" = Some cs ->
   Forall (fun t => is_tag_named "endraw" t = false) mid ->
   run_ (Config_Grammar c) (pre ++ open :: mid ++ [close]) initial
     = Next (after_raw st mid)
   /\ raws (mem (after_raw st mid)) !! List.length (raws (mem st))
      = Some {| Slices := Source <$> mid |}
   /\ forall st' : state_,
       run_ (Config_Grammar c) post (after_raw st mid) = Next st' ->
       raws (mem st') !! List.length (raws (mem st))
       = Some {| Slices := Source <$> mid |}).
Proof.
  intros Hpre Hc Hr. split.
  - intros Ho Hcl Hg Hmid.
    pose proof (run_comment_region _ st open close mid cs Hc Hr Ho Hcl Hg Hmid) as Hreg.
    split.
    + now rewrite (run_app_Next _ pre _ _ st Hpre).
    + unfold parseTokens.
      rewrite (run_app_Next _ pre _ _ st Hpre), (run_app_Next _ pre post _ st Hpre).
      change (open :: mid ++ close :: post) with ((open :: mid) ++ close :: post).
      replace ((open :: mid) ++ close :: post) with ((open :: mid ++ [close]) ++ post)
        by (cbn; now rewrite <- app_assoc).
      now rewrite (run_app_Next _ _ post _ st Hreg).
  - intros Ho Hcl Hg Hmid.
    pose proof (run_raw_region _ st open close mid cs Hc Hr Ho Hcl Hg Hmid) as Hreg.
    split; [|split].
    + now rewrite (run_app_Next _ pre _ _ st Hpre).
    + apply after_raw_node.
    + intros st' Hpost. rewrite <- (after_raw_node st mid).
      apply (run_raw_settled (Config_Grammar c) post (after_raw st mid) st'); [| |exact Hpost].
      * unfold after_raw. cbn. rewrite raws_append_at. cbn.
        rewrite length_app. cbn. lia.
      * unfold after_raw. cbn. congruence.
Qed.

(** *** The stack of open blocks *)

Lemma open_blocks_mono (n m : nat) (stk : list (@frame BS)) (b : option nat) :
  (n <= m)%nat -> open_blocks n stk b -> open_blocks m stk b.
Proof.
  intros Hle Ho. induction Ho as [|stk f b Hb _ IH]; constructor; [lia | exact IH].
Qed.

Lemma open_blocks_pop (n : nat) (stk : list (@frame BS)) (b : option nat) (f : frame) :
  open_blocks n stk b -> last stk = Some f ->
  open_blocks n (removelast stk) (frame_node f).
Proof.
  intros Ho Hl. destruct Ho as [|stk f' b Hb Ho]; [discriminate|].
  rewrite last_snoc in Hl. injection Hl as <-.
  now rewrite removelast_last.
Qed.

Lemma open_blocks_empty (n : nat) (stk : list (@frame BS)) (b : option nat) :
  open_blocks n stk b -> (stk = [] <-> b = None).
Proof.
  intros [|stk' f b' _ _]; split; try reflexivity; try discriminate.
  intros E. now destruct stk'.
Qed.

Lemma open_blocks_current (n : nat) (stk : list (@frame BS)) (b : nat) :
  open_blocks n stk (Some b) -> (b < n)%nat.
Proof. intros Ho. now inversion Ho. Qed.

Lemma length_blocks_append_at (p : appendPtr) (n : ASTNode Expression)
    (h : heap BS Expression) :
  List.length (blocks (append_at p n h)) = List.length (blocks h).
Proof. destruct p; cbn; [reflexivity | apply length_alter]. Qed.

Lemma step_open_blocks (g : G) (st st' : state_) (tok : Token) :
  open_blocks (List.length (blocks (mem st))) (stack st) (bn st) ->
  step_ g st tok = Next st' ->
  open_blocks (List.length (blocks (mem st'))) (stack st') (bn st').
Proof.
  intros Ho Hs.
  step_cases Hs; cbn; rewrite ?length_blocks_append_at, ?length_alter; cbn;
    try assumption.
  - rewrite length_app; cbn. constructor; [lia|].
    eapply open_blocks_mono; [|exact Ho]. lia.
  - rewrite length_app; cbn.
    match goal with E : bn st = Some _ |- _ => rewrite E end.
    eapply open_blocks_mono; [|exact Ho]. lia.
  - eapply open_blocks_pop; [exact Ho | assumption].
Qed.

Lemma run_open_blocks (g : G) (tokens : list Token) (st st' : state_) :
  open_blocks (List.length (blocks (mem st))) (stack st) (bn st) ->
  run_ g tokens st = Next st' ->
  open_blocks (List.length (blocks (mem st'))) (stack st') (bn st').
Proof.
  revert st. induction tokens as [|tok tokens IH]; intros st Ho Hrun.
  - now injection Hrun as <-.
  - cbn [run] in Hrun. destruct (step_ g st tok) as [st1| |] eqn:Hs; try discriminate.
    apply (IH st1); [|exact Hrun]. now apply (step_open_blocks g st st1 tok).
Qed.


Lemma initial_open_blocks :
  open_blocks (List.length (blocks (mem (initial : state_))))
    (stack (initial : state_)) (bn (initial : state_)).
Proof. constructor. Qed.

(** C2: the parser has read all the tokens and a block is still open
    (the stack or the current block node is not empty).  Then the
    current block node is a block in memory, and parsing returns no node
    and the error located at that block whose message is "unterminated",
    the quoted name of the block's tag, "block"; the message contains
    "unterminated" and, for a name of plain characters, the name. *)
Theorem C2_unterminated_block
    (c : Config (G := G)) (tokens : list Token) (st : state_) :
  run_ (Config_Grammar c) tokens initial = Next st ->
  stack st <> [] \/ bn st <> None ->
  exists (b : nat) (blk : ASTBlock BS Expression),
    bn st = Some b
    /\ blocks (mem st) !! b = Some blk
    /\ parseTokens_ c tokens
       = Return None
           (Some (Errorf (ASTBlock_Token blk)
                    ("unterminated "
                     ++ GoFmt.Quote quoteEscaped (Name (ASTBlock_Token blk))
                     ++ " block")%string))
    /\ GoFmt.Contains
         ("unterminated " ++ GoFmt.Quote quoteEscaped (Name (ASTBlock_Token blk))
          ++ " block")%string "unterminated" = true
    /\ (GoFmt.all_plain (Name (ASTBlock_Token blk)) = true ->
        GoFmt.Contains
          ("unterminated " ++ GoFmt.Quote quoteEscaped (Name (ASTBlock_Token blk))
           ++ " block")%string (Name (ASTBlock_Token blk)) = true).
Proof.
  intros Hrun Hopen.
  pose proof (run_open_blocks _ tokens initial st initial_open_blocks Hrun) as Ho.
  assert (Hbn : bn st <> None).
  { destruct Hopen as [Hs|Hb]; [|exact Hb].
    intros Hb. apply Hs. now apply (open_blocks_empty _ _ _ Ho). }
  destruct (bn st) as [b|] eqn:Eb; [clear Hbn | now destruct Hbn].
  apply open_blocks_current in Ho.
  destruct (lookup_lt_is_Some_2 _ _ Ho) as [blk Hblk].
  exists b, blk. split; [reflexivity|]. split; [exact Hblk|]. split; [|split].
  - unfold parseTokens. rewrite Hrun. unfold finish. now rewrite Eb, Hblk.
  - apply (Contains_prefix "unterminated").
  - intros Hp. now apply (Contains_Quote quoteEscaped "unterminated ").
Qed.

(** *** Ordinary tags *)

Lemma step_parent_error (g : G) (st : state_) (tok : Token) (cs : BS) :
  inComment st = false -> inRaw st = false ->
  TokType tok = TagTokenType ->
  Grammar_BlockSyntax g (Name tok) = Some cs ->
  Name tok <> "comment" -> Name tok <> "raw" ->
  RequiresParent cs = true ->
  sd st = None \/ CanHaveParent cs (sd st) = false ->
  step_ g st tok = Return None (Some (Errorf tok (not_inside_msg tok cs (sd st)))).
Proof.
  intros Hc Hr Hty Hg Hnc Hnr Hreq Hpar.
  unfold step. rewrite Hc, Hr, Hty, Hg.
  apply String.eqb_neq in Hnc, Hnr. rewrite Hnc, Hnr, Hreq.
  destruct Hpar as [-> | Hcan]; [reflexivity|].
  destruct (sd st) eqn:Es; [|reflexivity].
  now rewrite Hcan.
Qed.

(** C3, as amended.  The parser has read [pre] and is outside a comment
    or raw region; the next token is a tag, other than "comment" and
    "raw", whose registered syntax requires a parent, and there is no
    enclosing block or the enclosing block is not an allowed parent.
    Then parsing fails at that token, whatever follows, with no node and
    the error located at the token whose message is the tag name, " not
    inside ", the required parent tags joined by " or ", and, only when
    there is an enclosing block, "; immediate parent is " with its tag
    name.  With no enclosing block the message says nothing of the
    parent. *)
Theorem C3_required_parent
    (c : Config (G := G)) (pre post : list Token) (tok : Token)
    (st : state_) (cs : BS) :
  run_ (Config_Grammar c) pre initial = Next st ->
  inComment st = false -> inRaw st = false ->
  TokType tok = TagTokenType ->
  Grammar_BlockSyntax (Config_Grammar c) (Name tok) = Some cs ->
  Name tok <> "comment" -> Name tok <> "raw" ->
  RequiresParent cs = true ->
  sd st = None \/ CanHaveParent cs (sd st) = false ->
  let parents := GoFmt.Join (ParentTags cs) " or " in
  let msg :=
    match sd st with
    | Some parent =>
        (Name tok ++ " not inside " ++ parents
         ++ "; immediate parent is " ++ TagName parent)%string
    | None => (Name tok ++ " not inside " ++ parents)%string
    end in
  parseTokens_ c (pre ++ tok :: post) = Return None (Some (Errorf tok msg))
  /\ GoFmt.Contains msg (Name tok) = true
  /\ GoFmt.Contains msg parents = true
  /\ (forall parent : BS, sd st = Some parent ->
      GoFmt.Contains msg (TagName parent) = true).
Proof.
  intros Hpre Hc Hr Hty Hg Hnc Hnr Hreq Hpar parents msg.
  assert (Hmsg : not_inside_msg tok cs (sd st) = msg).
  { unfold not_inside_msg, msg, parents. destruct (sd st); [reflexivity|].
    now rewrite append_empty_r. }
  split; [|split; [|split]].
  - unfold parseTokens. rewrite (run_app_Next _ pre _ _ st Hpre). cbn [run].
    rewrite (step_parent_error _ st tok cs); try assumption.
    now rewrite Hmsg.
  - unfold msg. destruct (sd st); apply Contains_prefix.
  - unfold msg. destruct (sd st).
    + apply (Contains_skip (Name tok)), (Contains_skip " not inside "),
        Contains_prefix.
    + apply (Contains_skip (Name tok)), Contains_suffix.
  - intros parent Hs. unfold msg. rewrite Hs.
    apply (Contains_skip (Name tok)), (Contains_skip " not inside "),
      (Contains_skip parents), Contains_suffix.
Qed.

Lemma step_unregistered_tag (g : G) (st : state_) (tok : Token) :
  inComment st = false -> inRaw st = false ->
  TokType tok = TagTokenType ->
  Grammar_BlockSyntax g (Name tok) = None ->
  step_ g st tok
  = Next (set_mem (append_at (ap st) (TagRef {| ASTTag_Token := tok |}) (mem st)) st).
Proof.
  intros Hc Hr Hty Hg. unfold step. now rewrite Hc, Hr, Hty, Hg.
Qed.

Lemma parse_unregistered_tag (c : Config (G := G)) (tok : Token) :
  TokType tok = TagTokenType ->
  Grammar_BlockSyntax (Config_Grammar c) (Name tok) = None ->
  parseTokens_ c [tok] = Return (Some (Seq [Tag tok])) None.
Proof.
  intros Hty Hg. unfold parseTokens. cbn [run].
  rewrite step_unregistered_tag by (reflexivity || assumption).
  reflexivity.
Qed.

End ParserFacts.

(** ** The compile phase *)

Section RenderFacts.

Import Parser Render.
Local Open Scope list_scope.

Context {BS G Expression ExprError RenderFn : Type}.
Context `{!BlockSyntax BS} `{!Grammar G BS}.
Variable expressions_Parse : string -> Expression + ExprError.
Variable quoteEscaped : string -> string.
Variable tagCompilers : gmap string (string -> RenderFn + string).
Variable blockCompilers :
  gmap string (Token -> list (@Node Expression RenderFn)
               -> list (@Node Expression RenderFn) -> RenderFn + string).

Local Abbreviation compileNode_ :=
  (compileNode (BS := BS) (ExprError := ExprError) quoteEscaped
     tagCompilers blockCompilers).
Local Abbreviation has_undefined_tag_ :=
  (has_undefined_tag (BS := BS) (Expression := Expression) (RenderFn := RenderFn)
     tagCompilers).

(** An induction principle for trees that reaches the nodes in the
    lists. *)
Lemma AST_nested_ind (P : AST BS Expression -> Prop) :
  (forall children, Forall P children -> P (Seq children)) ->
  (forall tok, P (Text tok)) ->
  (forall tok, P (Tag tok)) ->
  (forall tok expr, P (Object tok expr)) ->
  (forall tok syn body clauses,
      Forall P body -> Forall P clauses -> P (Block tok syn body clauses)) ->
  (forall slices, P (Raw slices)) ->
  forall t, P t.
Proof.
  intros HSeq HText HTag HObj HBlock HRaw.
  fix IH 1. intros [children|tok|tok|tok expr|tok syn body clauses|slices].
  - apply HSeq. induction children; constructor; [apply IH | assumption].
  - apply HText.
  - apply HTag.
  - apply HObj.
  - apply HBlock.
    + induction body; constructor; [apply IH | assumption].
    + induction clauses; constructor; [apply IH | assumption].
  - apply HRaw.
Qed.

(** The first error in a list is the error of the list. *)
Lemma compileNodes_error (l : list (AST BS Expression)) :
  Forall (fun t => has_undefined_tag_ t = true -> exists e, compileNode_ t = inr e) l ->
  existsb has_undefined_tag_ l = true ->
  exists e, compileNodes_with compileNode_ l = inr e.
Proof.
  induction 1 as [|x rest Hx _ IH]; cbn; [discriminate|].
  intros Hex. destruct (compileNode_ x) as [x'|e] eqn:Ex; [|now eexists].
  apply orb_true_iff in Hex as [Hu|Hu].
  - destruct (Hx Hu) as [e He]. congruence.
  - destruct (IH Hu) as [e ->]. now eexists.
Qed.

(** A tree with an unregistered tag in it does not compile. *)
Lemma compile_undefined_tag_fails (t : AST BS Expression) :
  has_undefined_tag_ t = true -> exists e, compileNode_ t = inr e.
Proof.
  induction t as [children IH|tok|tok|tok expr|tok syn body clauses IHb IHc|slices]
    using AST_nested_ind; cbn; try discriminate.
  - intros Hu. destruct (compileNodes_error children IH Hu) as [e ->]. now eexists.
  - destruct (tagCompilers !! Name tok); [discriminate|]. intros _. now eexists.
  - intros Hu. apply orb_true_iff in Hu as [Hu|Hu].
    + destruct (compileNodes_error body IHb Hu) as [e ->]. now eexists.
    + destruct (compileNodes_with compileNode_ body); [|now eexists].
      destruct (compileNodes_error clauses IHc Hu) as [e ->]. now eexists.
Qed.

End RenderFacts.

(** ** The theorems at sample inputs *)

Section Runs.

Import Parser Render Samples.
Local Open Scope list_scope.

Local Abbreviation run_ := (run (G := gmap string blockSyntax) parse_any quote_verbatim).
Local Abbreviation parseTokens_ :=
  (parseTokens (G := gmap string blockSyntax) parse_any quote_verbatim).

(** The raw region of the tag tests, between two texts. *)
Lemma C1_comment_and_raw_regions_witness :
  let pre := [text_token loc0 "pre"] in
  let open := tag_token "raw" "" "{% raw %}" in
  let mid := [obj_token "a" "{{ a }}"; tag_token "undefined_tag" "" "{% undefined_tag %}"] in
  let close := tag_token "endraw" "" "{% endraw %}" in
  let post := [text_token loc0 "post"] in
  parseTokens_ standard (pre ++ open :: mid ++ close :: post)
  = Return (Some (Seq [Text (text_token loc0 "pre");
                       Raw ["{{ a }}"; "{% undefined_tag %}"];
                       Text (text_token loc0 "post")])) None
  /\ (exists st,
      run_ standard_grammar (pre ++ open :: mid ++ [close]) initial = Next st
      /\ raws (mem st) !! 0%nat = Some {| Slices := ["{{ a }}"; "{% undefined_tag %}"] |})
  /\ parseTokens_ standard
       (pre ++ tag_token "comment" "" "{% comment %}" :: mid
            ++ tag_token "endcomment" "" "{% endcomment %}" :: post)
     = parseTokens_ standard (pre ++ post).
Proof.
  intros pre open mid close post.
  split; [vm_compute; reflexivity|].
  split; cycle 1.
  { pose (st := set_mem (append_at RootChildren
                           (TextRef {| ASTText_Token := text_token loc0 "pre" |})
                           (mem initial))
                  (initial : @state blockSyntax string)).
    pose (cs := {| name := "comment"; isClause := false; isEnd := false;
                   startName := ""; parents := [] |}).
    assert (Hpre : run_ standard_grammar pre initial = Next st) by reflexivity.
    destruct (C1_comment_and_raw_regions parse_any quote_verbatim standard
                pre mid post (tag_token "comment" "" "{% comment %}")
                (tag_token "endcomment" "" "{% endcomment %}") st cs
                Hpre eq_refl eq_refl) as [Hcomment _].
    apply Hcomment; [reflexivity | reflexivity | vm_compute; reflexivity
                    | repeat constructor]. }
  pose (st := set_mem (append_at RootChildren
                         (TextRef {| ASTText_Token := text_token loc0 "pre" |})
                         (mem initial))
                (initial : @state blockSyntax string)).
  pose (cs := {| name := "raw"; isClause := false; isEnd := false;
                 startName := ""; parents := [] |}).
  assert (Hpre : run_ standard_grammar pre initial = Next st) by reflexivity.
  destruct (C1_comment_and_raw_regions parse_any quote_verbatim standard
              pre mid post open close st cs Hpre eq_refl eq_refl) as [_ Hraw].
  destruct Hraw as (Hrun & Hnode & _).
  - reflexivity.
  - reflexivity.
  - vm_compute; reflexivity.
  - repeat constructor.
  - exists (after_raw st mid). split; [exact Hrun | exact Hnode].
Defined.

(** C1, as stated, fails where the grammar registers nothing: the tag
    named "comment" is then a plain tag, and the text between it and the
    tag named "endcomment" makes a Text node. *)
Lemma C1_comment_and_raw_regions_counterexample :
  let open := tag_token "comment" "" "{% comment %}" in
  let inside := text_token loc0 "x" in
  let close := tag_token "endcomment" "" "{% endcomment %}" in
  is_tag_named "comment" open = true
  /\ is_tag_named "endcomment" close = true
  /\ parseTokens_ bare [open; inside; close]
     = Return (Some (Seq [Tag open; Text inside; Tag close])) None
  /\ parseTokens_ bare [open; inside; close] <> parseTokens_ bare [].
Proof.
  intros open inside close.
  split; [reflexivity|]. split; [reflexivity|].
  split; [vm_compute; reflexivity|].
  vm_compute. discriminate.
Qed.

(** The unterminated block of the tag tests. *)
Lemma C2_unterminated_block_witness :
  let tok := tag_token "if" "syntax error" "{% if syntax error %}" in
  exists blk : ASTBlock blockSyntax string,
    ASTBlock_Token blk = tok
    /\ parseTokens_ standard [tok]
       = Return None
           (Some (Errorf (ASTBlock_Token blk)
                    ("unterminated "
                     ++ GoFmt.Quote quote_verbatim (Name (ASTBlock_Token blk))
                     ++ " block")%string)).
Proof.
  intros tok.
  pose (cs := {| name := "if"; isClause := false; isEnd := false;
                 startName := ""; parents := [] |}).
  pose (st := block_start tok cs (initial : @state blockSyntax string)).
  assert (Hrun : run_ (Config_Grammar standard) [tok] initial = Next st)
    by (vm_compute; reflexivity).
  assert (Hopen : stack st <> [] \/ bn st <> None) by (right; discriminate).
  destruct (C2_unterminated_block parse_any quote_verbatim standard [tok] st Hrun Hopen)
    as (b & blk & Hb & Hblk & Hparse & _).
  exists blk. split; [|exact Hparse].
  injection Hb as <-. cbn in Hblk. now injection Hblk as <-.
Defined.

(** A bare [{% else %}]. *)
Lemma C3_required_parent_witness :
  let tok := tag_token "else" "" "{% else %}" in
  parseTokens_ standard [tok]
  = Return None (Some (Errorf tok "else not inside case or if or unless")).
Proof.
  intros tok.
  pose (cs := {| name := "else"; isClause := true; isEnd := false;
                 startName := ""; parents := ["case"; "if"; "unless"] |}).
  assert (Hg : Grammar_BlockSyntax (Config_Grammar standard) (Name tok) = Some cs)
    by (vm_compute; reflexivity).
  assert (Hnc : Name tok <> "comment") by discriminate.
  assert (Hnr : Name tok <> "raw") by discriminate.
  assert (Hreq : RequiresParent cs = true) by reflexivity.
  destruct (C3_required_parent parse_any quote_verbatim standard [] [] tok
              initial cs eq_refl eq_refl eq_refl eq_refl Hg Hnc Hnr Hreq
              (or_introl eq_refl)) as [Hparse _].
  exact Hparse.
Defined.

(** C3, as stated, fails on a bare [{% else %}]: with no enclosing block
    the message stops after the parent tags, and "none" is not in it. *)
Lemma C3_required_parent_counterexample :
  exists msg : string,
    parseTokens_ standard [tag_token "else" "" "{% else %}"]
    = Return None (Some (Errorf (tag_token "else" "" "{% else %}") msg))
    /\ msg = "else not inside case or if or unless"
    /\ GoFmt.Contains msg "none" = false.
Proof.
  eexists. split; [vm_compute; reflexivity|]. split; [reflexivity|].
  vm_compute; reflexivity.
Qed.

End Runs.

(** ** The tests of the sources, run on the model *)

Section SourceTests.

Import Parser Render Samples.

Local Abbreviation scan := (fun src : string => Scan src loc0 []).
Local Abbreviation scan_delims := (fun src : string => Scan src loc0 test_delims).

(** [TestScan]: the token counts of [scannerCountTests]. *)
Example TestScan_counts :
  List.length <$> (scan <$> ["{% tag arg %}"; "{% tag arg %}{% tag %}";
                        "{% tag arg %}{% tag arg %}{% tag %}"; "{% tag %}{% tag %}";
                        "{% tag arg %}{% tag arg %}{% tag %}{% tag %}";
                        "{{ expr }}"; "{{ expr arg }}"; "{{ expr }}{{ expr }}";
                        "{{ expr arg }}{{ expr arg }}"])
  = [1; 2; 3; 2; 4; 1; 1; 2; 2]%nat.
Proof. vm_compute; reflexivity. Qed.

(** [TestScan]: text, tag, text, object, text. *)
Example TestScan_sequence :
  (fun t => (TokType t, Name t, Args t, Source t))
    <$> scan "pre{% tag args %}mid{{ object }}post"
  = [(TextTokenType, "", "", "pre");
     (TagTokenType, "tag", "args", "{% tag args %}");
     (TextTokenType, "", "", "mid");
     (ObjTokenType, "", "object", "{{ object }}");
     (TextTokenType, "", "", "post")].
Proof. vm_compute; reflexivity. Qed.

(** [TestScan_ws]: the trim flags of [wsTests]. *)
Example TestScan_ws :
  (fun src => (fun t => (Args t, TrimLeft t, TrimRight t)) <$> scan src)
    <$> ["{{ expr }}"; "{{- expr }}"; "{{ expr -}}";
         "{% tag arg %}"; "{%- tag arg %}"; "{% tag arg -%}"]
  = [[("expr", false, false)]; [("expr", true, false)]; [("expr", false, true)];
     [("arg", false, false)]; [("arg", true, false)]; [("arg", false, true)]].
Proof. vm_compute; reflexivity. Qed.

(** [TestScan_delims]: the token counts of [scannerCountTestsDelims]. *)
Example TestScan_delims_counts :
  List.length <$> (scan_delims <$>
    ["TAG*LEFT tag arg TAG!RIGHT";
     "TAG*LEFT tag arg TAG!RIGHTTAG*LEFT tag TAG!RIGHT";
     "TAG*LEFT tag TAG!RIGHTTAG*LEFT tag TAG!RIGHT";
     "OBJECT@LEFT expr OBJECT#RIGHT"; "OBJECT@LEFT expr arg OBJECT#RIGHT";
     "OBJECT@LEFT expr OBJECT#RIGHTOBJECT@LEFT expr OBJECT#RIGHT"])
  = [1; 2; 2; 1; 1; 2]%nat.
Proof. vm_compute; reflexivity. Qed.

(** The tag tests: a raw block keeps the text of what it holds. *)
Example raw_block_of_tag_tests :
  exists pre post,
    parse standard "pre{% raw %}{% if false %}anyway-{% endraw %}post"
    = Return (Some (Seq [Text pre; Raw ["{% if false %}"; "anyway-"]; Text post])) None.
Proof. do 2 eexists. vm_compute; reflexivity. Qed.

(** The tag tests: a comment block leaves nothing. *)
Example comment_block_of_tag_tests :
  parse standard "{% comment %}{{ a }}{% undefined_tag %}{% endcomment %}"
  = Return (Some (Seq [])) None.
Proof. vm_compute; reflexivity. Qed.

(** The parse error tests: an [if] that is not closed. *)
Example unterminated_if_of_tag_tests :
  exists tok,
    parse standard "{% if syntax error %}"
    = Return None
        (Some (Errorf tok ("unterminated " ++ GoFmt.quoted "if" ++ " block")%string)).
Proof. eexists. vm_compute; reflexivity. Qed.

(** The conversion tests that have the bool target. *)
Example convertTests_bool
    (libConvert : Value -> Values.GoType -> Value)
    (ParseDate : string -> Value * option Values.TypeError)
    (convertValueToNumber : Value -> Values.GoType -> Value)
    (convertOtherKind : Value -> Values.GoType -> Value * option Values.TypeError) :
  (fun v => Values.Convert libConvert ParseDate convertValueToNumber convertOtherKind
              v (Values.Basic Values.KBool))
    <$> [VNil; VBool false; VBool true; VInt 0; VString ""]
  = [(VBool false, None); (VBool false, None); (VBool true, None);
     (VBool true, None); (VBool true, None)].
Proof. reflexivity. Qed.

End SourceTests.

(* ================================================================== *)
(** * More of the structural parser *)
(* ================================================================== *)

Section ParserMore.

Import Parser Streams.
Local Open Scope list_scope.

Context {BS G Expression ExprError : Type}.
Context `{!BlockSyntax BS} `{!Grammar G BS}.
Variable expressions_Parse : string -> Expression + ExprError.
Variable quoteEscaped : string -> string.

Local Abbreviation state_ := (@state BS Expression).
Local Abbreviation step_ := (step (G:=G) expressions_Parse quoteEscaped).
Local Abbreviation run_ := (run (G:=G) expressions_Parse quoteEscaped).
Local Abbreviation finish_ := (finish (ExprError := ExprError) quoteEscaped).
Local Abbreviation parseTokens_ := (parseTokens (G:=G) expressions_Parse quoteEscaped).
Local Abbreviation leaf_ := (leaf (BS := BS) (G := G) expressions_Parse).
Local Abbreviation leaves_ := (leaves (BS := BS) (G := G) expressions_Parse).

(** Case analysis on one turn of the loop. *)
Ltac turn_cases Hs :=
  unfold step, clause, block_end, block_start, alloc_block, alloc_raw in Hs;
  repeat match type of Hs with
         | context [match ?x with _ => _ end] => destruct x eqn:?
         | context [if ?x then _ else _] => destruct x eqn:?
         end;
  try discriminate Hs.

(** *** Streams of leaves *)

Lemma step_leaf (g : G) (st : state_) (tok : Token) (n : ASTNode Expression) :
  inComment st = false -> inRaw st = false ->
  leaf_ g tok = Some n ->
  step_ g st tok = Next (set_mem (append_at (ap st) n (mem st)) st).
Proof.
  intros Hc Hr Hl. unfold step. rewrite Hc, Hr. unfold leaf in Hl.
  destruct (TokType tok).
  - now injection Hl as <-.
  - destruct (Grammar_BlockSyntax g (Name tok)); [discriminate|]. now injection Hl as <-.
  - destruct (expressions_Parse (Args tok)); [|discriminate]. now injection Hl as <-.
Qed.

Lemma leaves_cons (g : G) (tok : Token) (tokens : list Token)
    (refs : list (ASTNode Expression)) :
  leaves_ g (tok :: tokens) = Some refs ->
  exists n rest, leaf_ g tok = Some n /\ leaves_ g tokens = Some rest /\ refs = n :: rest.
Proof.
  unfold leaves. cbn. destruct (leaf_ g tok) as [n|]; cbn; [|discriminate].
  destruct (mapM (leaf_ g) tokens) as [rest|]; cbn; [|discriminate].
  intros [= <-]. now exists n, rest.
Qed.

(** A stream of leaves appends its nodes, in order, at the insertion
    point, and changes nothing else. *)
Lemma run_leaves (g : G) (tokens : list Token) (refs : list (ASTNode Expression))
    (st : state_) :
  inComment st = false -> inRaw st = false ->
  leaves_ g tokens = Some refs ->
  run_ g tokens st
  = Next (set_mem (foldl (fun h n => append_at (ap st) n h) (mem st) refs) st).
Proof.
  revert refs st. induction tokens as [|tok tokens IH]; intros refs st Hc Hr Hl.
  - injection Hl as <-. cbn. f_equal. now destruct st.
  - destruct (leaves_cons g tok tokens refs Hl) as (n & rest & Hn & Hrest & ->).
    cbn [run]. rewrite (step_leaf g st tok n Hc Hr Hn).
    rewrite (IH rest (set_mem (append_at (ap st) n (mem st)) st) Hc Hr Hrest).
    reflexivity.
Qed.

Lemma alter_same {A : Type} (f g : A -> A) (i : nat) (l : list A) :
  (forall x, f x = g x) -> alter f i l = alter g i l.
Proof.
  intros Hfg. apply list_eq. intros j. rewrite !list_lookup_alter.
  case_decide; [|reflexivity]. subst. destruct (l !! j); cbn; [|reflexivity].
  now rewrite Hfg.
Qed.

Lemma foldl_append_root (refs : list (ASTNode Expression)) (h : heap BS Expression) :
  foldl (fun h n => append_at RootChildren n h) h refs
  = {| root := {| Children := Children (root h) ++ refs |};
       blocks := blocks h; raws := raws h |}.
Proof.
  revert h. induction refs as [|n refs IH]; intros h; cbn.
  - rewrite app_nil_r. now destruct h as [[]].
  - rewrite IH. cbn. now rewrite <- app_assoc.
Qed.

Lemma foldl_append_body (a : nat) (refs : list (ASTNode Expression))
    (h : heap BS Expression) :
  foldl (fun h n => append_at (BodyOf a) n h) h refs
  = {| root := root h;
       blocks := alter (fun b => {| ASTBlock_Token := ASTBlock_Token b; syntax := syntax b;
                                    Body := Body b ++ refs; Clauses := Clauses b |})
                       a (blocks h);
       raws := raws h |}.
Proof.
  revert h. induction refs as [|n refs IH]; intros h; cbn.
  - destruct h as [r bs rs]. cbn. f_equal.
    apply list_eq. intros i. rewrite list_lookup_alter.
    case_decide; [|reflexivity]. subst.
    destruct (bs !! i) as [[]|]; cbn; [|reflexivity]. now rewrite app_nil_r.
  - rewrite IH. cbn. f_equal. rewrite list_alter_alter_eq.
    apply alter_same; intros b. cbn. now rewrite <- app_assoc.
Qed.

(** X1: a stream of texts, objects whose expressions parse, and tags the
    grammar does not register parses to the sequence of the nodes of its
    tokens, in the order of the tokens. *)
Theorem X1_leaves_parse_in_order
    (c : Config (G := G)) (tokens : list Token) (refs : list (ASTNode Expression)) :
  leaves_ (Config_Grammar c) tokens = Some refs ->
  parseTokens_ c tokens = Return (Some (Seq (leaf_tree <$> refs))) None
  /\ List.length refs = List.length tokens.
Proof.
  intros Hl. split.
  - unfold parseTokens. rewrite (run_leaves _ tokens refs initial eq_refl eq_refl Hl).
    cbn [ap initial]. rewrite foldl_append_root. reflexivity.
  - revert refs Hl. induction tokens as [|tok tokens IH]; intros refs Hl.
    + now injection Hl as <-.
    + destruct (leaves_cons _ tok tokens refs Hl) as (n & rest & _ & Hrest & ->).
      cbn. now rewrite (IH rest Hrest).
Qed.


(** *** Errors and missing end tags *)

(** X2: outside a comment or raw region, an object token whose expression
    the expression parser rejects makes the whole parse fail, whatever
    follows, with no node and that error wrapped at the token. *)
Theorem X2_object_expression_error
    (c : Config (G := G)) (pre post : list Token) (tok : Token)
    (st : state_) (err : ExprError) :
  run_ (Config_Grammar c) pre initial = Next st ->
  inComment st = false -> inRaw st = false ->
  TokType tok = ObjTokenType ->
  expressions_Parse (Args tok) = inr err ->
  parseTokens_ c (pre ++ tok :: post) = Return None (Some (WrapError err tok)).
Proof.
  intros Hpre Hc Hr Hty Herr. unfold parseTokens.
  rewrite (run_app_Next _ _ _ pre _ _ st Hpre). cbn [run].
  unfold step. now rewrite Hc, Hr, Hty, Herr.
Qed.

Lemma finish_set_inComment (b : bool) (st : state_) :
  finish_ (set_inComment b st) = finish_ st.
Proof. reflexivity. Qed.

(** X3: a comment that is never closed is no error.  When the grammar
    registers "comment" and a tag of that name is met outside a comment
    or raw region, with no tag named "endcomment" after it, the rest of
    the input is dropped: the parse is that of the tokens before the
    tag. *)
Theorem X3_unterminated_comment
    (c : Config (G := G)) (pre rest : list Token) (open : Token)
    (st : state_) (cs : BS) :
  run_ (Config_Grammar c) pre initial = Next st ->
  inComment st = false -> inRaw st = false ->
  is_tag_named "comment" open = true ->
  Grammar_BlockSyntax (Config_Grammar c) "comment" = Some cs ->
  Forall (fun t => is_tag_named "endcomment" t = false) rest ->
  parseTokens_ c (pre ++ open :: rest) = parseTokens_ c pre.
Proof.
  intros Hpre Hc Hr Ho Hg Hrest. unfold parseTokens.
  rewrite (run_app_Next _ _ _ pre _ _ st Hpre), Hpre. cbn [run].
  rewrite (step_open_comment _ _ _ st open cs Hc Hr Ho Hg).
  rewrite (run_inside_comment _ _ _ rest (set_inComment true st) eq_refl Hrest).
  apply finish_set_inComment.
Qed.

(** X4: a raw region that is never closed is no error either.  When the
    grammar registers "raw" and a tag of that name is met outside a
    comment or raw region, with no tag named "endraw" after it, all the
    rest of the input becomes the slices of the raw node; if no block was
    open at the tag, the parse returns a tree and no error. *)
Theorem X4_unterminated_raw
    (c : Config (G := G)) (pre rest : list Token) (open : Token)
    (st : state_) (cs : BS) :
  run_ (Config_Grammar c) pre initial = Next st ->
  inComment st = false -> inRaw st = false ->
  is_tag_named "raw" open = true ->
  Grammar_BlockSyntax (Config_Grammar c) "raw" = Some cs ->
  Forall (fun t => is_tag_named "endraw" t = false) rest ->
  run_ (Config_Grammar c) (pre ++ open :: rest) initial
    = Next (set_inRaw true (after_raw st rest))
  /\ (bn st = None ->
      parseTokens_ c (pre ++ open :: rest)
      = Return (Some (tree (mem (after_raw st rest)))) None).
Proof.
  intros Hpre Hc Hr Ho Hg Hrest.
  assert (Hrun : run_ (Config_Grammar c) (pre ++ open :: rest) initial
                 = Next (set_inRaw true (after_raw st rest))).
  { rewrite (run_app_Next _ _ _ pre _ _ st Hpre). cbn [run].
    rewrite (step_open_raw _ _ _ st open cs Hc Hr Ho Hg).
    erewrite run_inside_raw with (rs := raws (mem st)) (slices := []);
      try reflexivity; try assumption.
    - f_equal. unfold after_raw. destruct st as [h p]; destruct p; cbn; reflexivity.
    - cbn. apply raws_append_at. }
  split; [exact Hrun|].
  intros Hbn. unfold parseTokens. rewrite Hrun. unfold finish. cbn. now rewrite Hbn.
Qed.


(** *** The parser only appends *)

Lemma extends_refl (h : heap BS Expression) : extends h h.
Proof.
  split; [reflexivity|]. split.
  - intros b blk Hb. exists blk. now repeat split.
  - intros r raw Hr. now exists raw.
Qed.

Lemma extends_trans (h1 h2 h3 : heap BS Expression) :
  extends h1 h2 -> extends h2 h3 -> extends h1 h3.
Proof.
  intros (Hc1 & Hb1 & Hr1) (Hc2 & Hb2 & Hr2). split; [now transitivity (Children (root h2))|].
  split.
  - intros b blk Hb. destruct (Hb1 b blk Hb) as (blk2 & Hb' & Ht & Hs & Hbo & Hcl).
    destruct (Hb2 b blk2 Hb') as (blk3 & Hb'' & Ht' & Hs' & Hbo' & Hcl').
    exists blk3. repeat split; try congruence; etransitivity; eassumption.
  - intros r raw Hr. destruct (Hr1 r raw Hr) as (raw2 & Hr' & Hsl).
    destruct (Hr2 r raw2 Hr') as (raw3 & Hr'' & Hsl').
    exists raw3. split; [assumption | etransitivity; eassumption].
Qed.

Lemma extends_blocks (h : heap BS Expression) (r : ASTSeq) (bs : list (ASTBlock BS Expression))
    (rs : list ASTRaw) :
  Children (root h) `prefix_of` Children r ->
  (forall b blk, blocks h !! b = Some blk ->
      exists blk', bs !! b = Some blk'
        /\ ASTBlock_Token blk' = ASTBlock_Token blk /\ syntax blk' = syntax blk
        /\ Body blk `prefix_of` Body blk' /\ Clauses blk `prefix_of` Clauses blk') ->
  (forall i raw, raws h !! i = Some raw ->
      exists raw', rs !! i = Some raw' /\ Slices raw `prefix_of` Slices raw') ->
  extends h {| root := r; blocks := bs; raws := rs |}.
Proof. intros. now repeat split. Qed.

Lemma blocks_kept_alter (f : ASTBlock BS Expression -> ASTBlock BS Expression)
    (a : nat) (bs : list (ASTBlock BS Expression)) :
  (forall blk, ASTBlock_Token (f blk) = ASTBlock_Token blk /\ syntax (f blk) = syntax blk
               /\ Body blk `prefix_of` Body (f blk)
               /\ Clauses blk `prefix_of` Clauses (f blk)) ->
  forall b blk, bs !! b = Some blk ->
    exists blk', alter f a bs !! b = Some blk'
      /\ ASTBlock_Token blk' = ASTBlock_Token blk /\ syntax blk' = syntax blk
      /\ Body blk `prefix_of` Body blk' /\ Clauses blk `prefix_of` Clauses blk'.
Proof.
  intros Hf b blk Hb. rewrite list_lookup_alter. case_decide.
  - subst. rewrite Hb. cbn. exists (f blk). split; [reflexivity | apply Hf].
  - exists blk. now repeat split.
Qed.

Lemma blocks_kept_app (bs more : list (ASTBlock BS Expression)) :
  forall b blk, bs !! b = Some blk ->
    exists blk', (bs ++ more) !! b = Some blk'
      /\ ASTBlock_Token blk' = ASTBlock_Token blk /\ syntax blk' = syntax blk
      /\ Body blk `prefix_of` Body blk' /\ Clauses blk `prefix_of` Clauses blk'.
Proof.
  intros b blk Hb. exists blk. split; [|now repeat split].
  rewrite lookup_app_l; [exact Hb | now apply lookup_lt_Some in Hb].
Qed.

Lemma raws_kept (rs : list ASTRaw) :
  forall i raw, rs !! i = Some raw ->
    exists raw', rs !! i = Some raw' /\ Slices raw `prefix_of` Slices raw'.
Proof. intros i raw Hi. now exists raw. Qed.

Lemma extends_append_at (p : appendPtr) (n : ASTNode Expression) (h : heap BS Expression) :
  extends h (append_at p n h).
Proof.
  destruct p as [|a]; cbn; apply extends_blocks; cbn.
  - now apply prefix_app_r.
  - intros b blk Hb. exists blk. now repeat split.
  - apply raws_kept.
  - reflexivity.
  - apply blocks_kept_alter. intros blk. cbn. repeat split; try reflexivity.
    now apply prefix_app_r.
  - apply raws_kept.
Qed.

Lemma extends_alloc_block (blk : ASTBlock BS Expression) (h : heap BS Expression) :
  extends h (alloc_block blk h).2.
Proof.
  apply extends_blocks; cbn; [reflexivity | apply blocks_kept_app | apply raws_kept].
Qed.

Lemma extends_alloc_raw (h : heap BS Expression) : extends h (alloc_raw h).2.
Proof.
  apply extends_blocks; cbn; [reflexivity | |].
  - intros i blk Hi. exists blk. now repeat split.
  - intros i raw Hi. exists raw. split; [|reflexivity].
    rewrite lookup_app_l; [exact Hi | now apply lookup_lt_Some in Hi].
Qed.

Lemma extends_append_clause_at (a n : nat) (h : heap BS Expression) :
  extends h (append_clause_at a n h).
Proof.
  apply extends_blocks; cbn; [reflexivity | | apply raws_kept].
  apply blocks_kept_alter. intros blk. cbn. repeat split; try reflexivity.
  now apply prefix_app_r.
Qed.

Lemma extends_append_slice_at (r : nat) (src : string) (h : heap BS Expression) :
  extends h (append_slice_at r src h).
Proof.
  apply extends_blocks; cbn; [reflexivity | |].
  - intros i blk Hi. exists blk. now repeat split.
  - intros i raw Hi. rewrite list_lookup_alter. case_decide.
    + subst. rewrite Hi. cbn. eexists. split; [reflexivity|]. cbn.
      now apply prefix_app_r.
    + now exists raw.
Qed.

(** One turn of the loop extends the memory. *)
Lemma step_extends (g : G) (st st' : state_) (tok : Token) :
  step_ g st tok = Next st' -> extends (mem st) (mem st').
Proof.
  intros Hs. unfold step, clause, block_end, block_start in Hs.
  repeat match type of Hs with
         | context [match ?x with _ => _ end] => destruct x eqn:?
         | context [if ?x then _ else _] => destruct x eqn:?
         end;
    try discriminate Hs; injection Hs as <-; cbn [mem set_mem set_ap set_inComment
                                                  set_inRaw set_rawTag];
    try first [ apply extends_refl
              | apply extends_append_at
              | apply extends_append_slice_at ].
  all: match goal with
       | E : alloc_raw ?h0 = (_, _) |- _ =>
           pose proof (extends_alloc_raw h0) as Hx; rewrite E in Hx
       | E : alloc_block ?blk ?h0 = (_, _) |- _ =>
           pose proof (extends_alloc_block blk h0) as Hx; rewrite E in Hx
       end;
       (eapply extends_trans; [exact Hx|]);
       first [apply extends_append_at | apply extends_append_clause_at].
Qed.

(** X5: the parser only appends.  Whatever tokens it reads, the nodes
    already under the root are still there in the same order, every block
    already made keeps its token and its syntax, and its body, its
    clauses, and the slices of every raw node only grow at the end. *)
Theorem X5_parser_only_appends (g : G) (tokens : list Token) (st st' : state_) :
  run_ g tokens st = Next st' -> extends (mem st) (mem st').
Proof.
  revert st. induction tokens as [|tok tokens IH]; intros st Hrun.
  - injection Hrun as <-. apply extends_refl.
  - cbn [run] in Hrun. destruct (step_ g st tok) as [st1| |] eqn:Hs; try discriminate.
    eapply extends_trans; [exact (step_extends g st st1 tok Hs) | now apply IH].
Qed.


(** *** No panic with a well-formed grammar *)

(** The current syntax is nil exactly when the current block node is, and
    so it is in every frame. *)
Lemma step_syntax_with_node (g : G) (st st' : state_) (tok : Token) :
  (sd st = None <-> bn st = None) ->
  Forall (fun f => frame_syntax f = None <-> frame_node f = None) (stack st) ->
  step_ g st tok = Next st' ->
  (sd st' = None <-> bn st' = None)
  /\ Forall (fun f => frame_syntax f = None <-> frame_node f = None) (stack st').
Proof.
  intros Hsd Hfr Hs. turn_cases Hs; injection Hs as <-; cbn; try (split; assumption).
  - split; [split; discriminate|].
    apply Forall_app. split; [assumption|]. constructor; [exact Hsd | constructor].
  - match goal with E : bn st = Some _ |- _ => rewrite E end.
    split; [exact Hsd | assumption].
  - match goal with E : last (stack st) = Some _ |- _ => rename E into Hl end.
    destruct (stack st) as [|f0 stk] using rev_ind; [discriminate|].
    rewrite last_snoc in Hl. injection Hl as <-.
    apply Forall_app in Hfr as [Hstk Hf]. rewrite removelast_last.
    split; [now inversion Hf | exact Hstk].
Qed.

(** With such a grammar a turn of the loop does not panic. *)
Lemma step_no_panic (g : G) (st : state_) (tok : Token) (what : string) :
  (forall name cs, Grammar_BlockSyntax g name = Some cs -> IsBlockStart cs = false ->
     RequiresParent cs = true /\ (IsClause cs = true \/ IsBlockEnd cs = true)) ->
  open_blocks (List.length (blocks (mem st))) (stack st) (bn st) ->
  (sd st = None <-> bn st = None) ->
  step_ g st tok <> Panic what.
Proof.
  intros Hg Ho Hsd Hs. turn_cases Hs;
    match goal with
    | E : Grammar_BlockSyntax g _ = Some ?cs, E' : IsBlockStart ?cs = false |- _ =>
        destruct (Hg _ _ E E') as [Hreq Hrole]
    end;
    match goal with
    | E : RequiresParent _ && _ = false |- _ => rewrite Hreq in E; cbn in E
    end.
  - (* a clause with no current block node *)
    destruct (sd st) eqn:Esd; [|discriminate].
    assert (Some b0 = None) by now apply Hsd. discriminate.
  - (* a block end with an empty stack *)
    destruct (sd st) eqn:Esd; [|discriminate].
    assert (Hstk : stack st = []).
    { destruct (stack st) using rev_ind; [reflexivity|].
      match goal with E : last _ = None |- _ => now rewrite last_snoc in E end. }
    apply (open_blocks_empty _ _ _ Ho), Hsd in Hstk. discriminate.
  - (* no role *)
    destruct Hrole; congruence.
Qed.

Lemma run_no_panic (g : G) (tokens : list Token) (st : state_) :
  (forall name cs, Grammar_BlockSyntax g name = Some cs -> IsBlockStart cs = false ->
     RequiresParent cs = true /\ (IsClause cs = true \/ IsBlockEnd cs = true)) ->
  open_blocks (List.length (blocks (mem st))) (stack st) (bn st) ->
  (sd st = None <-> bn st = None) ->
  Forall (fun f => frame_syntax f = None <-> frame_node f = None) (stack st) ->
  (exists st', run_ g tokens st = Next st'
               /\ open_blocks (List.length (blocks (mem st'))) (stack st') (bn st'))
  \/ (exists e, run_ g tokens st = Return None (Some e)).
Proof.
  intros Hg. revert st. induction tokens as [|tok tokens IH]; intros st Ho Hsd Hfr.
  - left. now exists st.
  - cbn [run]. destruct (step_ g st tok) as [st1|node err|what] eqn:Hs.
    + destruct (step_syntax_with_node g st st1 tok Hsd Hfr Hs) as [Hsd1 Hfr1].
      apply IH; try assumption.
      now apply (step_open_blocks expressions_Parse quoteEscaped g st st1 tok).
    + right. clear IH. turn_cases Hs; injection Hs as <- <-; now eexists.
    + now destruct (step_no_panic g st tok what Hg Ho Hsd).
Qed.

(** X6: with a grammar in which every syntax that is not a block start
    requires a parent and is a clause or a block end, [parseTokens] never
    panics: for every token stream it returns a tree and no error, or an
    error and no tree. *)
Theorem X6_parse_never_panics (c : Config (G := G)) (tokens : list Token) :
  (forall name cs, Grammar_BlockSyntax (Config_Grammar c) name = Some cs ->
     IsBlockStart cs = false ->
     RequiresParent cs = true /\ (IsClause cs = true \/ IsBlockEnd cs = true)) ->
  (exists t, parseTokens_ c tokens = Return (Some t) None)
  \/ (exists e, parseTokens_ c tokens = Return None (Some e)).
Proof.
  intros Hg. unfold parseTokens.
  destruct (run_no_panic (Config_Grammar c) tokens initial Hg) as [(st & -> & Ho)|[e ->]];
    try (now constructor); try (cbn; tauto).
  - unfold finish. destruct (bn st) as [b|] eqn:Eb; [|left; now eexists].
    apply open_blocks_current in Ho.
    destruct (lookup_lt_is_Some_2 _ _ Ho) as [blk ->]. right. now eexists.
  - right. now eexists.
Qed.


(** *** Blocks with clauses *)

Local Abbreviation clause_tree_ := (clause_tree (BS := BS) (G := G) expressions_Parse).

Lemma leaf_tree_of (g : G) (tok : Token) (n : ASTNode Expression)
    (rs : list ASTRaw) (first : nat) (later : list (AST BS Expression)) :
  leaf_ g tok = Some n -> tree_of rs first later n = leaf_tree n.
Proof.
  unfold leaf. destruct (TokType tok).
  - now intros [= <-].
  - destruct (Grammar_BlockSyntax g (Name tok)); [discriminate|]. now intros [= <-].
  - destruct (expressions_Parse (Args tok)); [|discriminate]. now intros [= <-].
Qed.

Lemma leaves_tree_of (g : G) (tokens : list Token) (refs : list (ASTNode Expression))
    (rs : list ASTRaw) (first : nat) (later : list (AST BS Expression)) :
  leaves_ g tokens = Some refs ->
  tree_of rs first later <$> refs = leaf_tree <$> refs.
Proof.
  revert refs. induction tokens as [|tok tokens IH]; intros refs Hl.
  - now injection Hl as <-.
  - destruct (leaves_cons g tok tokens refs Hl) as (n & rest & Hn & Hrest & ->).
    cbn. now rewrite (leaf_tree_of g tok n rs first later Hn), (IH rest Hrest).
Qed.

Lemma step_opens (g : G) (st : state_) (tok : Token) (cs : BS) :
  inComment st = false -> inRaw st = false ->
  opens g tok cs ->
  step_ g st tok = Next (block_start tok cs st).
Proof.
  intros Hc Hr (Hty & Hg & Hnc & Hnr & Hreq & Hstart).
  unfold step. rewrite Hc, Hr, Hty, Hg.
  apply String.eqb_neq in Hnc, Hnr. now rewrite Hnc, Hnr, Hreq, Hstart.
Qed.

Lemma step_clause_in (g : G) (st : state_) (tok : Token) (cs cc : BS) (b : nat) :
  inComment st = false -> inRaw st = false ->
  sd st = Some cs -> bn st = Some b ->
  clause_in g cs tok cc ->
  step_ g st tok
  = Next (set_ap (BodyOf (List.length (blocks (mem st))))
            (set_mem (append_clause_at b (List.length (blocks (mem st)))
                        (alloc_block {| ASTBlock_Token := tok; syntax := cc;
                                        Body := []; Clauses := [] |} (mem st)).2)
               st)).
Proof.
  intros Hc Hr Hsd Hbn (Hty & Hg & Hnc & Hnr & Hcan & Hstart & Hcl).
  unfold step. rewrite Hc, Hr, Hty, Hg.
  apply String.eqb_neq in Hnc, Hnr. rewrite Hnc, Hnr, Hsd, Hcan, Hstart, Hcl.
  rewrite andb_false_r. unfold clause. cbn. now rewrite Hbn.
Qed.

Lemma step_closes (g : G) (st : state_) (tok : Token) (cs ce : BS)
    (stk : list frame) (f : frame) :
  inComment st = false -> inRaw st = false ->
  sd st = Some cs -> stack st = stk ++ [f] ->
  closes g cs tok ce ->
  step_ g st tok
  = Next {| mem := mem st; ap := frame_ap f; sd := frame_syntax f; bn := frame_node f;
            stack := stk; rawTag := rawTag st; inComment := inComment st;
            inRaw := inRaw st |}.
Proof.
  intros Hc Hr Hsd Hstk (Hty & Hg & Hnc & Hnr & Hcan & Hstart & Hcl & Hend).
  unfold step. rewrite Hc, Hr, Hty, Hg.
  apply String.eqb_neq in Hnc, Hnr. rewrite Hnc, Hnr, Hsd, Hcan, Hstart, Hcl, Hend.
  rewrite andb_false_r. unfold block_end. rewrite Hstk, last_snoc, removelast_last.
  now rewrite Hc, Hr.
Qed.


(** One clause and its leaves, read inside an open block at address 0:
    a new block is made for the clause after the blocks there are, its
    address goes to the clauses of the open block, and the leaves go to
    its body. *)
Lemma run_one_clause (g : G) (tok : Token) (body : list Token)
    (refs : list (ASTNode Expression)) (cs cc : BS)
    (R : ASTSeq) (t0 : Token) (rb : list (ASTNode Expression)) (cl : list nat)
    (Cs : list (ASTBlock BS Expression)) (rs : list ASTRaw)
    (p : appendPtr) (stk : list frame) (rt : option nat) :
  clause_in g cs tok cc ->
  leaves_ g body = Some refs ->
  run_ g (tok :: body)
    {| mem := {| root := R;
                 blocks := {| ASTBlock_Token := t0; syntax := cs; Body := rb;
                              Clauses := cl |} :: Cs;
                 raws := rs |};
       ap := p; sd := Some cs; bn := Some 0%nat; stack := stk; rawTag := rt;
       inComment := false; inRaw := false |}
  = Next
      {| mem := {| root := R;
                   blocks := {| ASTBlock_Token := t0; syntax := cs; Body := rb;
                                Clauses := cl ++ [S (List.length Cs)] |}
                             :: Cs ++ [{| ASTBlock_Token := tok; syntax := cc;
                                          Body := refs; Clauses := [] |}];
                   raws := rs |};
         ap := BodyOf (S (List.length Cs)); sd := Some cs; bn := Some 0%nat;
         stack := stk; rawTag := rt; inComment := false; inRaw := false |}.
Proof.
  intros Hcl Hl. cbn [run].
  rewrite step_clause_in with (cs := cs) (cc := cc) (b := 0%nat);
    [| reflexivity | reflexivity | reflexivity | reflexivity | exact Hcl].
  rewrite run_leaves with (refs := refs); [| reflexivity | reflexivity | exact Hl].
  cbn [ap set_ap set_mem mem]. rewrite foldl_append_body. cbn.
  unfold set_mem, set_ap; cbn. do 4 f_equal.
  replace (List.length Cs) with (List.length Cs + 0)%nat at 1 by lia.
  now rewrite alter_app_r.
Qed.

Lemma run_clause_parts (g : G) (cs : BS) (parts : list clause_part)
    (refss : list (list (ASTNode Expression))) :
  Forall2 (fun (part : clause_part) refs =>
             clause_in g cs part.1.1 part.1.2 /\ leaves_ g part.2 = Some refs)
          parts refss ->
  forall (R : ASTSeq) (t0 : Token) (rb : list (ASTNode Expression)) (cl : list nat)
         (Cs : list (ASTBlock BS Expression)) (rs : list ASTRaw)
         (p : appendPtr) (stk : list frame) (rt : option nat),
  exists p' : appendPtr,
  run_ g (clause_tokens parts)
    {| mem := {| root := R;
                 blocks := {| ASTBlock_Token := t0; syntax := cs; Body := rb;
                              Clauses := cl |} :: Cs;
                 raws := rs |};
       ap := p; sd := Some cs; bn := Some 0%nat; stack := stk; rawTag := rt;
       inComment := false; inRaw := false |}
  = Next
      {| mem := {| root := R;
                   blocks := {| ASTBlock_Token := t0; syntax := cs; Body := rb;
                                Clauses := cl ++ seq (S (List.length Cs)) (List.length parts) |}
                             :: Cs ++ zip_with
                                        (fun (part : clause_part) refs =>
                                           {| ASTBlock_Token := part.1.1; syntax := part.1.2;
                                              Body := refs; Clauses := [] |})
                                        parts refss;
                   raws := rs |};
         ap := p'; sd := Some cs; bn := Some 0%nat;
         stack := stk; rawTag := rt; inComment := false; inRaw := false |}.
Proof.
  induction 1 as [|[[tok cc] body] refs parts refss [Hcl Hl] _ IH];
    intros R t0 rb cl Cs rs p stk rt.
  - exists p. cbn. now rewrite !app_nil_r.
  - cbn [clause_tokens fmap list_fmap List.concat fst snd].
    change (tok :: body) with ([tok] ++ body). rewrite <- app_assoc.
    change ([tok] ++ body ++ ?l) with ((tok :: body) ++ l).
    destruct (IH R t0 rb (cl ++ [S (List.length Cs)])
                (Cs ++ [{| ASTBlock_Token := tok; syntax := cc; Body := refs;
                           Clauses := [] |}]) rs
                (BodyOf (S (List.length Cs))) stk rt) as [p' Hrun].
    exists p'.
    rewrite (run_app_Next _ _ g (tok :: body) _ _ _
               (run_one_clause g tok body refs cs cc R t0 rb cl Cs rs p stk rt Hcl Hl)).
    unfold clause_tokens in Hrun. rewrite Hrun. cbn.
    rewrite length_app, <- !app_assoc. cbn.
    now rewrite Nat.add_1_r.
Qed.


Lemma trees_from_clauses (g : G) (cs : BS) (parts : list clause_part)
    (refss : list (list (ASTNode Expression))) (rs : list ASTRaw) :
  Forall2 (fun (part : clause_part) refs =>
             clause_in g cs part.1.1 part.1.2 /\ leaves_ g part.2 = Some refs)
          parts refss ->
  forall first : nat,
  trees_from rs first
    (zip_with (fun (part : clause_part) refs =>
                 {| ASTBlock_Token := part.1.1; syntax := part.1.2;
                    Body := refs; Clauses := [] |}) parts refss)
  = zip_with (fun (part : clause_part) refs =>
                Block part.1.1 part.1.2 (leaf_tree <$> refs) []) parts refss.
Proof.
  induction 1 as [|part refs parts refss [_ Hl] _ IH]; intros first; [reflexivity|].
  cbn. rewrite IH. now rewrite (leaves_tree_of g part.2 refs rs _ _ Hl).
Qed.

Lemma block_refs_of_later (rs : list ASTRaw) (first : nat)
    (later : list (AST BS Expression)) :
  tree_of rs first later <$> (BlockRef <$> seq first (List.length later)) = later.
Proof.
  apply list_eq. intros i. rewrite !list_lookup_fmap.
  destruct (decide (i < List.length later)%nat) as [Hi|Hi].
  - rewrite lookup_seq_lt by assumption. cbn.
    replace (first <=? first + i)%nat with true by (symmetry; apply Nat.leb_le; lia).
    replace (first + i - first)%nat with i by lia.
    destruct (lookup_lt_is_Some_2 later i Hi) as [t ->]. reflexivity.
  - rewrite lookup_seq_ge by lia. cbn. symmetry. apply lookup_ge_None. lia.
Qed.

Lemma clause_trees_refs (g : G) (cs : BS) (parts : list clause_part)
    (ctrees : list (AST BS Expression)) :
  Forall (fun part : clause_part => clause_in g cs part.1.1 part.1.2) parts ->
  mapM (clause_tree_ g) parts = Some ctrees ->
  exists refss,
    Forall2 (fun (part : clause_part) refs =>
               clause_in g cs part.1.1 part.1.2 /\ leaves_ g part.2 = Some refs)
            parts refss
    /\ ctrees = zip_with (fun (part : clause_part) refs =>
                            Block part.1.1 part.1.2 (leaf_tree <$> refs) []) parts refss.
Proof.
  intros Hcl. revert ctrees. induction Hcl as [|part parts Hp _ IH]; intros ctrees Hm.
  - cbn in Hm. injection Hm as <-. exists []. split; [constructor | reflexivity].
  - change (mapM (clause_tree_ g) (part :: parts))
      with (t ← clause_tree_ g part; k ← mapM (clause_tree_ g) parts; mret (t :: k)) in Hm.
    destruct (clause_tree_ g part) as [t|] eqn:Hct; [|discriminate].
    destruct (mapM (clause_tree_ g) parts) as [rest|] eqn:Hrest; [|discriminate].
    injection Hm as <-. destruct (IH rest eq_refl) as (refss & HF & ->).
    unfold clause_tree in Hct.
    destruct (leaves_ g part.2) as [refs|] eqn:Hl; [|discriminate].
    injection Hct as <-.
    exists (refs :: refss). split; [constructor; [split|]; assumption | reflexivity].
Qed.

(** X7: a block with its clauses.  After leaves, a tag that starts a
    block, the leaves of its body, any number of clauses of that block
    each followed by leaves, the end tag of the block and more leaves
    parse to the nodes of the first leaves, one Block node, and the nodes
    of the last leaves: the Block node has the start tag for token, the
    nodes of the body for body, and one block for each clause, in order,
    holding the nodes of the leaves that follow the clause. *)
Theorem X7_block_with_clauses
    (c : Config (G := G)) (pre body post : list Token)
    (rp rb rq : list (ASTNode Expression)) (open close : Token) (cs ce : BS)
    (parts : list clause_part) (ctrees : list (AST BS Expression)) :
  leaves_ (Config_Grammar c) pre = Some rp ->
  leaves_ (Config_Grammar c) body = Some rb ->
  leaves_ (Config_Grammar c) post = Some rq ->
  opens (Config_Grammar c) open cs ->
  Forall (fun part : clause_part => clause_in (Config_Grammar c) cs part.1.1 part.1.2)
         parts ->
  mapM (clause_tree_ (Config_Grammar c)) parts = Some ctrees ->
  closes (Config_Grammar c) cs close ce ->
  parseTokens_ c (pre ++ open :: body ++ clause_tokens parts ++ close :: post)
  = Return
      (Some (Seq ((leaf_tree <$> rp)
                  ++ Block open cs (leaf_tree <$> rb) ctrees
                  :: (leaf_tree <$> rq))))
      None.
Proof.
  intros Hpre Hbody Hpost Hopen Hparts Htrees Hclose.
  destruct (clause_trees_refs _ cs parts ctrees Hparts Htrees) as (refss & HF & ->).
  set (g := Config_Grammar c) in *.
  unfold parseTokens. fold g.
  (* the leaves before the block *)
  rewrite (run_app_Next _ _ g pre _ _ _ (run_leaves g pre rp initial eq_refl eq_refl Hpre)).
  cbn [ap initial]. rewrite foldl_append_root. cbn [run].
  (* the start tag *)
  rewrite step_opens with (cs := cs); [| reflexivity | reflexivity | exact Hopen].
  unfold block_start, alloc_block, set_mem. cbn.
  (* the body *)
  rewrite run_app. rewrite run_leaves with (refs := rb);
    [| reflexivity | reflexivity | exact Hbody].
  cbn [ap set_mem mem]. rewrite foldl_append_body. cbn.
  (* the clauses *)
  rewrite run_app.
  destruct (run_clause_parts g cs parts refss HF
              {| Children := rp ++ [BlockRef 0] |} open rb [] [] []
              (BodyOf 0) [{| frame_syntax := None; frame_node := None;
                            frame_ap := RootChildren |}] None) as [p' Hrun].
  unfold set_mem; cbn. rewrite Hrun. cbn [run].
  (* the end tag *)
  rewrite step_closes with (cs := cs) (ce := ce) (stk := [])
                           (f := {| frame_syntax := None; frame_node := None;
                                    frame_ap := RootChildren |});
    [| reflexivity | reflexivity | reflexivity | reflexivity | exact Hclose].
  cbn.
  (* the leaves after the block *)
  rewrite run_leaves with (refs := rq); [| reflexivity | reflexivity | exact Hpost].
  cbn [ap set_mem mem]. rewrite foldl_append_root. unfold finish, tree. cbn.
  rewrite (trees_from_clauses g cs parts refss [] HF 1).
  do 3 f_equal. rewrite <- app_assoc. cbn. rewrite !fmap_app. cbn.
  rewrite (leaves_tree_of g pre rp _ _ _ Hpre), (leaves_tree_of g post rq _ _ _ Hpost).
  do 2 f_equal. rewrite (leaves_tree_of g body rb _ _ _ Hbody). f_equal.
  set (later := zip_with _ parts refss).
  assert (Hlen : List.length parts = List.length later).
  { unfold later. rewrite length_zip_with. apply Forall2_length in HF. lia. }
  rewrite Hlen. apply (block_refs_of_later [] 1 later).
Qed.

End ParserMore.

(** ** Tags the grammar does not register *)

Section UnregisteredTags.

Import Parser Render Streams.
Local Open Scope list_scope.

Context {BS G Expression ExprError RenderFn : Type}.
Context `{!BlockSyntax BS} `{!Grammar G BS}.
Variable expressions_Parse : string -> Expression + ExprError.
Variable quoteEscaped : string -> string.
Variable tagCompilers : gmap string (string -> RenderFn + string).
Variable blockCompilers :
  gmap string (Token -> list (@Node Expression RenderFn)
               -> list (@Node Expression RenderFn) -> RenderFn + string).

Local Abbreviation state_ := (@state BS Expression).
Local Abbreviation step_ := (step (G:=G) expressions_Parse quoteEscaped).
Local Abbreviation run_ := (run (G:=G) expressions_Parse quoteEscaped).
Local Abbreviation parseTokens_ := (parseTokens (G:=G) expressions_Parse quoteEscaped).
Local Abbreviation leaf_ := (leaf (BS := BS) (G := G) expressions_Parse).
Local Abbreviation leaves_ := (leaves (BS := BS) (G := G) expressions_Parse).
Local Abbreviation compileNode_ :=
  (compileNode (BS := BS) (ExprError := ExprError) quoteEscaped
     tagCompilers blockCompilers).
Local Abbreviation compileNodes_ := (compileNodes_with compileNode_).
Local Abbreviation has_undefined_tag_ :=
  (has_undefined_tag (BS := BS) (Expression := Expression) (RenderFn := RenderFn)
     tagCompilers).
Local Abbreviation undefined_tag_ :=
  (undefined_tag (ExprError := ExprError) quoteEscaped).

Lemma leaves_app (g : G) (a b : list Token) (ra rb : list (ASTNode Expression)) :
  leaves_ g a = Some ra -> leaves_ g b = Some rb ->
  leaves_ g (a ++ b) = Some (ra ++ rb).
Proof.
  intros Ha Hb. revert ra Ha. induction a as [|tok a IH]; intros ra Ha.
  - injection Ha as <-. exact Hb.
  - destruct (leaves_cons _ g tok a ra Ha) as (n & rest & Hn & Hrest & ->).
    specialize (IH rest Hrest). unfold leaves in *.
    change (mapM (leaf_ g) ((tok :: a) ++ b))
      with (x ← leaf_ g tok; k ← mapM (leaf_ g) (a ++ b); mret (x :: k)).
    rewrite Hn, IH. reflexivity.
Qed.

Lemma leaves_around_tag (g : G) (tok : Token) (a b : list Token)
    (ra rb : list (ASTNode Expression)) :
  TokType tok = TagTokenType ->
  Grammar_BlockSyntax g (Name tok) = None ->
  leaves_ g a = Some ra -> leaves_ g b = Some rb ->
  leaves_ g (a ++ tok :: b) = Some (ra ++ TagRef {| ASTTag_Token := tok |} :: rb).
Proof.
  intros Hty Hg Ha Hb. apply leaves_app; [exact Ha|].
  change (tok :: b) with ([tok] ++ b).
  apply (leaves_app g [tok] b [TagRef {| ASTTag_Token := tok |}] rb); [|exact Hb].
  unfold leaves, leaf. cbn. now rewrite Hty, Hg.
Qed.

(** A tag node appended to the body of the block at an address shows at
    the end of the body of the tree at this address. *)
Lemma trees_from_append_tag (rs : list ASTRaw) (t : ASTTag)
    (bs : list (ASTBlock BS Expression)) :
  forall (first a : nat) (tb : Token) (sb : BS) (body cl : list (AST BS Expression)),
    trees_from rs first bs !! a = Some (Block tb sb body cl) ->
    trees_from rs first (alter (append_Body (TagRef t)) a bs) !! a
    = Some (Block tb sb (body ++ [Tag (ASTTag_Token t)]) cl).
Proof.
  induction bs as [|b bs IH]; intros first a tb sb body cl Hl; [discriminate|].
  destruct a as [|a].
  - cbn in Hl |- *. injection Hl as <- <- <- <-.
    now rewrite fmap_app.
  - cbn in Hl |- *. now apply IH.
Qed.

(** The first error in a list of nodes is the error of the list. *)
Lemma compileNodes_first_error (l1 : list (AST BS Expression))
    (l1' : list (@Node Expression RenderFn)) (x : AST BS Expression)
    (e : Error ExprError) (l2 : list (AST BS Expression)) :
  compileNodes_ l1 = inl l1' -> compileNode_ x = inr e ->
  compileNodes_ (l1 ++ x :: l2) = inr e.
Proof.
  intros H1 Hx. revert l1' H1. induction l1 as [|y l1 IH]; intros l1' H1.
  - cbn. now rewrite Hx.
  - cbn in H1 |- *. destruct (compileNode_ y) as [y'|]; [|discriminate].
    destruct (compileNodes_with compileNode_ l1) as [k|] eqn:Hk; [|discriminate].
    now rewrite (IH k eq_refl).
Qed.

Lemma compileNode_Seq (children : list (AST BS Expression)) :
  compileNode_ (Seq children)
  = match compileNodes_ children with
    | inr e => inr e
    | inl cs => inl (SeqNode cs)
    end.
Proof. reflexivity. Qed.

Lemma compileNode_Block_body_error (tok : Token) (syn : BS)
    (body clauses : list (AST BS Expression)) (e : Error ExprError) :
  compileNodes_ body = inr e ->
  compileNode_ (Block tok syn body clauses) = inr e.
Proof.
  intros Hb. change (compileNode_ (Block tok syn body clauses))
    with (match compileNodes_ body with
          | inr e => inr e
          | inl body' =>
              match compileNodes_ clauses with
              | inr e => inr e
              | inl clauses' =>
                  match blockCompilers !! Name tok with
                  | None => inr (undefined_tag_ tok)
                  | Some compiler =>
                      match compiler tok body' clauses' with
                      | inr msg => inr (Errorf tok msg)
                      | inl f => inl (BlockNode tok body' clauses' f)
                      end
                  end
              end
          end).
  now rewrite Hb.
Qed.

Lemma existsb_around {A : Type} (f : A -> bool) (l1 l2 : list A) (x : A) :
  f x = true -> existsb f (l1 ++ x :: l2) = true.
Proof.
  intros Hx. rewrite existsb_app. cbn. rewrite Hx. apply orb_true_r.
Qed.

(** The leaves of a body between the start tag and the end tag of a
    block, with leaves before and after the block. *)
Lemma parse_block_of_leaves (c : Config (G := G)) (pre body post : list Token)
    (rp rb rq : list (ASTNode Expression)) (open close : Token) (cs ce : BS) :
  leaves_ (Config_Grammar c) pre = Some rp ->
  leaves_ (Config_Grammar c) body = Some rb ->
  leaves_ (Config_Grammar c) post = Some rq ->
  opens (Config_Grammar c) open cs ->
  closes (Config_Grammar c) cs close ce ->
  parseTokens_ c (pre ++ open :: body ++ close :: post)
  = Return
      (Some (Seq ((leaf_tree <$> rp)
                  ++ Block open cs (leaf_tree <$> rb) []
                  :: (leaf_tree <$> rq))))
      None.
Proof.
  intros Hpre Hbody Hpost Hopen Hclose.
  set (g := Config_Grammar c) in *.
  unfold parseTokens. fold g.
  rewrite (run_app_Next _ _ g pre _ _ _
             (run_leaves _ _ g pre rp initial eq_refl eq_refl Hpre)).
  cbn [ap initial]. rewrite foldl_append_root. cbn [run].
  rewrite step_opens with (cs := cs); [| reflexivity | reflexivity | exact Hopen].
  unfold block_start, alloc_block, set_mem. cbn.
  rewrite run_app. rewrite run_leaves with (refs := rb);
    [| reflexivity | reflexivity | exact Hbody].
  cbn [ap set_mem mem]. rewrite foldl_append_body. cbn [run].
  rewrite step_closes with (cs := cs) (ce := ce) (stk := [])
                           (f := {| frame_syntax := None; frame_node := None;
                                    frame_ap := RootChildren |});
    [| reflexivity | reflexivity | reflexivity | reflexivity | exact Hclose].
  cbn.
  rewrite run_leaves with (refs := rq); [| reflexivity | reflexivity | exact Hpost].
  cbn [ap set_mem mem]. rewrite foldl_append_root. unfold finish, tree. cbn.
  do 3 f_equal. rewrite <- app_assoc. cbn. rewrite !fmap_app. cbn.
  rewrite (leaves_tree_of _ g pre rp _ _ _ Hpre),
    (leaves_tree_of _ g post rq _ _ _ Hpost).
  do 2 f_equal. now rewrite (leaves_tree_of _ g body rb _ _ _ Hbody).
Qed.

(** C4: a tag token whose name the grammar does not register, met
    outside a comment or raw region, is no error for the parser, which
    appends one plain Tag node at the insertion point: at the end of the
    root sequence, or at the end of the body of the block the insertion
    point is in.  So such a tag among texts, objects and other
    unregistered tags, at the root or in the body of a block, parses to a
    Tag node at its place in the tree.  The name is looked up when the
    tree is compiled: if no tag compiler is registered under it, every
    tree that holds the node fails to compile, no compiled tree being
    returned, and the error is the "undefined tag" error of the tag where
    what stands before it compiles. *)
Theorem C4_unregistered_tag (c : Config (G := G)) (tok : Token) :
  TokType tok = TagTokenType ->
  Grammar_BlockSyntax (Config_Grammar c) (Name tok) = None ->
  tagCompilers !! Name tok = None ->
  (forall st : state_,
      inComment st = false -> inRaw st = false ->
      exists h' : heap BS Expression,
        step_ (Config_Grammar c) st tok = Next (set_mem h' st)
        /\ raws h' = raws (mem st)
        /\ List.length (blocks h') = List.length (blocks (mem st))
        /\ match ap st with
           | RootChildren =>
               forall old : list (AST BS Expression),
                 tree (mem st) = Seq old -> tree h' = Seq (old ++ [Tag tok])
           | BodyOf a =>
               root h' = root (mem st)
               /\ forall (tb : Token) (sb : BS) (body cl : list (AST BS Expression)),
                   trees_from (raws (mem st)) 0 (blocks (mem st)) !! a
                   = Some (Block tb sb body cl) ->
                   trees_from (raws h') 0 (blocks h') !! a
                   = Some (Block tb sb (body ++ [Tag tok]) cl)
           end)
  /\ (forall (pre post : list Token) (rp rq : list (ASTNode Expression)),
        leaves_ (Config_Grammar c) pre = Some rp ->
        leaves_ (Config_Grammar c) post = Some rq ->
        let t := Seq ((leaf_tree <$> rp) ++ Tag tok :: (leaf_tree <$> rq)) in
        parseTokens_ c (pre ++ tok :: post) = Return (Some t) None
        /\ (exists e : Error ExprError, compileNode_ t = inr e)
        /\ (forall rp' : list (@Node Expression RenderFn),
              compileNodes_ (leaf_tree <$> rp) = inl rp' ->
              compileNode_ t = inr (undefined_tag_ tok)))
  /\ (forall (pre body1 body2 post : list Token)
             (rp rb1 rb2 rq : list (ASTNode Expression))
             (open close : Token) (cs ce : BS),
        leaves_ (Config_Grammar c) pre = Some rp ->
        leaves_ (Config_Grammar c) body1 = Some rb1 ->
        leaves_ (Config_Grammar c) body2 = Some rb2 ->
        leaves_ (Config_Grammar c) post = Some rq ->
        opens (Config_Grammar c) open cs ->
        closes (Config_Grammar c) cs close ce ->
        let t := Seq ((leaf_tree <$> rp)
                      ++ Block open cs
                           ((leaf_tree <$> rb1) ++ Tag tok :: (leaf_tree <$> rb2)) []
                      :: (leaf_tree <$> rq)) in
        parseTokens_ c (pre ++ open :: (body1 ++ tok :: body2) ++ close :: post)
        = Return (Some t) None
        /\ (exists e : Error ExprError, compileNode_ t = inr e)
        /\ (forall (rp' rb1' : list (@Node Expression RenderFn)),
              compileNodes_ (leaf_tree <$> rp) = inl rp' ->
              compileNodes_ (leaf_tree <$> rb1) = inl rb1' ->
              compileNode_ t = inr (undefined_tag_ tok)))
  /\ undefined_tag_ tok
     = Errorf tok ("undefined tag " ++ GoFmt.Quote quoteEscaped (Name tok))%string
  /\ GoFmt.Contains ("undefined tag " ++ GoFmt.Quote quoteEscaped (Name tok))%string
       "undefined tag" = true
  /\ (forall t : AST BS Expression,
        has_undefined_tag_ t = true -> exists e, compileNode_ t = inr e).
Proof.
  intros Hty Hg Ht.
  assert (Htag : compileNode_ (Tag tok) = inr (undefined_tag_ tok))
    by (cbn; now rewrite Ht).
  assert (Hund : has_undefined_tag_ (Tag tok) = true) by (cbn; now rewrite Ht).
  split; [|split; [|split; [|split; [|split]]]].
  - intros st Hc Hr.
    exists (append_at (ap st) (TagRef {| ASTTag_Token := tok |}) (mem st)).
    split; [now apply step_unregistered_tag|].
    destruct (ap st) as [|a]; cbn [append_at raws blocks root].
    + split; [reflexivity|]. split; [reflexivity|].
      intros old Hold. unfold tree in *. cbn [raws blocks root Children].
      injection Hold as <-. now rewrite fmap_app.
    + split; [reflexivity|]. split; [apply length_alter|].
      split; [reflexivity|].
      intros tb sb body cl Hl.
      now apply (trees_from_append_tag _ {| ASTTag_Token := tok |}).
  - intros pre post rp rq Hpre Hpost t.
    pose proof (leaves_around_tag _ tok pre post rp rq Hty Hg Hpre Hpost) as Hl.
    assert (Hparse : parseTokens_ c (pre ++ tok :: post) = Return (Some t) None).
    { unfold parseTokens.
      rewrite run_leaves with (refs := rp ++ TagRef {| ASTTag_Token := tok |} :: rq);
        [| reflexivity | reflexivity | exact Hl].
      cbn [ap initial]. rewrite foldl_append_root. unfold finish, tree. cbn.
      do 3 f_equal.
      rewrite (leaves_tree_of _ _ _ _ [] 0 [] Hl).
      now rewrite fmap_app. }
    split; [exact Hparse|]. split.
    + apply (compile_undefined_tag_fails quoteEscaped tagCompilers blockCompilers).
      cbn. now apply existsb_around.
    + intros rp' Hrp. unfold t. rewrite compileNode_Seq.
      now rewrite (compileNodes_first_error _ rp' (Tag tok) (undefined_tag_ tok) _ Hrp Htag).
  - intros pre body1 body2 post rp rb1 rb2 rq open close cs ce
           Hpre Hb1 Hb2 Hpost Hopen Hclose t.
    pose proof (leaves_around_tag _ tok body1 body2 rb1 rb2 Hty Hg Hb1 Hb2) as Hl.
    split; [|split].
    + rewrite (parse_block_of_leaves c pre (body1 ++ tok :: body2) post rp _ rq
                 open close cs ce Hpre Hl Hpost Hopen Hclose).
      unfold t. now rewrite fmap_app.
    + apply (compile_undefined_tag_fails quoteEscaped tagCompilers blockCompilers).
      cbn [has_undefined_tag]. apply existsb_around. cbn [has_undefined_tag].
      rewrite existsb_around; [reflexivity | exact Hund].
    + intros rp' rb1' Hrp Hrb1. unfold t. rewrite compileNode_Seq.
      rewrite (compileNodes_first_error _ rp' _ (undefined_tag_ tok) _ Hrp);
        [reflexivity|].
      apply compileNode_Block_body_error.
      exact (compileNodes_first_error _ rb1' (Tag tok) (undefined_tag_ tok) _
               Hrb1 Htag).
  - reflexivity.
  - apply (Contains_prefix "undefined tag").
  - apply compile_undefined_tag_fails.
Qed.

End UnregisteredTags.

(** ** The standard filters: arrays *)

Section ArrayFilters.

Import Values ValuesMore Filters.
Local Open Scope list_scope.

Lemma copy_make (n : nat) (a : list Value) :
  (List.length a <= n)%nat ->
  copy (make n) a = a ++ make (n - List.length a).
Proof.
  intros Hn. unfold copy, make. rewrite length_replicate.
  rewrite take_ge by lia. now rewrite drop_replicate.
Qed.

Lemma filter_make (n : nat) :
  List.filter (fun v => negb (isNil v)) (make n) = [].
Proof. induction n as [|n IH]; [reflexivity|exact IH]. Qed.

Lemma concat_eq (a b : list Value) :
  Filters.concat a b = a ++ replicate (List.length b) VNil ++ b.
Proof.
  unfold Filters.concat. rewrite copy_make by lia.
  unfold make. rewrite <- app_assoc. do 3 f_equal. lia.
Qed.

(** X8: [concat] does not give the items of [a] followed by those of
    [b]: between them stand as many nil items as [b] has items, since
    the slice appended to was made with the length of both; its
    [Length], the size filter, counts the items of [b] twice. *)
Theorem X8_concat_pads_with_nil (a b : list Value) :
  Filters.concat a b = a ++ replicate (List.length b) VNil ++ b
  /\ Length (VSlice (Filters.concat a b))
     = (Length (VSlice a) + 2 * Length (VSlice b))%Z.
Proof.
  split; [apply concat_eq|].
  unfold Length. cbn [ToLiquid].
  rewrite concat_eq, !length_app, length_replicate. lia.
Qed.

(** X9: joined, the result of [concat] reads as the items of [a]
    followed by those of [b]: [joinFilter] passes over the nil items
    that [concat] leaves in the middle. *)
Theorem X9_join_of_concat (Sprint : Value -> string) (a b : list Value)
    (sep : string -> string) :
  joinFilter Sprint (Filters.concat a b) sep = joinFilter Sprint (a ++ b) sep.
Proof.
  unfold joinFilter. rewrite concat_eq, !List.filter_app.
  fold (make (List.length b)). rewrite filter_make. reflexivity.
Qed.

Lemma reverse_loop (a done : list Value) :
  foldl (fun result ix => <[(List.length result - 1 - ix.1)%nat := ix.2]> result)
        (make (List.length a) ++ done)
        (imap (fun i x => ((List.length done + i)%nat, x)) a)
  = reverse a ++ done.
Proof.
  revert done. induction a as [|x a IH]; intros done; [reflexivity|].
  rewrite imap_cons. cbn [foldl fst snd].
  replace (List.length (make (List.length (x :: a)) ++ done) - 1
           - (List.length done + 0))%nat with (List.length (make (List.length a)) + 0)%nat
    by (rewrite length_app; unfold make; rewrite !length_replicate; cbn; lia).
  replace (make (List.length (x :: a))) with (make (List.length a) ++ [VNil])
    by (unfold make; cbn [List.length]; now rewrite replicate_S_end).
  rewrite <- app_assoc. rewrite insert_app_r. cbn [insert list_insert app].
  rewrite reverse_cons, <- app_assoc. cbn [app].
  rewrite <- (IH (x :: done)). f_equal.
  apply imap_ext. intros i y _. cbn. f_equal. lia.
Qed.

Lemma reverseFilter_reverse (a : list Value) : reverseFilter a = reverse a.
Proof.
  unfold reverseFilter.
  pose proof (reverse_loop a []) as E. rewrite !app_nil_r in E.
  rewrite <- E. f_equal.
Qed.

(** X10: [reverseFilter], which writes each item at the mirrored index
    of a new slice, gives the items in the opposite order, and applied
    twice gives the slice back. *)
Theorem X10_reverse_mirrors (a : list Value) :
  reverseFilter a = reverse a
  /\ reverseFilter (reverseFilter a) = a.
Proof.
  split; [apply reverseFilter_reverse|].
  rewrite !reverseFilter_reverse. apply reverse_involutive.
Qed.

Lemma last_lookup_ (a : list Value) :
  Filters.last a = default VNil (list.last a).
Proof.
  unfold Filters.last. rewrite last_lookup.
  destruct a as [|x a]; [reflexivity|].
  cbn [List.length Nat.eqb]. do 2 f_equal. cbn. lia.
Qed.

Lemma first_head (a : list Value) : first a = default VNil (head a).
Proof. now destruct a. Qed.

(** X11: [first] gives the first item of a slice and [last] its last
    item, and both give nil for the empty slice; so the first item of a
    reversed slice is the last item of the slice, and its last item the
    first: nil for the empty slice, and for a slice that ends with [x]
    reversed, [x] comes first, for one that begins with [x], last. *)
Theorem X11_first_last_of_reverse (a : list Value) (x : Value) :
  first (reverseFilter a) = Filters.last a
  /\ Filters.last (reverseFilter a) = first a
  /\ first [] = VNil /\ Filters.last [] = VNil
  /\ first (reverseFilter []) = VNil /\ Filters.last (reverseFilter []) = VNil
  /\ first (x :: a) = x /\ Filters.last (a ++ [x]) = x
  /\ first (reverseFilter (a ++ [x])) = x
  /\ Filters.last (reverseFilter (x :: a)) = x.
Proof.
  rewrite !reverseFilter_reverse, !last_lookup_, !first_head.
  rewrite head_reverse, last_reverse, reverse_snoc, reverse_cons.
  rewrite !last_snoc. repeat split; reflexivity.
Qed.

Lemma filter_not_nil_spec (l : list Value) :
  let r := List.filter (fun v => negb (isNil v)) l in
  Forall (fun v => isNil v = false) r
  /\ sublist r l
  /\ List.filter (fun v => negb (isNil v)) r = r.
Proof.
  induction l as [|x l (IH1 & IH2 & IH3)]; cbn zeta.
  - split; [constructor|]. split; [constructor|reflexivity].
  - cbn [List.filter]. destruct (isNil x) eqn:Ex; cbn [negb].
    + split; [exact IH1|]. split; [now apply sublist_cons|exact IH3].
    + split; [constructor; [exact Ex|exact IH1]|].
      split; [now apply sublist_skip|].
      cbn [List.filter]. rewrite Ex. cbn [negb]. now rewrite IH3.
Qed.

Section Compact.

Variable libConvert : Value -> GoType -> Value.
Variable ParseDate : string -> Value * option TypeError.
Variable convertValueToNumber : Value -> GoType -> Value.
Variable convertOtherKind : Value -> GoType -> Value * option TypeError.

Local Abbreviation compact_ :=
  (compact libConvert ParseDate convertValueToNumber convertOtherKind).

(** X12: of a slice, [compact] keeps the items that are not nil, in
    their order, whatever the conversions of the library do: no item of
    the result is nil, compacting the result changes nothing, and the
    result joins to the same string as the slice. *)
Theorem X12_compact_drops_nil (l : list Value) (Sprint : Value -> string)
    (sep : string -> string) :
  exists r : list Value,
    compact_ (VSlice l) = Returns (VSlice r)
    /\ Forall (fun v => isNil v = false) r
    /\ sublist r l
    /\ compact_ (VSlice r) = Returns (VSlice r)
    /\ joinFilter Sprint r sep = joinFilter Sprint l sep.
Proof.
  destruct (filter_not_nil_spec l) as (H1 & H2 & H3).
  exists (List.filter (fun v => negb (isNil v)) l).
  split; [reflexivity|]. split; [exact H1|]. split; [exact H2|].
  split.
  - change (Returns (P := string)
              (VSlice (List.filter (fun v => negb (isNil v))
                         (List.filter (fun v => negb (isNil v)) l)))
            = Returns (VSlice (List.filter (fun v => negb (isNil v)) l))).
    now rewrite H3.
  - unfold joinFilter. now rewrite H3.
Qed.

End Compact.

End ArrayFilters.

(** ** The standard filters: strings *)

Section StringFilters.

Import GoFmt Filters.

Lemma prefix_empty (s : string) : String.prefix "" s = true.
Proof. now destruct s. Qed.

Lemma prefix_cons (c d : ascii) (p s : string) :
  String.prefix (String c p) (String d s) = Ascii.eqb c d && String.prefix p s.
Proof.
  cbn [String.prefix]. destruct (ascii_dec c d) as [->|ne].
  - now rewrite Ascii.eqb_refl.
  - apply Ascii.eqb_neq in ne. now rewrite ne.
Qed.

Lemma prefix_split (p s : string) :
  String.prefix p s = true -> s = p ++ Parser.drop (String.length p) s.
Proof.
  revert s. induction p as [|c p IH]; intros s Hp; [reflexivity|].
  destruct s as [|d s]; [discriminate|].
  rewrite prefix_cons in Hp. apply andb_true_iff in Hp as [Hc Hp].
  apply Ascii.eqb_eq in Hc as <-.
  change (String c s = String c (p ++ Parser.drop (String.length p) s)).
  now rewrite <- IH.
Qed.

Lemma prefix_length (p s : string) :
  String.prefix p s = true -> (String.length p <= String.length s)%nat.
Proof.
  revert s. induction p as [|c p IH]; intros s Hp; [cbn; lia|].
  destruct s as [|d s]; [discriminate|].
  rewrite prefix_cons in Hp. apply andb_true_iff in Hp as [_ Hp].
  apply IH in Hp. cbn. lia.
Qed.

Lemma prefix_of_take (p s : string) (n : nat) :
  String.prefix p (Parser.take n s) = true -> String.prefix p s = true.
Proof.
  revert s n. induction p as [|c p IH]; intros s n Hp; [apply prefix_empty|].
  destruct n as [|n], s as [|d s]; try discriminate.
  cbn [Parser.take] in Hp. rewrite prefix_cons in Hp |- *.
  apply andb_true_iff in Hp as [-> Hp]. now rewrite (IH _ _ Hp).
Qed.

Lemma index_of_cons (sep : string) (c : ascii) (s : string) :
  Parser.index_of sep (String c s)
  = if String.prefix sep (String c s) then Some 0%nat
    else S <$> Parser.index_of sep s.
Proof. reflexivity. Qed.

Lemma index_of_split (sep s : string) (i : nat) :
  Parser.index_of sep s = Some i ->
  s = Parser.take i s ++ sep ++ Parser.drop (i + String.length sep) s
  /\ (i + String.length sep <= String.length s)%nat.
Proof.
  revert i. induction s as [|c s IH]; intros i Hi.
  - cbn [Parser.index_of] in Hi.
    destruct (String.prefix sep "") eqn:Hp; [|discriminate].
    injection Hi as <-. split; [now apply prefix_split|now apply prefix_length].
  - rewrite index_of_cons in Hi.
    destruct (String.prefix sep (String c s)) eqn:Hp.
    + injection Hi as <-. split; [now apply prefix_split|now apply prefix_length].
    + destruct (Parser.index_of sep s) as [j|]; [|discriminate].
      injection Hi as <-. destruct (IH j eq_refl) as [E L].
      split; [|cbn; lia].
      change (String c s
              = String c (Parser.take j s ++ sep
                          ++ Parser.drop (j + String.length sep) s)).
      now rewrite <- E.
Qed.

Lemma length_drop_ (n : nat) (s : string) :
  String.length (Parser.drop n s) = (String.length s - n)%nat.
Proof.
  revert s. induction n as [|n IH]; intros [|c s]; cbn; try reflexivity; try lia.
  apply IH.
Qed.

Lemma Contains_index_of (sep s : string) :
  Parser.index_of sep s = None -> Contains s sep = false.
Proof.
  induction s as [|c s IH]; intros Hi.
  - destruct sep; [discriminate|reflexivity].
  - rewrite index_of_cons in Hi. cbn [Contains].
    destruct (String.prefix sep (String c s)); [discriminate|].
    destruct (Parser.index_of sep s); [discriminate|]. now apply IH.
Qed.

Lemma Contains_before_index (sep s : string) (i : nat) :
  sep <> "" ->
  Parser.index_of sep s = Some i -> Contains (Parser.take i s) sep = false.
Proof.
  intros Hsep. revert i. induction s as [|c s IH]; intros i Hi.
  - destruct sep; [congruence|discriminate].
  - rewrite index_of_cons in Hi.
    destruct (String.prefix sep (String c s)) eqn:Hp.
    + injection Hi as <-. destruct sep; [congruence|reflexivity].
    + destruct (Parser.index_of sep s) as [j|]; [|discriminate].
      injection Hi as <-. cbn [Parser.take Contains].
      rewrite (IH j eq_refl), orb_false_r.
      destruct (String.prefix sep (String c (Parser.take j s))) eqn:Hq; [|reflexivity].
      apply (prefix_of_take _ (String c s) (S j)) in Hq. congruence.
Qed.

Lemma Join_cons (e : string) (l : list string) (sep : string) :
  l <> [] -> Join (e :: l) sep = e ++ sep ++ Join l sep.
Proof. now destruct l. Qed.

Lemma split_pieces_not_nil (fuel : nat) (s sep : string) :
  split_pieces fuel s sep <> [].
Proof.
  destruct fuel; cbn; [discriminate|].
  now destruct (Parser.index_of sep s).
Qed.

Lemma Join_split_pieces (fuel : nat) (s sep : string) :
  Join (split_pieces fuel s sep) sep = s.
Proof.
  revert s. induction fuel as [|fuel IH]; intros s; [reflexivity|].
  cbn [split_pieces]. destruct (Parser.index_of sep s) as [i|] eqn:Hi; [|reflexivity].
  rewrite Join_cons by apply split_pieces_not_nil.
  rewrite IH. symmetry. now apply index_of_split.
Qed.

Lemma split_pieces_free (fuel : nat) (s sep : string) :
  sep <> "" -> (String.length s <= fuel)%nat ->
  Forall (fun piece => Contains piece sep = false) (split_pieces fuel s sep).
Proof.
  intros Hsep. revert s. induction fuel as [|fuel IH]; intros s Hs.
  - destruct s; [|cbn in Hs; lia]. constructor; [|constructor].
    cbn. now destruct sep.
  - cbn [split_pieces]. destruct (Parser.index_of sep s) as [i|] eqn:Hi.
    + constructor; [now apply Contains_before_index|].
      apply IH. rewrite length_drop_.
      destruct (index_of_split _ _ _ Hi) as [_ L].
      destruct sep; [congruence|]. cbn in L |- *. lia.
    + constructor; [now apply Contains_index_of|constructor].
Qed.

Section Split.

Variable explode : string -> list string.
Variable wsre_Split : string -> list string.

Lemma drop_empty_tail_last (fuel : nat) (result : list string) :
  (List.length result <= fuel)%nat ->
  list.last (drop_empty_tail fuel result) <> Some "".
Proof.
  revert result. induction fuel as [|fuel IH]; intros result Hl.
  - destruct result; [discriminate|cbn in Hl; lia].
  - cbn [drop_empty_tail]. destruct (list.last result) as [p|] eqn:Hp.
    + destruct (String.eqb p "") eqn:E.
      * apply IH. apply last_Some in Hp as [l' ->].
        rewrite removelast_last. rewrite length_app in Hl. cbn in Hl. lia.
      * rewrite Hp. intros [= ->]. discriminate.
    + now rewrite Hp.
Qed.

Lemma drop_empty_tail_spec (fuel : nat) (result : list string) :
  exists k : nat,
    result = (drop_empty_tail fuel result ++ replicate k "")%list.
Proof.
  revert result. induction fuel as [|fuel IH]; intros result.
  - exists 0%nat. cbn. now rewrite app_nil_r.
  - cbn [drop_empty_tail]. destruct (list.last result) as [p|] eqn:Hp.
    + destruct (String.eqb p "") eqn:E.
      * apply String.eqb_eq in E as ->.
        apply last_Some in Hp as [l' ->].
        rewrite removelast_last. destruct (IH l') as [k Hk].
        exists (S k). rewrite replicate_S_end, app_assoc. now rewrite <- Hk.
      * exists 0%nat. cbn. now rewrite app_nil_r.
    + exists 0%nat. cbn. now rewrite app_nil_r.
Qed.

Lemma drop_empty_tail_sub (fuel : nat) (result : list string) (P : string -> Prop) :
  Forall P result -> Forall P (drop_empty_tail fuel result).
Proof.
  intros HP. destruct (drop_empty_tail_spec fuel result) as [k Hk].
  rewrite Hk in HP. now apply Forall_app in HP as [HP _].
Qed.

(** X13: whatever the separator, the result of [splitFilter] does not
    end with an empty string. *)
Theorem X13_split_no_empty_tail (s sep : string) :
  list.last (splitFilter explode wsre_Split s sep) <> Some "".
Proof. unfold splitFilter. now apply drop_empty_tail_last. Qed.

(** X14: for a separator that is neither empty nor one space, the
    pieces [splitFilter] gives do not contain the separator, and are the
    string cut at its occurrences but for empty pieces at the end: with
    some number of empty strings put back, they join to the string. *)
Theorem X14_split_then_join (s sep : string) :
  String.eqb sep "" = false -> String.eqb sep " " = false ->
  Forall (fun piece => Contains piece sep = false)
         (splitFilter explode wsre_Split s sep)
  /\ exists k : nat,
       Join (splitFilter explode wsre_Split s sep ++ replicate k "")%list sep = s.
Proof.
  intros He Hs. unfold splitFilter, Split. rewrite He, Hs.
  apply String.eqb_neq in He. split.
  - apply drop_empty_tail_sub. now apply split_pieces_free.
  - set (l := split_pieces (String.length s) s sep).
    destruct (drop_empty_tail_spec (List.length l) l) as [k Hk].
    exists k. rewrite <- Hk. apply Join_split_pieces.
Qed.

End Split.

Lemma index_of_Contains (sep s : string) :
  Contains s sep = false -> Parser.index_of sep s = None.
Proof.
  induction s as [|c s IH]; intros Hc.
  - cbn [Contains] in Hc. cbn [Parser.index_of].
    now destruct (String.prefix sep "").
  - cbn [Contains] in Hc. rewrite index_of_cons.
    destruct (String.prefix sep (String c s)); [discriminate|].
    now rewrite IH.
Qed.

Lemma Contains_char_app (a b : string) (c : ascii) :
  Contains (a ++ b) (String c "") = Contains a (String c "") || Contains b (String c "").
Proof.
  induction a as [|x a IH]; [reflexivity|].
  change (Contains (String x (a ++ b)) (String c "")
          = Contains (String x a) (String c "") || Contains b (String c "")).
  cbn [Contains]. rewrite !prefix_cons, !prefix_empty, IH.
  now rewrite orb_assoc.
Qed.

Lemma replace_found_free (fuel : nat) (s new : string) (c : ascii) :
  (String.length s <= fuel)%nat ->
  Contains new (String c "") = false ->
  Contains (replace_found fuel None s (String c "") new) (String c "") = false.
Proof.
  intros Hs Hnew. revert s Hs. induction fuel as [|fuel IH]; intros s Hs.
  - destruct s; [reflexivity|cbn in Hs; lia].
  - cbn [replace_found fmap option_fmap option_map].
    destruct (Parser.index_of (String c "") s) as [j|] eqn:Hj.
    + rewrite !Contains_char_app, Hnew.
      rewrite (Contains_before_index (String c "") s j ltac:(easy) Hj).
      apply IH. rewrite length_drop_.
      destruct (index_of_split _ _ _ Hj) as [_ L].
      change (String.length (String c "")) with 1%nat in *. lia.
    + now apply Contains_index_of.
Qed.

Lemma replace_found_absent (fuel : nat) (limit : option nat) (s old new : string) :
  Contains s old = false -> replace_found fuel limit s old new = s.
Proof.
  intros Hc. apply index_of_Contains in Hc.
  destruct fuel, limit as [[|n]|]; cbn [replace_found]; try reflexivity;
    now rewrite Hc.
Qed.

Section Replace.

Variable replace_empty : string -> string -> Z -> string.

Local Abbreviation newline := (String "010"%char "").

(** X15: [strip_newlines] and [newline_to_br] leave no newline in the
    string, so that [strip_newlines] applied again, or after
    [newline_to_br], changes nothing. *)
Theorem X15_no_newline_left (s : string) :
  Contains (strip_newlines replace_empty s) newline = false
  /\ Contains (newline_to_br replace_empty s) newline = false
  /\ strip_newlines replace_empty (strip_newlines replace_empty s)
     = strip_newlines replace_empty s
  /\ strip_newlines replace_empty (newline_to_br replace_empty s)
     = newline_to_br replace_empty s.
Proof.
  assert (H1 : Contains (strip_newlines replace_empty s) newline = false)
    by now apply replace_found_free.
  assert (H2 : Contains (newline_to_br replace_empty s) newline = false)
    by now apply replace_found_free.
  split; [exact H1|]. split; [exact H2|].
  split; [exact (replace_found_absent _ _ _ _ _ H1)
         |exact (replace_found_absent _ _ _ _ _ H2)].
Qed.

Lemma Replace_absent (s old new : string) (n : Z) :
  Contains s old = false -> Replace replace_empty s old new n = s.
Proof.
  intros Hc. unfold Replace.
  destruct (String.eqb old new || (n =? 0)%Z); [reflexivity|].
  destruct (String.eqb_spec old "") as [->|_].
  - destruct s; discriminate.
  - now apply replace_found_absent.
Qed.

(** X27: the filters that replace or remove a text leave a string in
    which the text does not occur as it is. *)
Theorem X27_replace_without_occurrence (s old new : string) :
  Contains s old = false ->
  remove replace_empty s old = s
  /\ remove_first replace_empty s old = s
  /\ replace replace_empty s old new = s
  /\ replace_first replace_empty s old new = s.
Proof.
  intros Hc. unfold remove, remove_first, replace, replace_first.
  now rewrite !Replace_absent.
Qed.

End Replace.

End StringFilters.

(** ** The scanner with delimiters of one's own *)

Section ScanMore.

Import Parser.

Lemma take_app_length (a b : string) : take (String.length a) (a ++ b) = a.
Proof.
  induction a as [|c a IH]; [now destruct b|].
  change (take (S (String.length a)) (String c (a ++ b)) = String c a).
  cbn [take]. now rewrite IH.
Qed.

Lemma drop_app_length (a b : string) : drop (String.length a) (a ++ b) = b.
Proof.
  induction a as [|c a IH]; [now destruct b|].
  change (drop (S (String.length a)) (String c (a ++ b)) = b).
  cbn [drop]. exact IH.
Qed.

Lemma length_app_ (a b : string) :
  String.length (a ++ b) = (String.length a + String.length b)%nat.
Proof.
  induction a as [|c a IH]; [reflexivity|].
  change (S (String.length (a ++ b)) = S (String.length a + String.length b)).
  now rewrite IH.
Qed.

Lemma drop_add (n m : nat) (s : string) : drop (n + m) s = drop m (drop n s).
Proof.
  revert s. induction n as [|n IH]; intros s.
  - cbn [Nat.add]. now destruct s.
  - destruct s as [|c s]; [now destruct m|]. cbn [Nat.add drop]. apply IH.
Qed.

Lemma Source_construct_token (ty : TokenType) (loc : SourceLoc)
    (left interior right : string) :
  Source (construct_token ty loc left interior right) = left ++ interior ++ right.
Proof.
  unfold construct_token.
  destruct (strip_leading_dash interior) as [tl body].
  destruct (strip_trailing_dash body) as [tr body'].
  destruct ty; [reflexivity| |reflexivity].
  now destruct (split_word (trim body')).
Qed.

Section Delimiters.

Variables objLeft objRight tagLeft tagRight : string.

Local Abbreviation loop fuel :=
  (scan_loop fuel objLeft objRight tagLeft tagRight).
Local Abbreviation delims := [objLeft; objRight; tagLeft; tagRight].

Lemma nearest_left_bound (s : string) (i : nat) (isObj : bool) :
  nearest_left objLeft tagLeft s = Some (i, isObj) ->
  (i + String.length (if isObj then objLeft else tagLeft) <= String.length s)%nat.
Proof.
  unfold nearest_left.
  destruct (index_of objLeft s) as [io|] eqn:Ho,
           (index_of tagLeft s) as [it|] eqn:Ht; try discriminate.
  - destruct (io <=? it)%nat; intros [= <- <-].
    + now apply index_of_split in Ho.
    + now apply index_of_split in Ht.
  - intros [= <- <-]. now apply index_of_split in Ho.
  - intros [= <- <-]. now apply index_of_split in Ht.
Qed.

(** With left markers that are not empty, every construct takes a byte
    at least, and the fuel of [Scan] is enough: more changes nothing. *)
Lemma scan_loop_fuel (fuel1 : nat) :
  String.eqb objLeft "" = false -> String.eqb tagLeft "" = false ->
  forall (fuel2 : nat) (s : string) (loc : SourceLoc),
    (String.length s < fuel1)%nat -> (String.length s < fuel2)%nat ->
    loop fuel1 s loc = loop fuel2 s loc.
Proof.
  intros Ho Ht. apply String.eqb_neq in Ho, Ht.
  induction fuel1 as [|fuel1 IH]; intros fuel2 s loc H1 H2; [lia|].
  destruct fuel2 as [|fuel2]; [lia|]. cbn [scan_loop].
  destruct (nearest_left objLeft tagLeft s) as [[i isObj]|] eqn:Hn; [|reflexivity].
  pose proof (nearest_left_bound s i isObj Hn) as Hb.
  set (left := if isObj then objLeft else tagLeft) in *.
  set (right := if isObj then objRight else tagRight).
  destruct (index_of right (drop (i + String.length left) s)) as [j|] eqn:Hj;
    [|reflexivity].
  do 2 f_equal.
  assert (Hl : (1 <= String.length left)%nat).
  { unfold left. destruct isObj.
    - destruct objLeft; [congruence|cbn; lia].
    - destruct tagLeft; [congruence|cbn; lia]. }
  assert (Hd : (String.length (drop (j + String.length right)
                                 (drop (i + String.length left) s))
                < String.length s)%nat).
  { rewrite !length_drop_. lia. }
  apply IH; lia.
Qed.

(** C8: the four delimiters given to [Scan] are the only markers,
    whatever they are.  A source that holds neither left marker is one
    Text token, whatever else it holds, the default markers too.  Where
    the left markers are not empty, a source that is some text, the
    nearest left marker, an interior without the right marker, the right
    marker and a rest scans to the Text token of the text, if it is not
    empty, the token of the construct, and the tokens of the rest, scanned
    with the same four delimiters.  With the delimiters of the test, the
    source of the test is one Object token with Args "expr", each default
    marker is one Text token, and so is a source written with them. *)
Theorem C8_scan_custom_delimiters (loc : SourceLoc) :
  (forall data : string,
      index_of objLeft data = None -> index_of tagLeft data = None ->
      Scan data loc delims = if String.eqb data "" then [] else [text_token loc data])
  /\ (forall (before interior rest : string) (isObj : bool),
        let left := if isObj then objLeft else tagLeft in
        let right := if isObj then objRight else tagRight in
        let data := before ++ left ++ interior ++ right ++ rest in
        let tok := construct_token (if isObj then ObjTokenType else TagTokenType)
                     (advance loc before) left interior right in
        String.eqb objLeft "" = false -> String.eqb tagLeft "" = false ->
        nearest_left objLeft tagLeft data = Some (String.length before, isObj) ->
        index_of right (interior ++ right ++ rest) = Some (String.length interior) ->
        Scan data loc delims
        = ((if String.eqb before "" then [] else [text_token loc before])
           ++ tok :: Scan rest (advance (advance loc before) (left ++ interior ++ right))
                       delims)%list)
  /\ (exists tok : Token,
        Scan "OBJECT@LEFT expr OBJECT#RIGHT" loc test_delims = [tok]
        /\ TokType tok = ObjTokenType /\ Args tok = "expr")
  /\ Forall (fun marker => Scan marker loc test_delims = [text_token loc marker])
       default_delims
  /\ Scan "{{ expr }}{% tag arg %}" loc test_delims
     = [text_token loc "{{ expr }}{% tag arg %}"].
Proof.
  split; [|split; [|split; [|split]]].
  - intros data Ho Ht. unfold Scan. cbn [scan_loop].
    unfold nearest_left. now rewrite Ho, Ht.
  - intros before interior rest isObj left right data tok Ho Ht Hn Hr.
    set (tail := Scan rest _ delims).
    unfold Scan. cbn [scan_loop]. rewrite Hn. fold left right.
    assert (Hafter : drop (String.length before + String.length left) data
                     = interior ++ right ++ rest).
    { unfold data. now rewrite drop_add, !drop_app_length. }
    rewrite Hafter, Hr.
    assert (Hbefore : take (String.length before) data = before)
      by apply take_app_length.
    rewrite Hbefore. rewrite take_app_length.
    rewrite drop_add, !drop_app_length.
    fold tok. rewrite (Source_construct_token _ _ left interior right : Source tok = _).
    do 2 f_equal. unfold tail, Scan.
    apply scan_loop_fuel; [exact Ho | exact Ht | | lia].
    unfold data. rewrite !length_app_.
    assert (1 <= String.length left)%nat; [|lia].
    unfold left. apply String.eqb_neq in Ho, Ht. destruct isObj.
    + destruct objLeft; [congruence|cbn; lia].
    + destruct tagLeft; [congruence|cbn; lia].
  - eexists. split; [vm_compute; reflexivity|]. split; reflexivity.
  - repeat constructor.
  - reflexivity.
Qed.

End Delimiters.

End ScanMore.

(** ** The standard filters: numbers *)

Section NumberFilters.

Import Values ValuesMore Filters.

Variable float_to_int64 : Z -> Z.
Variable int64_to_float : Z -> Z.
Variable ParseInt : string -> option Z.
Variable ParseFloat : string -> option Z.
Variable typeName : Value -> string.
Variable Sprint : Value -> string.
Variable typeString : GoType -> string.
Variable fadd fsub fmul fdiv : Z -> Z -> Z.
Variable fgt flt feq : Z -> Z -> bool.
Variable is_inf : Z -> Z -> bool.
Variable is_nan signbit : Z -> bool.
Variable inf : Z -> Z.
Variable nan : Z.
Variable fzero : Z.

Local Abbreviation number :=
  (convertValueToNumber ParseInt ParseFloat typeName Sprint typeString).
Local Abbreviation AsInt64_ := (AsInt64 float_to_int64).
Local Abbreviation AsFloat64_ := (AsFloat64 int64_to_float).
Local Abbreviation Call_ := (Call float_to_int64 int64_to_float).
Local Abbreviation atLeast_ :=
  (atLeast float_to_int64 int64_to_float fgt feq is_inf is_nan signbit inf nan fzero).
Local Abbreviation atMost_ :=
  (atMost float_to_int64 int64_to_float flt feq is_inf is_nan signbit inf nan fzero).
Local Abbreviation divided_by_ := (divided_by float_to_int64 int64_to_float fdiv).
Local Abbreviation int i := {| Number_Value := Int64 i; IsFloat := false |}.
Local Abbreviation float f := {| Number_Value := Float64 f; IsFloat := true |}.

Lemma number_cases (value : Value) (typ : GoType) :
  (exists i : Z, number value typ = int i)
  \/ (exists f : Z, number value typ = float f).
Proof.
  unfold convertValueToNumber.
  destruct value; try (left; eexists; reflexivity);
    try (right; eexists; reflexivity);
    destruct (convertValueToInt _ _ _ _ _ _) as [i [e|]];
    try (left; eexists; reflexivity);
    destruct (convertValueToFloat _ _ _ _ _ _) as [f [e'|]];
    try (left; eexists; reflexivity); right; eexists; reflexivity.
Qed.

(** X16: the number that [convertValueToNumber] makes of a value holds
    an [int64] where [IsFloat] is false and a [float64] where it is
    true, so that the type assertions of [AsInt64] and [AsFloat64] do
    not panic on it, nor do the number filters that are called with
    such numbers. *)
Theorem X16_converted_numbers_never_panic (x y : Value) (typ : GoType)
    (op : commonNumberOperation) :
  (exists i : Z, AsInt64_ (number x typ) = Returns i)
  /\ (exists f : Z, AsFloat64_ (number x typ) = Returns f)
  /\ (exists r : Held, Call_ op (number x typ) (number y typ) = Returns r)
  /\ (exists r : Held, atLeast_ (number x typ) (number y typ) = Returns r)
  /\ (exists r : Held, atMost_ (number x typ) (number y typ) = Returns r).
Proof.
  destruct (number_cases x typ) as [[i ->]|[f ->]],
           (number_cases y typ) as [[j ->]|[g ->]];
    unfold Call, atLeast, atMost, AsInt64, AsFloat64;
    cbn [IsFloat Number_Value negb andb orb];
    repeat split; try (eexists; reflexivity);
    repeat match goal with
           | |- context [if ?b then _ else _] => destruct b
           end; eexists; reflexivity.
Qed.

Lemma wrap64_id (z : Z) : is_int64 z -> wrap64 z = z.
Proof.
  unfold is_int64, wrap64. intros Hz.
  rewrite Z.mod_small by lia. lia.
Qed.

Lemma wrap64_range (z : Z) : is_int64 (wrap64 z).
Proof.
  unfold is_int64, wrap64.
  pose proof (Z.mod_pos_bound (z + 2 ^ 63) (2 ^ 64) ltac:(lia)). lia.
Qed.

Lemma wrap64_add_sub (a b : Z) : is_int64 a -> wrap64 (wrap64 (a + b) - b) = a.
Proof.
  intros Ha. unfold wrap64.
  replace ((a + b + 2 ^ 63) mod 2 ^ 64 - 2 ^ 63 - b + 2 ^ 63)%Z
    with ((a + b + 2 ^ 63) mod 2 ^ 64 - b)%Z by lia.
  rewrite Zminus_mod_idemp_l.
  replace (a + b + 2 ^ 63 - b)%Z with (a + 2 ^ 63)%Z by lia.
  unfold is_int64 in Ha. rewrite Z.mod_small by lia. lia.
Qed.

Lemma wrap64_sub_add (a b : Z) : is_int64 a -> wrap64 (wrap64 (a - b) + b) = a.
Proof.
  intros Ha. replace (a - b)%Z with (a + - b)%Z by lia.
  replace (wrap64 (a + - b) + b)%Z with (wrap64 (a + - b) - - b)%Z by lia.
  now apply wrap64_add_sub.
Qed.

(** X17: on integers, [minus] undoes [plus] and [plus] undoes [minus],
    also where the sum or the difference wraps around at 64 bits. *)
Theorem X17_plus_minus_round_trip (a b : Z) :
  is_int64 a ->
  exists sum difference : Z,
    Call_ (plus fadd) (int a) (int b) = Returns (Int64 sum)
    /\ Call_ (minus fsub) (int sum) (int b) = Returns (Int64 a)
    /\ Call_ (minus fsub) (int a) (int b) = Returns (Int64 difference)
    /\ Call_ (plus fadd) (int difference) (int b) = Returns (Int64 a)
    /\ is_int64 sum /\ is_int64 difference.
Proof.
  intros Ha. exists (wrap64 (a + b)), (wrap64 (a - b)).
  unfold Call. cbn [IsFloat Number_Value orb AsInt64 plus minus op_Int64].
  rewrite wrap64_add_sub, wrap64_sub_add by exact Ha.
  repeat split; apply wrap64_range.
Qed.

(** X18: on integers [atLeast] gives the greater and [atMost] the
    smaller of the two numbers. *)
Theorem X18_at_least_at_most_integers (n c : Z) :
  atLeast float_to_int64 int64_to_float fgt feq is_inf is_nan signbit inf nan
    fzero (int n) (int c)
  = Returns (Int64 (Z.max n c))
  /\ atMost float_to_int64 int64_to_float flt feq is_inf is_nan signbit inf nan
       fzero (int n) (int c)
     = Returns (Int64 (Z.min n c)).
Proof.
  unfold atLeast, atMost. cbn [IsFloat Number_Value negb andb AsInt64].
  split.
  - destruct (Z.ltb_spec c n); f_equal; f_equal; lia.
  - destruct (Z.ltb_spec n c); f_equal; f_equal; lia.
Qed.

(** X19: [divided_by] does not panic on a converted divisor, and fails
    with "divided by 0", giving nil, exactly where the divisor converts
    to the integer zero; so it fails for nil and for a string that
    parses as no number, as it does for 0, and never for a float. *)
Theorem X19_divided_by_zero (a : Z) (value : Value) (typ : GoType) :
  ((number value typ = int 0
    /\ divided_by_ a (number value typ) = Returns (None, Some "divided by 0"))
   \/ (number value typ <> int 0
       /\ exists r : Held,
            divided_by_ a (number value typ) = Returns (Some r, None)))
  /\ number VNil typ = int 0
  /\ (forall s : string,
        ParseInt s = None -> ParseFloat s = None ->
        number (VString s) typ = int 0)
  /\ (forall f : Z, number (VFloat64 f) typ <> int 0).
Proof.
  split; [|split; [reflexivity|split]].
  - destruct (number_cases value typ) as [[i ->]|[f ->]].
    + unfold divided_by. cbn [IsFloat Number_Value AsInt64].
      destruct (Z.eqb_spec i 0) as [->|ne].
      * left. split; reflexivity.
      * right. split; [congruence|eexists; reflexivity].
    + right. split; [discriminate|]. eexists. reflexivity.
  - intros s Hi Hf. unfold convertValueToNumber, convertValueToInt,
      convertValueToFloat. now rewrite Hi, Hf.
  - discriminate.
Qed.

End NumberFilters.

(** ** The counter tags *)

Section CounterTags.

Import ValuesMore Tags.

Local Abbreviation with_args ctx args :=
  {| TagArgs := args; states := states ctx |}.
Local Abbreviation not_a_map :=
  "counters state is not of type map[string]int".

Lemma concat_cons_ (x : string) (l : list string) :
  String.concat "" (x :: l) = x ++ String.concat "" l.
Proof.
  destruct l as [|y l]; [|reflexivity].
  cbn [String.concat]. symmetry. apply append_empty_r.
Qed.

Section OneCounter.

Context {C : Type} `{counter C} (c : C).

Lemma counterTag_fresh (w : Buffer) (ctx : Context) :
  states ctx !! "counters" = None ->
  counterTag w ctx c
  = (w ++ Itoa (defaultValue c),
     {| TagArgs := TagArgs ctx;
        states := <["counters" := Counters {[ TagArgs ctx := defaultValue c ]}]> (states ctx) |},
     None).
Proof.
  intros Hs. unfold counterTag, GetState. rewrite Hs.
  cbn [Write Buffer_Writer]. unfold assign_item. cbn [TagArgs states].
  rewrite lookup_empty, insert_insert_eq, insert_empty. reflexivity.
Qed.

Lemma counterTag_map (w : Buffer) (ctx : Context) (counts : gmap string Z) :
  states ctx !! "counters" = Some (Counters counts) ->
  counterTag w ctx c
  = let count := match counts !! TagArgs ctx with
                 | None => defaultValue c
                 | Some count => operation c count
                 end in
    (w ++ Itoa count,
     {| TagArgs := TagArgs ctx;
        states := <["counters" := Counters (<[TagArgs ctx := count]> counts)]> (states ctx) |},
     None).
Proof.
  intros Hs. unfold counterTag, GetState. rewrite Hs. reflexivity.
Qed.

Lemma counterTag_other {W : Type} `{Writer W} (w : W) (ctx : Context) (v : Value) :
  states ctx !! "counters" = Some (OtherState v) ->
  counterTag w ctx c = (w, ctx, Some not_a_map).
Proof.
  intros Hs. unfold counterTag, GetState. rewrite Hs. reflexivity.
Qed.

(** A run of [n] tags of the counter [c] on the name [x], which has the
    count [v]: each tag writes the count that the operation makes of the
    count before. *)
Lemma run_counter (x : string) (n : nat) :
  forall (w : Buffer) (ctx : Context) (counts : gmap string Z) (v : Z),
    states ctx !! "counters" = Some (Counters counts) ->
    counts !! x = Some v ->
    exists ctx' : Context,
      render_tags (replicate n ((counterCompiler c).1, x)) w ctx
      = (w ++ String.concat ""
                (Itoa <$> ((fun k => Nat.iter k (operation c) v) <$> seq 1 n)),
         ctx', None)
      /\ states ctx' !! "counters"
         = Some (Counters (<[x := Nat.iter n (operation c) v]> counts)).
Proof.
  induction n as [|n IH]; intros w ctx counts v Hs Hx.
  - exists ctx. cbn [replicate render_tags seq fmap list_fmap String.concat Nat.iter].
    rewrite append_empty_r. split; [reflexivity|].
    now rewrite insert_id.
  - cbn [replicate render_tags counterCompiler fst].
    rewrite (counterTag_map w (with_args ctx x) counts) by exact Hs.
    cbn zeta. cbn [TagArgs]. rewrite Hx.
    edestruct (IH (w ++ Itoa (operation c v))
                 {| TagArgs := x;
                    states := <["counters" := Counters (<[x := operation c v]> counts)]>
                                (states (with_args ctx x)) |}
                 (<[x := operation c v]> counts) (operation c v))
      as (ctx' & Hr & Hs').
    { cbn [states]. apply lookup_insert_eq. }
    { apply lookup_insert_eq. }
    exists ctx'. cbn [counterCompiler fst] in Hr. rewrite Hr. split.
    + f_equal. f_equal. rewrite append_assoc_. f_equal.
      cbn [seq fmap list_fmap]. rewrite concat_cons_. f_equal.
      f_equal. rewrite <- (fmap_S_seq 1), <- !list_fmap_compose.
      apply list_fmap_ext. intros i k _. unfold compose.
      now rewrite Nat.iter_succ_r.
    + now rewrite Hs', insert_insert_eq, Nat.iter_succ_r.
Qed.

End OneCounter.

Lemma iter_increment (k : nat) (v : Z) :
  is_int64 v -> (v + Z.of_nat k < 2 ^ 63)%Z ->
  Nat.iter k (operation Increment) v = (v + Z.of_nat k)%Z.
Proof.
  unfold is_int64. intros Hv. induction k as [|k IH]; intros Hk; [cbn; lia|].
  rewrite Nat.iter_succ, IH by lia.
  cbn [operation increment_counter]. unfold wrap64.
  rewrite Z.mod_small by lia. lia.
Qed.

Lemma iter_decrement (k : nat) (v : Z) :
  is_int64 v -> (- 2 ^ 63 <= v - Z.of_nat k)%Z ->
  Nat.iter k (operation Decrement) v = (v - Z.of_nat k)%Z.
Proof.
  unfold is_int64. intros Hv. induction k as [|k IH]; intros Hk; [cbn; lia|].
  rewrite Nat.iter_succ, IH by lia.
  cbn [operation decrement_counter]. unfold wrap64.
  rewrite Z.mod_small by lia. lia.
Qed.

(** X20: on a context that has no counters yet, a run of [n] increment
    tags of one name writes 0, 1, ..., n-1, and a run of [n] decrement
    tags writes -1, -2, ..., -n. *)
Theorem X20_counters_count_from_default (x : string) (n : nat) (w : Buffer)
    (ctx : Context) :
  states ctx !! "counters" = None ->
  (Z.of_nat n <= 2 ^ 63)%Z ->
  (exists ctx' : Context,
     render_tags (replicate n ((incrementTag x).1, x)) w ctx
     = (w ++ String.concat "" (Itoa <$> (Z.of_nat <$> seq 0 n)), ctx', None))
  /\ (exists ctx' : Context,
        render_tags (replicate n ((decrementTag x).1, x)) w ctx
        = (w ++ String.concat ""
                  (Itoa <$> ((fun k => (- Z.of_nat k - 1)%Z) <$> seq 0 n)),
           ctx', None)).
Proof.
  intros Hs Hn. destruct n as [|n].
  { split; exists ctx; cbn [replicate render_tags seq fmap list_fmap String.concat];
      now rewrite append_empty_r. }
  split.
  - cbn [replicate render_tags incrementTag counterCompiler fst].
    rewrite (counterTag_fresh Increment w (with_args ctx x)) by exact Hs.
    cbn [TagArgs states defaultValue increment_counter].
    destruct (run_counter Increment x n (w ++ Itoa 0)
                {| TagArgs := x;
                   states := <["counters" := Counters {[x := 0%Z]}]> (states ctx) |}
                {[x := 0%Z]} 0%Z) as (ctx' & Hr & _);
      [apply lookup_insert_eq|apply lookup_singleton_eq|].
    exists ctx'. cbn [counterCompiler fst] in Hr. rewrite Hr.
    f_equal. f_equal. rewrite append_assoc_. f_equal.
    cbn [seq fmap list_fmap]. rewrite concat_cons_. f_equal. f_equal.
    rewrite <- !list_fmap_compose. apply list_fmap_ext. intros i k Hk.
    apply lookup_seq in Hk as [-> Hi]. unfold compose. f_equal.
    rewrite iter_increment; unfold is_int64; lia.
  - cbn [replicate render_tags decrementTag counterCompiler fst].
    rewrite (counterTag_fresh Decrement w (with_args ctx x)) by exact Hs.
    cbn [TagArgs states defaultValue decrement_counter].
    destruct (run_counter Decrement x n (w ++ Itoa (-1))
                {| TagArgs := x;
                   states := <["counters" := Counters {[x := (-1)%Z]}]> (states ctx) |}
                {[x := (-1)%Z]} (-1)%Z) as (ctx' & Hr & _);
      [apply lookup_insert_eq|apply lookup_singleton_eq|].
    exists ctx'. cbn [counterCompiler fst] in Hr. rewrite Hr.
    f_equal. f_equal. rewrite append_assoc_. f_equal.
    cbn [seq fmap list_fmap]. rewrite concat_cons_. f_equal.
    rewrite <- (fmap_S_seq 0), <- !list_fmap_compose. f_equal.
    apply list_fmap_ext. intros i k Hk.
    apply lookup_seq in Hk as [-> Hi]. unfold compose. f_equal.
    rewrite iter_decrement; unfold is_int64; lia.
Qed.

(** X21: counters of different names do not touch each other: what a
    counter tag of the name [b] writes is the same after a counter tag of
    another name [a] as without it, and the two tags leave the same
    state in either order. *)
Theorem X21_counters_by_name {C1 C2 : Type} `{counter C1} `{counter C2}
    (c1 : C1) (c2 : C2) (a b : string) (w0 w : Buffer) (ctx : Context) :
  String.eqb a b = false ->
  let after_a := (counterTag w0 (with_args ctx a) c1).1.2 in
  let after_b := (counterTag w0 (with_args ctx b) c2).1.2 in
  (counterTag w (with_args after_a b) c2).1.1
  = (counterTag w (with_args ctx b) c2).1.1
  /\ states (counterTag w (with_args after_a b) c2).1.2
     = states (counterTag w (with_args after_b a) c1).1.2.
Proof.
  intros Hab. apply String.eqb_neq in Hab. cbn zeta.
  destruct (states ctx !! "counters") as [[counts|v]|] eqn:Hs.
  - rewrite !(counterTag_map _ _ (with_args ctx _) counts) by exact Hs.
    cbn zeta. cbn [fst snd TagArgs states].
    rewrite (counterTag_map c2 w _ (<[a := match counts !! a with
                                           | Some count => operation c1 count
                                           | None => defaultValue c1
                                           end]> counts))
      by apply lookup_insert_eq.
    rewrite (counterTag_map c1 w _ (<[b := match counts !! b with
                                           | Some count => operation c2 count
                                           | None => defaultValue c2
                                           end]> counts))
      by apply lookup_insert_eq.
    cbn zeta. cbn [fst snd TagArgs states].
    rewrite !lookup_insert_ne by congruence. split; [reflexivity|].
    rewrite !insert_insert_eq. f_equal. f_equal. now apply insert_insert_ne.
  - rewrite (counterTag_other c1 w0 (with_args ctx a) v Hs),
      (counterTag_other c2 w0 (with_args ctx b) v Hs).
    cbn [fst snd states].
    rewrite (counterTag_other c2 w (with_args ctx b) v Hs),
      (counterTag_other c1 w (with_args ctx a) v Hs).
    split; reflexivity.
  - rewrite !(counterTag_fresh _ _ (with_args ctx _)) by exact Hs.
    cbn [fst snd TagArgs states].
    rewrite (counterTag_map c2 w _ {[a := defaultValue c1]})
      by apply lookup_insert_eq.
    rewrite (counterTag_map c1 w _ {[b := defaultValue c2]})
      by apply lookup_insert_eq.
    cbn zeta. cbn [fst snd TagArgs states].
    rewrite !lookup_singleton_ne by congruence.
    split; [reflexivity|].
    rewrite !insert_insert_eq. f_equal. f_equal.
    rewrite <- !insert_empty. now apply insert_insert_ne.
Qed.

(** X22: the increment and the decrement tags of one name share the
    counter: on a counter that has the count [v], an increment followed
    by a decrement writes the count after [v] and then [v], a decrement
    followed by an increment the count before [v] and then [v], and both
    leave the state as it was, also where the count wraps around. *)
Theorem X22_increment_decrement_share (x : string) (w : Buffer) (ctx : Context)
    (counts : gmap string Z) (v : Z) :
  states ctx !! "counters" = Some (Counters counts) ->
  counts !! x = Some v ->
  is_int64 v ->
  (exists ctx' : Context,
     render_tags [((incrementTag x).1, x); ((decrementTag x).1, x)] w ctx
     = (w ++ Itoa (wrap64 (v + 1)) ++ Itoa v, ctx', None)
     /\ states ctx' = states ctx)
  /\ (exists ctx' : Context,
        render_tags [((decrementTag x).1, x); ((incrementTag x).1, x)] w ctx
        = (w ++ Itoa (wrap64 (v - 1)) ++ Itoa v, ctx', None)
        /\ states ctx' = states ctx).
Proof.
  intros Hs Hx Hv.
  assert (E1 : wrap64 (wrap64 (v + 1) - 1) = v).
  { unfold is_int64 in Hv. unfold wrap64.
    replace ((v + 1 + 2 ^ 63) mod 2 ^ 64 - 2 ^ 63 - 1 + 2 ^ 63)%Z
      with ((v + 1 + 2 ^ 63) mod 2 ^ 64 - 1)%Z by lia.
    rewrite Zminus_mod_idemp_l.
    replace (v + 1 + 2 ^ 63 - 1)%Z with (v + 2 ^ 63)%Z by lia.
    rewrite Z.mod_small by lia. lia. }
  assert (E2 : wrap64 (wrap64 (v - 1) + 1) = v).
  { unfold is_int64 in Hv. unfold wrap64.
    replace ((v - 1 + 2 ^ 63) mod 2 ^ 64 - 2 ^ 63 + 1 + 2 ^ 63)%Z
      with ((v - 1 + 2 ^ 63) mod 2 ^ 64 + 1)%Z by lia.
    rewrite Zplus_mod_idemp_l.
    replace (v - 1 + 2 ^ 63 + 1)%Z with (v + 2 ^ 63)%Z by lia.
    rewrite Z.mod_small by lia. lia. }
  split; eexists;
    cbn [render_tags incrementTag decrementTag counterCompiler fst];
    rewrite (counterTag_map _ w (with_args ctx x) counts) by exact Hs;
    cbn zeta; cbn [TagArgs states]; rewrite Hx;
    erewrite counterTag_map by apply lookup_insert_eq;
    cbn zeta; cbn [TagArgs states]; rewrite lookup_insert_eq;
    cbn [operation increment_counter decrement_counter];
    rewrite ?E1, ?E2, append_assoc_;
    (split; [reflexivity|]); cbn [states];
    rewrite !insert_insert_eq, (insert_id counts x v Hx);
    now apply insert_id.
Qed.


(** X24: on a context whose counters state is not a map, a run of tags
    that begins with a counter tag fails at this tag with the error of
    [counterTag], whatever the writer: nothing is written, and the
    states are as they were. *)
Theorem X24_counters_state_not_a_map {W : Type} `{Writer W}
    (t : @Renderer W * string) (rest : list (@Renderer W * string))
    (w : W) (ctx : Context) (v : Value) :
  states ctx !! "counters" = Some (OtherState v) ->
  t.1 = (incrementTag t.2).1 \/ t.1 = (decrementTag t.2).1 ->
  render_tags (t :: rest) w ctx = (w, with_args ctx t.2, Some not_a_map).
Proof.
  intros Hs Ht. destruct t as [r args]. cbn [fst snd] in *.
  cbn [render_tags].
  destruct Ht as [-> | ->];
    cbn [incrementTag decrementTag counterCompiler fst];
    now rewrite (counterTag_other _ w (with_args ctx args) v Hs).
Qed.

End CounterTags.

(** ** More of the conversions *)

Section ConvertMore.

Import Values ValuesMore.

Variable libConvert : Value -> GoType -> Value.
Variable ParseDate : string -> Value * option TypeError.
Variable convertValueToNumber : Value -> GoType -> Value.
Variable convertOtherKind : Value -> GoType -> Value * option TypeError.

Local Abbreviation Convert_ :=
  (Convert libConvert ParseDate convertValueToNumber convertOtherKind).
Local Abbreviation MustConvert_ :=
  (MustConvert libConvert ParseDate convertValueToNumber convertOtherKind).

Lemma GoType_eqb_refl (t : GoType) : GoType_eqb t t = true.
Proof.
  induction t as [k|e IH|k IHk e IHe| |n]; cbn [GoType_eqb].
  - now destruct k.
  - exact IH.
  - now rewrite IHk, IHe.
  - reflexivity.
  - apply String.eqb_refl.
Qed.

(** X25: a value that is not nil converts to the empty interface, and
    to its own type where this is not string, as itself, the value that
    [ToLiquid] gives, with no error and without the conversions of the
    library. *)
Theorem X25_convert_to_own_type (value : Value) (t : GoType) :
  TypeOf (ToLiquid value) = Some t ->
  Convert_ value EmptyInterface = (ToLiquid value, None)
  /\ (Kind_eqb (KindOf t) KString = false ->
      Convert_ value t = (ToLiquid value, None)).
Proof.
  intros Ht.
  assert (Hn : isNil (ToLiquid value) = false)
    by (destruct (ToLiquid value); [discriminate|reflexivity..]).
  unfold Convert, reflect_Convert. cbn zeta. rewrite Ht, Hn. split.
  - cbn [KindOf Kind_eqb negb andb].
    replace (ConvertibleTo t EmptyInterface) with true
      by (unfold ConvertibleTo; destruct t as [k|e|k e| |n]; cbn [GoType_eqb orb];
          try reflexivity; try (now destruct k); now destruct e).
    cbn [GoType_eqb]. now rewrite orb_true_r.
  - intros Hk. rewrite Hk. unfold ConvertibleTo.
    now rewrite GoType_eqb_refl.
Qed.

(** X26: [MustConvert] does not panic where the target is bool: it
    gives a bool, false where the value that [ToLiquid] gives is nil or
    the boolean false, and true for every other value. *)
Theorem X26_must_convert_total (value : Value) :
  MustConvert_ value (Basic KBool)
  = Returns (VBool (negb (isNil (ToLiquid value) || isFalse (ToLiquid value)))).
Proof.
  unfold MustConvert, Convert, reflect_Convert. cbn zeta.
  destruct (ToLiquid value) as [|[]| | | | | |]; reflexivity.
Qed.

End ConvertMore.



(** *** The parser theorems at sample inputs *)

Section ParserMoreRuns.

Import Parser Render Streams Samples.
Local Open Scope list_scope.

Local Abbreviation run_ := (run (G := gmap string blockSyntax) parse_any quote_verbatim).
Local Abbreviation parseTokens_ :=
  (parseTokens (G := gmap string blockSyntax) parse_any quote_verbatim).

Lemma X1_leaves_parse_in_order_witness :
  let tokens := [text_token loc0 "pre"; obj_token "a" "{{ a }}";
                 tag_token "undefined_tag" "" "{% undefined_tag %}"] in
  parseTokens_ standard tokens
  = Return (Some (Seq [Text (text_token loc0 "pre");
                       Object (obj_token "a" "{{ a }}") "a";
                       Tag (tag_token "undefined_tag" "" "{% undefined_tag %}")])) None.
Proof.
  intros tokens.
  assert (Hl : leaves (BS := blockSyntax) parse_any (Config_Grammar standard) tokens
               = Some [TextRef {| ASTText_Token := text_token loc0 "pre" |};
                       ObjectRef {| ASTObject_Token := obj_token "a" "{{ a }}"; Expr := "a" |};
                       TagRef {| ASTTag_Token :=
                                   tag_token "undefined_tag" "" "{% undefined_tag %}" |}])
    by (vm_compute; reflexivity).
  exact (proj1 (X1_leaves_parse_in_order parse_any quote_verbatim standard tokens _ Hl)).
Defined.

(** A parser of expressions that takes no source, to see an error. *)
Lemma X2_object_expression_error_witness :
  let reject := fun src : string => inr src : string + string in
  let tok := obj_token "syntax error" "{{ syntax error }}" in
  parseTokens (G := gmap string blockSyntax) reject quote_verbatim standard
    [text_token loc0 "pre"; tok; text_token loc0 "post"]
  = Return None (Some (WrapError "syntax error" tok)).
Proof.
  intros reject tok.
  pose (st := set_mem (append_at RootChildren
                         (TextRef {| ASTText_Token := text_token loc0 "pre" |})
                         (mem initial))
                (initial : @state blockSyntax string)).
  exact (X2_object_expression_error reject quote_verbatim standard
           [text_token loc0 "pre"] [text_token loc0 "post"] tok st "syntax error"
           eq_refl eq_refl eq_refl eq_refl eq_refl).
Defined.

Lemma X3_unterminated_comment_witness :
  let pre := [text_token loc0 "pre"] in
  let open := tag_token "comment" "" "{% comment %}" in
  let rest := [text_token loc0 "lost"; tag_token "if" "x" "{% if x %}"] in
  parseTokens_ standard (pre ++ open :: rest) = parseTokens_ standard pre.
Proof.
  intros pre open rest.
  pose (st := set_mem (append_at RootChildren
                         (TextRef {| ASTText_Token := text_token loc0 "pre" |})
                         (mem initial))
                (initial : @state blockSyntax string)).
  pose (cs := {| name := "comment"; isClause := false; isEnd := false;
                 startName := ""; parents := [] |}).
  assert (Hg : Grammar_BlockSyntax (Config_Grammar standard) "comment" = Some cs)
    by (vm_compute; reflexivity).
  assert (Hrest : Forall (fun t => is_tag_named "endcomment" t = false) rest)
    by (repeat constructor).
  exact (X3_unterminated_comment parse_any quote_verbatim standard pre rest open st cs
           eq_refl eq_refl eq_refl eq_refl Hg Hrest).
Defined.

Lemma X4_unterminated_raw_witness :
  let pre := [text_token loc0 "pre"] in
  let open := tag_token "raw" "" "{% raw %}" in
  let rest := [text_token loc0 "kept"; tag_token "if" "x" "{% if x %}"] in
  parseTokens_ standard (pre ++ open :: rest)
  = Return (Some (Seq [Text (text_token loc0 "pre"); Raw ["kept"; "{% if x %}"]])) None.
Proof.
  intros pre open rest.
  pose (st := set_mem (append_at RootChildren
                         (TextRef {| ASTText_Token := text_token loc0 "pre" |})
                         (mem initial))
                (initial : @state blockSyntax string)).
  pose (cs := {| name := "raw"; isClause := false; isEnd := false;
                 startName := ""; parents := [] |}).
  assert (Hg : Grammar_BlockSyntax (Config_Grammar standard) "raw" = Some cs)
    by (vm_compute; reflexivity).
  assert (Hrest : Forall (fun t => is_tag_named "endraw" t = false) rest)
    by (repeat constructor).
  destruct (X4_unterminated_raw parse_any quote_verbatim standard pre rest open st cs
              eq_refl eq_refl eq_refl eq_refl Hg Hrest) as [_ Hparse].
  exact (Hparse eq_refl).
Defined.

Lemma X5_parser_only_appends_witness :
  let tok := tag_token "if" "x" "{% if x %}" in
  let cs := {| name := "if"; isClause := false; isEnd := false;
               startName := ""; parents := [] |} in
  let st := block_start tok cs (initial : @state blockSyntax string) in
  extends (mem st)
    (mem (set_mem (append_at (BodyOf 0) (TextRef {| ASTText_Token := text_token loc0 "a" |})
                     (mem st)) st)).
Proof.
  intros tok cs st.
  exact (X5_parser_only_appends parse_any quote_verbatim standard_grammar
           [text_token loc0 "a"] st _ eq_refl).
Defined.

(** The records of the registry are such a grammar, whatever is
    registered. *)
Lemma X6_parse_never_panics_witness :
  (exists t, parseTokens_ standard [tag_token "endif" "" "{% endif %}"]
             = Return (Some t) None)
  \/ (exists e, parseTokens_ standard [tag_token "endif" "" "{% endif %}"]
                = Return None (Some e)).
Proof.
  apply (X6_parse_never_panics parse_any quote_verbatim standard).
  intros tag [n isC isE sn ps] _. cbn. destruct isC, isE; cbn; intros E;
    try discriminate E; (split; [reflexivity|]); auto.
Defined.

(** [{% if x %}a{% else %}b{% endif %}]. *)
Lemma X7_block_with_clauses_witness :
  let open := tag_token "if" "x" "{% if x %}" in
  let els := tag_token "else" "" "{% else %}" in
  let close := tag_token "endif" "" "{% endif %}" in
  let cs := {| name := "if"; isClause := false; isEnd := false;
               startName := ""; parents := [] |} in
  let cc := {| name := "else"; isClause := true; isEnd := false;
               startName := ""; parents := ["case"; "if"; "unless"] |} in
  parseTokens_ standard [open; text_token loc0 "a"; els; text_token loc0 "b"; close]
  = Return (Some (Seq [Block open cs [Text (text_token loc0 "a")]
                         [Block els cc [Text (text_token loc0 "b")] []]])) None.
Proof.
  intros open els close cs cc.
  pose (ce := {| name := "endif"; isClause := false; isEnd := true;
                 startName := "if"; parents := [] |}).
  assert (Hopen : opens (Config_Grammar standard) open cs).
  { repeat split; try discriminate; vm_compute; reflexivity. }
  assert (Hcl : clause_in (Config_Grammar standard) cs els cc).
  { repeat split; try discriminate; vm_compute; reflexivity. }
  assert (Hclose : closes (Config_Grammar standard) cs close ce).
  { repeat split; try discriminate; vm_compute; reflexivity. }
  assert (Hparts : Forall (fun part : clause_part (BS := blockSyntax) =>
                             clause_in (Config_Grammar standard) cs part.1.1 part.1.2)
                          [(els, cc, [text_token loc0 "b"])])
    by (constructor; [exact Hcl | constructor]).
  exact (X7_block_with_clauses parse_any quote_verbatim standard
           [] [text_token loc0 "a"] [] [] _ [] open close cs ce
           [(els, cc, [text_token loc0 "b"])] _
           eq_refl eq_refl eq_refl Hopen Hparts eq_refl Hclose).
Defined.

End ParserMoreRuns.

(** *** The unregistered tag of the compiler tests *)

Section UnregisteredTagRuns.

Import Parser Render Streams Samples.
Local Open Scope list_scope.

Local Abbreviation parseTokens_ :=
  (parseTokens (G := gmap string blockSyntax) parse_any quote_verbatim).
Local Abbreviation compileNode_ :=
  (compileNode (BS := blockSyntax) (Expression := string) (ExprError := string)
     (RenderFn := unit) quote_verbatim).

(** The compiler tests: the undefined tag alone, and in the body of a
    block whose compiler is registered. *)
Lemma C4_unregistered_tag_witness :
  let c := NewConfig (AddBlock "block" ∅) in
  let block_compilers :
    gmap string (Token -> list (@Node string unit) -> list (@Node string unit)
                 -> unit + string) := {[ "block" := fun _ _ _ => inl tt ]} in
  let tok := tag_token "undefined_tag" "" "{% undefined_tag %}" in
  let open := tag_token "block" "" "{% block %}" in
  let close := tag_token "endblock" "" "{% endblock %}" in
  let cs := {| name := "block"; isClause := false; isEnd := false;
               startName := ""; parents := [] |} in
  let error := Errorf tok ("undefined tag " ++ GoFmt.quoted "undefined_tag")%string in
  (parseTokens_ c [tok] = Return (Some (Seq [Tag tok])) None
   /\ compileNode_ ∅ block_compilers (Seq [Tag tok]) = inr error)
  /\ (parseTokens_ c [open; tok; close]
      = Return (Some (Seq [Block open cs [Tag tok] []])) None
      /\ compileNode_ ∅ block_compilers (Seq [Block open cs [Tag tok] []])
         = inr error).
Proof.
  intros c block_compilers tok open close cs error.
  pose (ce := {| name := "endblock"; isClause := false; isEnd := true;
                 startName := "block"; parents := [] |}).
  assert (Hg : Grammar_BlockSyntax (Config_Grammar c) (Name tok) = None)
    by (vm_compute; reflexivity).
  assert (Hopen : opens (Config_Grammar c) open cs).
  { repeat split; try discriminate; vm_compute; reflexivity. }
  assert (Hclose : closes (Config_Grammar c) cs close ce).
  { repeat split; try discriminate; vm_compute; reflexivity. }
  destruct (C4_unregistered_tag (RenderFn := unit) parse_any quote_verbatim
              ∅ block_compilers c tok eq_refl Hg (lookup_empty _))
    as (_ & Hroot & Hblock & _).
  destruct (Hroot [] [] [] [] eq_refl eq_refl) as (Hp1 & _ & He1).
  destruct (Hblock [] [] [] [] [] [] [] [] open close cs ce
              eq_refl eq_refl eq_refl eq_refl Hopen Hclose) as (Hp2 & _ & He2).
  split; split.
  - exact Hp1.
  - exact (He1 [] eq_refl).
  - exact Hp2.
  - exact (He2 [] [] eq_refl eq_refl).
Defined.

(** C4, as stated, fails in a comment region: the unregistered tag
    leaves no node in the tree, and the tree compiles, with no compiler
    registered at all. *)
Lemma C4_unregistered_tag_counterexample :
  let tok := tag_token "undefined_tag" "" "{% undefined_tag %}" in
  let open := tag_token "comment" "" "{% comment %}" in
  let close := tag_token "endcomment" "" "{% endcomment %}" in
  TokType tok = TagTokenType
  /\ Grammar_BlockSyntax (Config_Grammar standard) (Name tok) = None
  /\ parseTokens_ standard [open; tok; close] = Return (Some (Seq [])) None
  /\ compileNode_ ∅ ∅ (Seq []) = inl (SeqNode []).
Proof.
  intros tok open close.
  split; [reflexivity|]. split; [vm_compute; reflexivity|].
  split; [vm_compute; reflexivity|reflexivity].
Qed.

End UnregisteredTagRuns.

(** *** The scanner theorem at a sample input *)

Section ScanRuns.

Import Parser Samples.

(** Default markers before and after an object written with the
    delimiters of the test. *)
Lemma C8_scan_custom_delimiters_witness :
  Scan "{{ a }}OBJECT@LEFT expr OBJECT#RIGHT{% b %}" loc0 test_delims
  = [text_token loc0 "{{ a }}";
     construct_token ObjTokenType loc0 "OBJECT@LEFT" " expr " "OBJECT#RIGHT";
     text_token loc0 "{% b %}"]
  /\ Args (construct_token ObjTokenType loc0 "OBJECT@LEFT" " expr " "OBJECT#RIGHT")
     = "expr".
Proof.
  destruct (C8_scan_custom_delimiters
              "OBJECT@LEFT" "OBJECT#RIGHT" "TAG*LEFT" "TAG!RIGHT" loc0)
    as (Htext & Hstep & _).
  pose proof (Hstep "{{ a }}" " expr " "{% b %}" true
                eq_refl eq_refl eq_refl eq_refl) as Hscan.
  cbn zeta in Hscan.
  split; [|reflexivity].
  etransitivity; [exact Hscan|].
  exact (f_equal (fun tail =>
                    [text_token loc0 "{{ a }}";
                     construct_token ObjTokenType loc0 "OBJECT@LEFT" " expr "
                       "OBJECT#RIGHT"] ++ tail)%list
           (Htext "{% b %}" eq_refl eq_refl)).
Defined.

End ScanRuns.

(** *** The filter and tag theorems at sample inputs *)

Section FilterRuns.

Import GoFmt Values ValuesMore Filters Tags.

Local Abbreviation int i := {| Number_Value := Int64 i; IsFloat := false |}.
Local Abbreviation fresh := {| TagArgs := ""; states := ∅ |}.
Local Abbreviation with_args ctx args :=
  {| TagArgs := args; states := states ctx |}.

Lemma X14_split_then_join_witness :
  let explode := fun s : string => [s] in
  Forall (fun piece => Contains piece "/" = false)
         (splitFilter explode explode "a/b//" "/")
  /\ exists k : nat,
       Join (splitFilter explode explode "a/b//" "/" ++ replicate k "")%list "/"
       = "a/b//".
Proof.
  intros explode.
  exact (X14_split_then_join explode explode "a/b//" "/" eq_refl eq_refl).
Defined.

Lemma X27_replace_without_occurrence_witness :
  let replace_empty := fun (s _ : string) (_ : Z) => s in
  remove replace_empty "hello" "lo!" = "hello"
  /\ remove_first replace_empty "hello" "lo!" = "hello"
  /\ replace replace_empty "hello" "lo!" "p" = "hello"
  /\ replace_first replace_empty "hello" "lo!" "p" = "hello".
Proof.
  intros replace_empty.
  exact (X27_replace_without_occurrence replace_empty "hello" "lo!" "p" eq_refl).
Defined.

(** The greatest [int64] and one: the sum wraps around. *)
Lemma X17_plus_minus_round_trip_witness :
  let f2i := fun f : Z => f in
  let drop_ := fun _ _ : Z => 0%Z in
  exists sum difference : Z,
    Call f2i f2i (plus drop_) (int (2 ^ 63 - 1)) (int 1) = Returns (Int64 sum)
    /\ Call f2i f2i (minus drop_) (int sum) (int 1) = Returns (Int64 (2 ^ 63 - 1))
    /\ Call f2i f2i (minus drop_) (int (2 ^ 63 - 1)) (int 1)
       = Returns (Int64 difference)
    /\ Call f2i f2i (plus drop_) (int difference) (int 1)
       = Returns (Int64 (2 ^ 63 - 1))
    /\ is_int64 sum /\ is_int64 difference.
Proof.
  intros f2i drop_.
  assert (Ha : is_int64 (2 ^ 63 - 1)) by (unfold is_int64; lia).
  exact (X17_plus_minus_round_trip f2i f2i drop_ drop_ (2 ^ 63 - 1) 1 Ha).
Defined.

Lemma X20_counters_count_from_default_witness :
  (exists ctx' : Context,
     render_tags (replicate 3 ((incrementTag "abc").1, "abc")) "" fresh
     = ("" ++ String.concat "" (Itoa <$> (Z.of_nat <$> seq 0 3)), ctx', None))
  /\ (exists ctx' : Context,
        render_tags (replicate 3 ((decrementTag "abc").1, "abc")) "" fresh
        = ("" ++ String.concat ""
                   (Itoa <$> ((fun k => (- Z.of_nat k - 1)%Z) <$> seq 0 3)),
           ctx', None)).
Proof.
  assert (Hs : states fresh !! "counters" = None) by reflexivity.
  assert (Hn : (Z.of_nat 3 <= 2 ^ 63)%Z) by lia.
  exact (X20_counters_count_from_default "abc" 3 "" fresh Hs Hn).
Defined.

Lemma X21_counters_by_name_witness :
  let after_a := (counterTag "" (with_args fresh "abc") Increment).1.2 in
  let after_b := (counterTag "" (with_args fresh "def") Decrement).1.2 in
  (counterTag "" (with_args after_a "def") Decrement).1.1
  = (counterTag "" (with_args fresh "def") Decrement).1.1
  /\ states (counterTag "" (with_args after_a "def") Decrement).1.2
     = states (counterTag "" (with_args after_b "abc") Increment).1.2.
Proof.
  exact (X21_counters_by_name Increment Decrement "abc" "def" "" "" fresh eq_refl).
Defined.

(** A counter at the greatest [int]: the increment wraps around. *)
Lemma X22_increment_decrement_share_witness :
  let counts : gmap string Z := {[ "abc" := (2 ^ 63 - 1)%Z ]} in
  let ctx := {| TagArgs := ""; states := {[ "counters" := Counters counts ]} |} in
  (exists ctx' : Context,
     render_tags [((incrementTag "abc").1, "abc"); ((decrementTag "abc").1, "abc")]
       "" ctx
     = ("" ++ Itoa (wrap64 (2 ^ 63 - 1 + 1)) ++ Itoa (2 ^ 63 - 1), ctx', None)
     /\ states ctx' = states ctx)
  /\ (exists ctx' : Context,
        render_tags [((decrementTag "abc").1, "abc"); ((incrementTag "abc").1, "abc")]
          "" ctx
        = ("" ++ Itoa (wrap64 (2 ^ 63 - 1 - 1)) ++ Itoa (2 ^ 63 - 1), ctx', None)
        /\ states ctx' = states ctx).
Proof.
  intros counts ctx.
  assert (Hs : states ctx !! "counters" = Some (Counters counts)) by reflexivity.
  assert (Hx : counts !! "abc" = Some (2 ^ 63 - 1)%Z) by reflexivity.
  assert (Hv : is_int64 (2 ^ 63 - 1)) by (unfold is_int64; lia).
  exact (X22_increment_decrement_share "abc" "" ctx counts (2 ^ 63 - 1) Hs Hx Hv).
Defined.


Lemma X24_counters_state_not_a_map_witness :
  let ctx := {| TagArgs := "";
                states := {[ "counters" := OtherState (VInt 1) ]} |} in
  render_tags [((incrementTag "abc").1, "abc"); ((decrementTag "abc").1, "abc")]
    ("out" : Buffer) ctx
  = ("out", with_args ctx "abc",
     Some "counters state is not of type map[string]int").
Proof.
  intros ctx.
  assert (Hs : states ctx !! "counters" = Some (OtherState (VInt 1)))
    by reflexivity.
  exact (X24_counters_state_not_a_map ((incrementTag "abc").1, "abc")
           [((decrementTag "abc").1, "abc")] "out" ctx (VInt 1) Hs
           (or_introl eq_refl)).
Defined.

End FilterRuns.

(** *** The tests of the sources on the filters and the counter tags *)

Section SourceTestsMore.

Import GoFmt Values ValuesMore Filters Tags.

Local Abbreviation fresh := {| TagArgs := ""; states := ∅ |}.
Local Abbreviation explode := (fun s : string => [s]).
Local Abbreviation replace_empty_ := (fun (s _ : string) (_ : Z) => s).
Local Abbreviation written tags :=
  (render_tags (W := Buffer) tags "" fresh).1.1.
Local Abbreviation inc :=
  (fun x : string => ((incrementTag (W := Buffer) x).1, x)).
Local Abbreviation dec :=
  (fun x : string => ((decrementTag (W := Buffer) x).1, x)).

(** The tag tests have 012, -1-2-3, 0121 and 0100 for these runs. *)
Example test_counter_tags :
  written [inc "abc"; inc "abc"; inc "abc"] = "012"
  /\ written [dec "abc"; dec "abc"; dec "abc"] = "-1-2-3"
  /\ written [inc "abc"; inc "abc"; inc "abc"; dec "abc"] = "0121"
  /\ written [inc "abc"; inc "abc"; inc "def"; dec "abc"] = "0100".
Proof. repeat split; vm_compute; reflexivity. Qed.

(** The filter tests have these results for the filters that replace
    and remove. *)
Example test_replace_filters :
  remove replace_empty_ "I strained to see the train through the rain" "rain"
  = "I sted to see the t through the "
  /\ remove_first replace_empty_ "I strained to see the train through the rain" "rain"
     = "I sted to see the train through the rain"
  /\ replace replace_empty_ "Take my protein pills and put my helmet on" "my" "your"
     = "Take your protein pills and put your helmet on"
  /\ replace_first replace_empty_ "Take my protein pills and put my helmet on" "my" "your"
     = "Take your protein pills and put my helmet on".
Proof. repeat split; vm_compute; reflexivity. Qed.

(** The filter tests have the empty string for a string of separators
    that is split and joined. *)
Example test_split_separators :
  splitFilter explode explode "//" "/" = []
  /\ splitFilter explode explode "/" "/" = []
  /\ splitFilter explode explode "a/b/" "/" = ["a"; "b"]
  /\ splitFilter explode explode "a//b" "/" = ["a"; ""; "b"].
Proof. repeat split; vm_compute; reflexivity. Qed.

End SourceTestsMore.

Section ConvertMoreRuns.

Import Values ValuesMore.

Lemma X25_convert_to_own_type_witness :
  let lib := fun (v : Value) (_ : GoType) => VNil in
  let other := fun (v : Value) (_ : GoType) => (VNil, Some "unused") in
  let date := fun _ : string => (VNil, Some "unused") in
  let value := VDrop (VSlice [VInt 1; VNil]) in
  Convert lib date lib other value EmptyInterface = (VSlice [VInt 1; VNil], None)
  /\ Convert lib date lib other value (SliceOf EmptyInterface)
     = (VSlice [VInt 1; VNil], None).
Proof.
  intros lib other date value.
  destruct (X25_convert_to_own_type lib date lib other value
              (SliceOf EmptyInterface) eq_refl) as [H1 H2].
  exact (conj H1 (H2 eq_refl)).
Defined.

End ConvertMoreRuns.
